(** * Verification of the portfolio page script (src/script.js)

    The script wires a handful of presentation components to the DOM once
    the document is ready: a debounce helper, the sidebar controller, the
    scroll-spy, the typing animation, the particle-field render loop, the
    lazy image loader and the keyboard shortcut.  Each component is embedded
    below as executable definitions over an explicit model of the part of the
    browser it talks to (timers, animation frames, class lists, attributes,
    intersection entries), and the statements of the specification are then
    settled against those definitions. *)

From stdpp Require Import base option list strings gmap.
From Stdlib Require Import ZArith Lia.

Local Open Scope string_scope.

(** ** JavaScript control effects

    A handler mutates the page and may throw.  A thrown exception keeps every
    mutation made before it, so the state is threaded through both outcomes. *)

Inductive exn : Type :=
| TypeError (what : string)
| ReferenceError (what : string)
| HostError (what : string).

Inductive outcome (A : Type) : Type :=
| Ret (a : A)
| Thrown (e : exn).
Arguments Ret {A} a.
Arguments Thrown {A} e.

Definition js (S A : Type) : Type := S -> S * outcome A.

Definition js_ret {S A} (a : A) : js S A := fun s => (s, Ret a).

Definition js_bind {S A B} (m : js S A) (k : A -> js S B) : js S B :=
  fun s => match m s with
           | (s', Ret a) => k a s'
           | (s', Thrown e) => (s', Thrown e)
           end.

Definition throw {S A} (e : exn) : js S A := fun s => (s, Thrown e).

Definition modify {S} (f : S -> S) : js S unit := fun s => (f s, Ret tt).

(** [try { m } catch (e) { h e }] *)
Definition try_catch {S A} (m : js S A) (h : exn -> js S A) : js S A :=
  fun s => match m s with
           | (s', Ret a) => (s', Ret a)
           | (s', Thrown e) => h e s'
           end.

(** Property access on a possibly-null reference: [x.prop] throws a
    TypeError when [x] is null. *)
Definition deref {S A} (what : string) (x : option A) : js S A :=
  match x with
  | Some a => js_ret a
  | None => throw (TypeError what)
  end.

#[global] Instance js_mret {S} : MRet (js S) := fun A a => js_ret a.
#[global] Instance js_mbind {S} : MBind (js S) := fun A B k m => js_bind m k.

(** ** Timers of the host

    [setTimeout] and [clearTimeout] over a millisecond clock.  A timer
    carries the data its callback closes over; the component that owns the
    timers says how a callback runs. *)

Module Timers.
(** The largest delay the host keeps: it stores the delay of a timer as a
    signed 32-bit integer. *)
Definition max_delay : Z := 2147483647.

(** The delay the host applies to [setTimeout(cb, wait)]: [wait] itself
    when it fits, and none when it overflows, the callback then running as
    soon as the host gets to it. *)
Definition delay_of (wait : nat) : nat :=
  if (Z.of_nat wait <=? max_delay)%Z then wait else 0.

Section Host.
Context {A : Type}.

Record timer : Type := Timer { tid : nat; due : nat; payload : A }.

Record host : Type := Host {
  now : nat;
  next_id : nat;
  pending : list timer;
  fired : nat
}.

Definition boot : host :=
  {| now := 0; next_id := 1; pending := []; fired := 0 |}.

(** [setTimeout(cb, wait)]: the new timer's id is returned.  The timer is
    due [delay_of wait] milliseconds from now. *)
Definition setTimeout (p : A) (wait : nat) (h : host) : nat * host :=
  (next_id h,
   {| now := now h;
      next_id := S (next_id h);
      pending := pending h ++ [Timer (next_id h) (now h + delay_of wait) p];
      fired := fired h |}).

(** [clearTimeout(id)]; an undefined or stale id is ignored. *)
Definition clearTimeout (id : option nat) (h : host) : host :=
  match id with
  | None => h
  | Some i =>
      {| now := now h;
         next_id := next_id h;
         pending := filter (fun t => tid t ≠ i) (pending h);
         fired := fired h |}
  end.

Definition is_due (h : host) (t : timer) : bool := bool_decide (due t ≤ now h)%nat.

(** The first timer (in creation order) whose time has come. *)
Definition next_due (h : host) : option timer :=
  List.find (is_due h) (pending h).

(** Taking a timer off the queue to run it. *)
Definition take (t : timer) (h : host) : host :=
  {| now := now h;
     next_id := next_id h;
     pending := filter (fun t' => tid t' ≠ tid t) (pending h);
     fired := S (fired h) |}.

Definition elapse (h : host) : host :=
  {| now := S (now h);
     next_id := next_id h;
     pending := pending h;
     fired := fired h |}.
End Host.
Arguments timer : clear implicits.
Arguments host : clear implicits.

(** The event loop of a component whose state [S] holds a timer host: run
    every due callback, then let the clock advance one millisecond at a
    time. *)
Section Loop.
Context {A S : Type}.
Variable get : S -> host A.
Variable set : host A -> S -> S.
Variable run : A -> S -> S.

Fixpoint fire_due (fuel : nat) (s : S) : S :=
  match fuel with
  | 0 => s
  | Datatypes.S fuel' =>
      match next_due (get s) with
      | None => s
      | Some t => fire_due fuel' (run (payload t) (set (take t (get s)) s))
      end
  end.

(** Callbacks due at one instant: those queued when the instant begins. *)
Definition settle (s : S) : S := fire_due (length (pending (get s))) s.

Definition tick (s : S) : S := settle (set (elapse (get s)) s).

Fixpoint ticks (n : nat) (s : S) : S :=
  match n with
  | 0 => s
  | Datatypes.S n' => ticks n' (tick s)
  end.

Definition advance (n : nat) (s : S) : S := ticks n (settle s).
End Loop.
End Timers.

(** ** Debounce (script.js, lines 7-17) *)

Module Debounce.
Section Wrapper.
(** The argument list of one call of the wrapper. *)
Context {Args : Type}.
Variable wait : nat.

(** The closure of [debounce(func, wait)]: its [timeout] variable, the
    host's timers, and the record of the calls of [func] (time and
    arguments), [func] being any callback.  Each timer holds the [args] its
    [later] closes over. *)
Record closure : Type := Closure {
  timeout : option nat;
  timers : Timers.host Args;
  calls : list (nat * Args)
}.

Definition fresh : closure :=
  {| timeout := None; timers := Timers.boot; calls := [] |}.

Definition set_timers (h : Timers.host Args) (c : closure) : closure :=
  {| timeout := timeout c; timers := h; calls := calls c |}.

(** [later = () => { clearTimeout(timeout); func(...args); }] *)
Definition later (args : Args) (c : closure) : closure :=
  let h := Timers.clearTimeout (timeout c) (timers c) in
  {| timeout := timeout c;
     timers := h;
     calls := calls c ++ [(Timers.now h, args)] |}.

(** [executedFunction(...args)] *)
Definition executedFunction (args : Args) (c : closure) : closure :=
  let h := Timers.clearTimeout (timeout c) (timers c) in
  let '(id, h') := Timers.setTimeout args wait h in
  {| timeout := Some id; timers := h'; calls := calls c |}.

Definition advance : nat -> closure -> closure :=
  Timers.advance timers set_timers later.

(** A burst: each call comes [gap] milliseconds after the one before. *)
Fixpoint burst (cs : list (nat * Args)) (c : closure) : closure :=
  match cs with
  | [] => c
  | (gap, args) :: cs' => burst cs' (executedFunction args (advance gap c))
  end.

Definition elapsed (cs : list (nat * Args)) : nat :=
  foldr (fun ga t => ga.1 + t) 0 cs.

(** A closure with exactly one timer, set by the last call. *)
Definition armed (k nid t d f : nat) (a : Args) : closure :=
  {| timeout := Some k;
     timers := {| Timers.now := t; Timers.next_id := nid;
                  Timers.pending := [Timers.Timer k d a]; Timers.fired := f |};
     calls := [] |}.

(** A closure with no timer left. *)
Definition idle (k : option nat) (nid t f : nat) (log : list (nat * Args))
  : closure :=
  {| timeout := k;
     timers := {| Timers.now := t; Timers.next_id := nid;
                  Timers.pending := []; Timers.fired := f |};
     calls := log |}.
End Wrapper.
End Debounce.

(** ** The part of the DOM the script touches *)

Module Dom.
(** An element: its class list (a DOMTokenList, kept in order), its
    content attributes and its inline style. *)
Record element : Type := Element {
  classList : list string;
  attributes : gmap string string;
  style : gmap string string
}.

Definition with_classes (cs : list string) (el : element) : element :=
  {| classList := cs; attributes := attributes el; style := style el |}.

Definition contains (c : string) (el : element) : bool :=
  bool_decide (c ∈ classList el).

Definition classList_add (c : string) (el : element) : element :=
  if contains c el then el else with_classes (classList el ++ [c]) el.

Definition classList_remove (c : string) (el : element) : element :=
  with_classes (filter (fun c' => c' ≠ c) (classList el)) el.

(** [classList.toggle(token, force)] *)
Definition classList_toggle (c : string) (force : bool) (el : element) : element :=
  if force then classList_add c el else classList_remove c el.

(** [getAttribute] answers null ([None]) for a missing attribute. *)
Definition getAttribute (name : string) (el : element) : option string :=
  attributes el !! name.

Definition setAttribute (name value : string) (el : element) : element :=
  {| classList := classList el;
     attributes := <[name := value]> (attributes el);
     style := style el |}.

Definition removeAttribute (name : string) (el : element) : element :=
  {| classList := classList el;
     attributes := delete name (attributes el);
     style := style el |}.

Definition setStyle (prop value : string) (el : element) : element :=
  {| classList := classList el;
     attributes := attributes el;
     style := <[prop := value]> (style el) |}.

(** String conversion of a boolean, as [setAttribute] applies it. *)
Definition string_of_bool (b : bool) : string := if b then "true" else "false".

(** String conversion of a possibly-null string inside a template
    literal: null prints as the four letters "null". *)
Definition template_string (v : option string) : string := default "null" v.
End Dom.

(** ** Sidebar controller (script.js, lines 38-62 and 264-269) *)

Module Sidebar.
Import Dom.

Inductive listener : Type :=
| OnHamburgerClick
| OnOverlayClick
| OnSidebarLinkClick
| OnKeydown.

#[global] Instance listener_eq_dec : EqDecision listener.
Proof. solve_decision. Defined.

(** The result of the three [querySelector] calls (null when no element
    matches), the body, the listeners attached so far and whether the
    hamburger holds the focus. *)
Record page : Type := Page {
  hamburger : option element;
  sidebar : option element;
  overlay : option element;
  body : element;
  listeners : list listener;
  hamburger_focused : bool
}.

Definition set_hamburger (el : element) (p : page) : page :=
  {| hamburger := Some el; sidebar := sidebar p; overlay := overlay p;
     body := body p; listeners := listeners p;
     hamburger_focused := hamburger_focused p |}.

Definition set_sidebar (el : element) (p : page) : page :=
  {| hamburger := hamburger p; sidebar := Some el; overlay := overlay p;
     body := body p; listeners := listeners p;
     hamburger_focused := hamburger_focused p |}.

Definition set_overlay (el : element) (p : page) : page :=
  {| hamburger := hamburger p; sidebar := sidebar p; overlay := Some el;
     body := body p; listeners := listeners p;
     hamburger_focused := hamburger_focused p |}.

Definition set_body (el : element) (p : page) : page :=
  {| hamburger := hamburger p; sidebar := sidebar p; overlay := overlay p;
     body := el; listeners := listeners p;
     hamburger_focused := hamburger_focused p |}.

Definition addEventListener (l : listener) (p : page) : page :=
  {| hamburger := hamburger p; sidebar := sidebar p; overlay := overlay p;
     body := body p; listeners := listeners p ++ [l];
     hamburger_focused := hamburger_focused p |}.

Definition set_focus (p : page) : page :=
  {| hamburger := hamburger p; sidebar := sidebar p; overlay := overlay p;
     body := body p; listeners := listeners p;
     hamburger_focused := true |}.

(** [toggleSidebar(show)]; [None] is the call without an argument. *)
Definition toggleSidebar (show : option bool) : js page unit :=
  sb ← (fun p => deref "sidebar.classList" (sidebar p) p);
  let isVisible := contains "show" sb in
  let showSidebar := match show with Some b => b | None => negb isVisible end in
  hb ← (fun p => deref "hamburger.classList" (hamburger p) p);
  modify (set_hamburger (classList_toggle "active" showSidebar hb));;
  sb ← (fun p => deref "sidebar.classList" (sidebar p) p);
  modify (set_sidebar (classList_toggle "show" showSidebar sb));;
  ov ← (fun p => deref "overlay.classList" (overlay p) p);
  modify (set_overlay (classList_toggle "show" showSidebar ov));;
  modify (fun p => set_body (classList_toggle "sidebar-open" showSidebar (body p)) p);;
  hb ← (fun p => deref "hamburger.setAttribute" (hamburger p) p);
  modify (set_hamburger
            (setAttribute "aria-expanded" (string_of_bool showSidebar) hb)).

(** Lines 50-62: the click listeners, attached only when the three
    elements exist. *)
Definition wire_clicks : js page unit :=
  fun p =>
    if bool_decide (is_Some (hamburger p))
       && bool_decide (is_Some (sidebar p))
       && bool_decide (is_Some (overlay p))
    then (addEventListener OnSidebarLinkClick
            (addEventListener OnOverlayClick
               (addEventListener OnHamburgerClick p)), Ret tt)
    else (p, Ret tt).

(** Lines 264-269: the keydown listener on the document. *)
Definition wire_keydown : js page unit := modify (addEventListener OnKeydown).

Definition on_hamburger_click : js page unit := toggleSidebar None.

Definition on_overlay_click : js page unit := toggleSidebar (Some false).

Definition on_link_click : js page unit :=
  sb ← (fun p => deref "sidebar.classList" (sidebar p) p);
  if contains "show" sb then toggleSidebar (Some false) else mret tt.

Definition on_keydown (key : string) : js page unit :=
  if bool_decide (key = "Escape") then
    sb ← (fun p => deref "sidebar.classList" (sidebar p) p);
    if contains "show" sb then
      toggleSidebar (Some false);;
      _ ← (fun p => deref "hamburger.focus" (hamburger p) p);
      modify set_focus
    else mret tt
  else mret tt.

Inductive event : Type :=
| ClickHamburger
| ClickOverlay
| ClickSidebarLink
| Keydown (key : string).

Definition handler (ev : event) : listener * js page unit :=
  match ev with
  | ClickHamburger => (OnHamburgerClick, on_hamburger_click)
  | ClickOverlay => (OnOverlayClick, on_overlay_click)
  | ClickSidebarLink => (OnSidebarLinkClick, on_link_click)
  | Keydown key => (OnKeydown, on_keydown key)
  end.

(** An event runs its handler when the listener was attached. *)
Definition dispatch (ev : event) : js page unit :=
  fun p =>
    let '(l, h) := handler ev in
    if bool_decide (l ∈ listeners p) then h p else (p, Ret tt).

Definition isVisible (p : page) : bool :=
  match sidebar p with
  | Some sb => contains "show" sb
  | None => false
  end.

(** The five markers [toggleSidebar] writes, read back. *)
Definition markers (p : page) : list (option bool) :=
  [ contains "active" <$> hamburger p;
    contains "show" <$> sidebar p;
    contains "show" <$> overlay p;
    Some (contains "sidebar-open" (body p)) ].

Definition aria_expanded (p : page) : option string :=
  hb ← hamburger p; getAttribute "aria-expanded" hb.
End Sidebar.

(** ** Scroll-spy (script.js, lines 65-87) *)

Module ScrollSpy.
Import Dom.

Record entry : Type := Entry { isIntersecting : bool; target : element }.

(** The body of [navLinks.forEach] for one link, [id] being
    [entry.target.getAttribute("id")]. *)
Definition mark (id : option string) (link : element) : element :=
  let link := classList_remove "active" link in
  if bool_decide (getAttribute "href" link = Some ("#" +:+ template_string id))
  then classList_add "active" link
  else link.

Definition on_entry (navLinks : list element) (e : entry) : list element :=
  if isIntersecting e
  then mark (getAttribute "id" (target e)) <$> navLinks
  else navLinks.

(** The observer callback: [entries.forEach], in order. *)
Definition sectionObserver (entries : list entry) (navLinks : list element)
  : list element :=
  foldl on_entry navLinks entries.

Definition active (link : element) : bool := contains "active" link.

(** The callback touches nothing but the [active] class of a link. *)
Definition same_but_active (l l' : element) : Prop :=
  attributes l' = attributes l
  ∧ style l' = style l
  ∧ ∀ c, c ≠ "active" -> contains c l' = contains c l.
End ScrollSpy.

(** ** Typing animation (script.js, lines 89-131) *)

Module Typing.
Definition typeSpeed : nat := 100.
Definition deleteSpeed : nat := 50.
Definition delayBetweenPhrases : nat := 2000.
Definition startDelay : nat := 500.

(** The phrase list of the script. *)
Definition site_phrases : list string :=
  ["developer."; "problem solver."; "computer engineer."].

(** [s.substring(0, n)]: the end index is clamped to [0, s.length]. *)
Definition substring0 (s : string) (n : Z) : string :=
  String.substring 0 (Z.to_nat n) s.

(** The closure variables of the animation, the text of the element and
    the timers of the host. *)
Record animator : Type := Animator {
  phraseIndex : nat;
  charIndex : Z;
  isDeleting : bool;
  textContent : string;
  timers : Timers.host unit
}.

Definition set_timers (h : Timers.host unit) (a : animator) : animator :=
  {| phraseIndex := phraseIndex a; charIndex := charIndex a;
     isDeleting := isDeleting a; textContent := textContent a;
     timers := h |}.

Section Animation.
(** [prefersReducedMotion], read once when the script loads. *)
Variable prefersReducedMotion : bool.
Variable phrases : list string.

Definition animateTyping (a : animator) : animator * outcome unit :=
  match phrases !! phraseIndex a with
  | None => (a, Thrown (TypeError "currentPhrase.substring"))
  | Some currentPhrase =>
      let '(displayText, charIndex') :=
        if isDeleting a
        then (substring0 currentPhrase (charIndex a - 1), (charIndex a - 1)%Z)
        else (substring0 currentPhrase (charIndex a + 1), (charIndex a + 1)%Z) in
      let timeout := if isDeleting a then deleteSpeed else typeSpeed in
      let '(isDeleting', phraseIndex', timeout') :=
        if negb (isDeleting a)
           && (charIndex' =? Z.of_nat (String.length currentPhrase))%Z
        then (true, phraseIndex a, delayBetweenPhrases)
        else if isDeleting a && (charIndex' =? 0)%Z
        then (false, (phraseIndex a + 1) `mod` length phrases, timeout)
        else (isDeleting a, phraseIndex a, timeout) in
      if negb prefersReducedMotion
      then ({| phraseIndex := phraseIndex'; charIndex := charIndex';
               isDeleting := isDeleting'; textContent := displayText;
               timers := (Timers.setTimeout tt timeout' (timers a)).2 |},
            Ret tt)
      else ({| phraseIndex := phraseIndex'; charIndex := charIndex';
               isDeleting := isDeleting';
               textContent := default "" (phrases !! 0);
               timers := timers a |},
            Ret tt)
  end.

(** Line 130, run when the element exists: the state the closure starts
    from, [text0] being the text the markup gives the element. *)
Definition start (text0 : string) : animator :=
  {| phraseIndex := 0; charIndex := 0; isDeleting := false;
     textContent := text0;
     timers := (Timers.setTimeout tt startDelay Timers.boot).2 |}.

(** An exception leaving a timer callback ends that callback only. *)
Definition advance : nat -> animator -> animator :=
  Timers.advance timers set_timers (fun _ a => (animateTyping a).1).

(** The element's text after each of the first [n] runs of
    [animateTyping], the timers set aside. *)
Fixpoint run (n : nat) (a : animator) : animator :=
  match n with
  | 0 => a
  | S n' => run n' (animateTyping a).1
  end.

Fixpoint displayed (n : nat) (a : animator) : list string :=
  match n with
  | 0 => []
  | S n' =>
      let a' := (animateTyping a).1 in
      textContent a' :: displayed n' a'
  end.

(** The closure variables between two runs: an index into the phrase list,
    and a character count inside the phrase, not yet at the end while
    growing and not yet at zero while shrinking. *)
Definition well_formed (a : animator) : Prop :=
  ∃ p, phrases !! phraseIndex a = Some p
       ∧ (if isDeleting a
          then 1 ≤ charIndex a ≤ Z.of_nat (String.length p)
          else 0 ≤ charIndex a < Z.of_nat (String.length p))%Z.

(** The animator [n] milliseconds later, no timer having fired. *)
Definition later_by (n : nat) (a : animator) : animator :=
  set_timers {| Timers.now := Timers.now (timers a) + n;
                Timers.next_id := Timers.next_id (timers a);
                Timers.pending := Timers.pending (timers a);
                Timers.fired := Timers.fired (timers a) |} a.

(** The animator after [n] quiet milliseconds and the millisecond that
    follows them. *)
Definition next_run (n : nat) (a : animator) : animator :=
  Timers.tick timers set_timers (fun _ a => (animateTyping a).1) (later_by n a).

(** The state while the first timer is pending, at time [t]. *)
Definition waiting (text0 : string) (t : nat) : animator :=
  {| phraseIndex := 0; charIndex := 0; isDeleting := false;
     textContent := text0;
     timers := {| Timers.now := t; Timers.next_id := 2;
                  Timers.pending := [Timers.Timer 1 startDelay tt];
                  Timers.fired := 0 |} |}.

(** The state once that timer has fired under reduced motion, [p0] being
    the first phrase. *)
Definition settled (p0 : string) (t : nat) : animator :=
  {| phraseIndex := 0; charIndex := 1;
     isDeleting := (1 =? Z.of_nat (String.length p0))%Z;
     textContent := p0;
     timers := {| Timers.now := t; Timers.next_id := 2;
                  Timers.pending := []; Timers.fired := 1 |} |}.
End Animation.
End Typing.

(** ** Particle-field render loop (script.js, lines 188-206) *)

Module Particles.
(** [document.hidden], the [animationId] variable, the frame requests the
    host holds, and the number of frames drawn. *)
Record renderer : Type := Renderer {
  hidden : bool;
  animationId : option nat;
  requests : list nat;
  next_request : nat;
  rendered : nat
}.

Definition requestAnimationFrame (r : renderer) : nat * renderer :=
  (next_request r,
   {| hidden := hidden r; animationId := animationId r;
      requests := requests r ++ [next_request r];
      next_request := S (next_request r);
      rendered := rendered r |}).

(** [cancelAnimationFrame(id)]; an undefined or stale id is ignored. *)
Definition cancelAnimationFrame (id : option nat) (r : renderer) : renderer :=
  match id with
  | None => r
  | Some i =>
      {| hidden := hidden r; animationId := animationId r;
         requests := filter (fun j => j ≠ i) (requests r);
         next_request := next_request r;
         rendered := rendered r |}
  end.

(** [animate]: request the next frame, remember its id, draw. *)
Definition animate (r : renderer) : renderer :=
  let '(id, r') := requestAnimationFrame r in
  {| hidden := hidden r'; animationId := Some id;
     requests := requests r'; next_request := next_request r';
     rendered := S (rendered r') |}.

(** The drawing half of [animate], the request being made. *)
Definition animate_drawn (r : renderer) : renderer :=
  {| hidden := hidden r; animationId := animationId r;
     requests := requests r; next_request := next_request r;
     rendered := S (rendered r) |}.

(** The [visibilitychange] listener. *)
Definition on_visibilitychange (r : renderer) : renderer :=
  if hidden r then cancelAnimationFrame (animationId r) r else animate r.

(** The loop as the setup leaves it (line 198), on a page that is
    [hidden0] at that moment. *)
Definition start (hidden0 : bool) : renderer :=
  animate {| hidden := hidden0; animationId := None; requests := [];
             next_request := 1; rendered := 0 |}.

Inductive event : Type :=
| VisibilityChange   (* the page goes from visible to hidden or back *)
| Frame.             (* the host reaches its next animation frame *)

Definition set_hidden (b : bool) (r : renderer) : renderer :=
  {| hidden := b; animationId := animationId r; requests := requests r;
     next_request := next_request r; rendered := rendered r |}.

Definition take_requests (r : renderer) : renderer :=
  {| hidden := hidden r; animationId := animationId r; requests := [];
     next_request := next_request r; rendered := rendered r |}.

(** A frame runs the callbacks requested so far, once each; a hidden page
    gets no frames. *)
Definition step (r : renderer) (ev : event) : renderer :=
  match ev with
  | VisibilityChange => on_visibilitychange (set_hidden (negb (hidden r)) r)
  | Frame =>
      if hidden r then r
      else foldl (fun r' _ => animate r') (take_requests r) (requests r)
  end.

Definition run (evs : list event) (r : renderer) : renderer :=
  foldl step r evs.

(** The loop of a page that was visible at the setup: one request while
    visible, whose id [animationId] holds, and none while hidden. *)
Definition single_loop (r : renderer) : Prop :=
  if hidden r
  then requests r = []
  else ∃ id, requests r = [id] ∧ animationId r = Some id.

(** The loops of a page that was hidden at the setup, once it has been
    shown: a request [a] that [animationId] does not hold, next to the one
    it holds while visible. *)
Definition double_loop (r : renderer) : Prop :=
  ∃ a, (a < next_request r)%nat
       ∧ if hidden r
         then requests r = [a]
         else ∃ b, (b < next_request r)%nat ∧ a ≠ b
                   ∧ requests r = [a; b] ∧ animationId r = Some b.
End Particles.

(** ** Lazy image loader (script.js, lines 213-242) *)

Module LazyImages.
Import Dom.

(** An intersection entry; the target is given by its position in
    [lazyImages]. *)
Record entry : Type := Entry { isIntersecting : bool; target : nat }.

(** The images of [lazyImages], the targets the observer watches, every
    assignment to an [src] (image and value) in order, and the images that
    got an [onload] handler. *)
Record loader : Type := Loader {
  images : list element;
  observed : list nat;
  src_writes : list (nat * string);
  onload : list nat
}.

(** [document.querySelectorAll("img[data-src]")] over the page's images. *)
Definition lazyImages (imgs : list element) : list element :=
  filter (fun img => is_Some (getAttribute "data-src" img)) imgs.

(** The value [img.dataset.src] gives the [src] setter. *)
Definition dataset_src (img : element) : string :=
  default "undefined" (getAttribute "data-src" img).

(** [img.src = img.dataset.src; img.removeAttribute("data-src")] *)
Definition load (img : element) : element :=
  removeAttribute "data-src" (setAttribute "src" (dataset_src img) img).

Definition on_entry (st : loader) (e : entry) : loader :=
  if isIntersecting e then
    match images st !! target e with
    | None => st
    | Some img =>
        {| images := <[target e := load img]> (images st);
           observed := filter (fun j => j ≠ target e) (observed st);
           src_writes := src_writes st ++ [(target e, dataset_src img)];
           onload := onload st ++ [target e] |}
    end
  else st.

(** The observer is created with [rootMargin: "100px"]: the host reports a
    target as intersecting when its distance to the viewport, in pixels
    (zero or less inside it), is within the margin. *)
Definition rootMargin : Z := 100.

Definition entry_at (distance : Z) (i : nat) : entry :=
  {| isIntersecting := bool_decide (distance ≤ rootMargin)%Z; target := i |}.

(** The observer callback. *)
Definition imageObserver (entries : list entry) (st : loader) : loader :=
  foldl on_entry st entries.

Definition prepare (img : element) : element :=
  setStyle "transition" "opacity 0.3s" (setStyle "opacity" "0" img).

(** Lines 214-242; [supported] is ["IntersectionObserver" in window]. *)
Definition init (supported : bool) (imgs : list element) : loader :=
  let lazy := lazyImages imgs in
  if supported && bool_decide (0 < length lazy)%nat then
    {| images := prepare <$> lazy;
       observed := seq 0 (length lazy);
       src_writes := [];
       onload := [] |}
  else
    {| images := load <$> lazy;
       observed := [];
       src_writes := imap (fun i img => (i, dataset_src img)) lazy;
       onload := [] |}.

(** What the host may deliver: entries for targets the observer watches
    at that moment, each target at most once in a batch. *)
Definition deliverable (st : loader) (batch : list entry) : Prop :=
  NoDup (target <$> batch) ∧ Forall (fun e => target e ∈ observed st) batch.

Fixpoint deliverable_run (st : loader) (batches : list (list entry)) : Prop :=
  match batches with
  | [] => True
  | b :: bs => deliverable st b ∧ deliverable_run (imageObserver b st) bs
  end.

Definition deliver (batches : list (list entry)) (st : loader) : loader :=
  foldl (fun st b => imageObserver b st) st batches.

(** Whether some delivered entry reports image [i] as intersecting. *)
Definition reported (i : nat) (batches : list (list entry)) : bool :=
  existsb (existsb (fun e => isIntersecting e && bool_decide (target e = i)))
          batches.

Definition src_of (st : loader) (i : nat) : option string :=
  img ← (images st !! i); getAttribute "src" img.

Definition data_src_of (st : loader) (i : nat) : option string :=
  img ← (images st !! i); getAttribute "data-src" img.

Definition writes_to (i : nat) (st : loader) : list string :=
  snd <$> filter (fun w => w.1 = i) (src_writes st).

(** Whether entry [e] reports image [i] as intersecting. *)
Definition hits (i : nat) (e : entry) : bool :=
  isIntersecting e && bool_decide (target e = i).

(** Image [i], which the markup gave as [img], has not been touched since
    the observer was set up. *)
Definition untouched (i : nat) (img : element) (st : loader) : Prop :=
  images st !! i = Some (prepare img)
  ∧ i ∈ observed st
  ∧ writes_to i st = [].

(** Image [i] has been loaded from [u], once, and is no longer watched. *)
Definition loaded (i : nat) (img : element) (u : string) (st : loader) : Prop :=
  images st !! i = Some (load (prepare img))
  ∧ (i ∉ observed st)
  ∧ writes_to i st = [u].
End LazyImages.

(** ** The DOMContentLoaded handler (script.js, lines 24-272) *)

Module Page.
Import Dom.

(** The calls into the rendering library made by the setup, in the order
    of lines 136-196. *)
Inductive three_call : Type :=
| NewScene
| NewPerspectiveCamera
| NewWebGLRenderer
| SetPixelRatio
| SetSize
| UpdateProjectionMatrix
| NewBufferGeometry
| NewFloat32Array
| NewBufferAttribute
| SetAttribute
| NewPointsMaterial
| NewPoints
| SceneAdd
| NewClock
| GetElapsedTime
| Render.

(** What the handler finds around it: the capabilities of the host, and
    for each library call whether it throws. *)
Record host : Type := Host {
  has_IntersectionObserver : bool;
  has_THREE : bool;
  faults : three_call -> option exn;
  prefersReducedMotion : bool;
  document_hidden : bool
}.

(** The node lists the handler queries and never changes. *)
Record document : Type := Document {
  navLinks : list element;
  sections : list element;
  typewriterElement : option string;
  imgs : list element;
  anchors : nat
}.

Inductive console_entry : Type :=
| Warn (msg : string) (e : exn)
| Log (msg : string).

(** Everything the handler writes. *)
Record world : Type := World {
  page : Sidebar.page;
  observed_sections : list element;
  typing : option Typing.animator;
  canvas : option element;
  loop : option Particles.renderer;
  window_listeners : list string;
  lazy : option LazyImages.loader;
  anchor_listeners : nat;
  console : list console_entry
}.

Definition on_page (m : js Sidebar.page unit) : js world unit :=
  fun w =>
    let '(p, r) := m (page w) in
    ({| page := p; observed_sections := observed_sections w;
        typing := typing w; canvas := canvas w; loop := loop w;
        window_listeners := window_listeners w; lazy := lazy w;
        anchor_listeners := anchor_listeners w; console := console w |}, r).

Definition observe_sections (ss : list element) (w : world) : world :=
  {| page := page w; observed_sections := observed_sections w ++ ss;
     typing := typing w; canvas := canvas w; loop := loop w;
     window_listeners := window_listeners w; lazy := lazy w;
     anchor_listeners := anchor_listeners w; console := console w |}.

Definition set_typing (a : Typing.animator) (w : world) : world :=
  {| page := page w; observed_sections := observed_sections w;
     typing := Some a; canvas := canvas w; loop := loop w;
     window_listeners := window_listeners w; lazy := lazy w;
     anchor_listeners := anchor_listeners w; console := console w |}.

Definition set_canvas (c : option element) (w : world) : world :=
  {| page := page w; observed_sections := observed_sections w;
     typing := typing w; canvas := c; loop := loop w;
     window_listeners := window_listeners w; lazy := lazy w;
     anchor_listeners := anchor_listeners w; console := console w |}.

Definition set_loop (r : Particles.renderer) (w : world) : world :=
  {| page := page w; observed_sections := observed_sections w;
     typing := typing w; canvas := canvas w; loop := Some r;
     window_listeners := window_listeners w; lazy := lazy w;
     anchor_listeners := anchor_listeners w; console := console w |}.

Definition listen (name : string) (w : world) : world :=
  {| page := page w; observed_sections := observed_sections w;
     typing := typing w; canvas := canvas w; loop := loop w;
     window_listeners := window_listeners w ++ [name]; lazy := lazy w;
     anchor_listeners := anchor_listeners w; console := console w |}.

Definition set_lazy (l : LazyImages.loader) (w : world) : world :=
  {| page := page w; observed_sections := observed_sections w;
     typing := typing w; canvas := canvas w; loop := loop w;
     window_listeners := window_listeners w; lazy := Some l;
     anchor_listeners := anchor_listeners w; console := console w |}.

Definition set_anchor_listeners (n : nat) (w : world) : world :=
  {| page := page w; observed_sections := observed_sections w;
     typing := typing w; canvas := canvas w; loop := loop w;
     window_listeners := window_listeners w; lazy := lazy w;
     anchor_listeners := n; console := console w |}.

Definition print (e : console_entry) (w : world) : world :=
  {| page := page w; observed_sections := observed_sections w;
     typing := typing w; canvas := canvas w; loop := loop w;
     window_listeners := window_listeners w; lazy := lazy w;
     anchor_listeners := anchor_listeners w; console := console w ++ [e] |}.

(** Two worlds that differ at most in the render loop and the window
    listeners, the only things the setup of the particle field writes. *)
Definition same_outside_loop (w w' : world) : Prop :=
  page w' = page w
  ∧ observed_sections w' = observed_sections w
  ∧ typing w' = typing w
  ∧ canvas w' = canvas w
  ∧ lazy w' = lazy w
  ∧ anchor_listeners w' = anchor_listeners w
  ∧ console w' = console w.

(** A computation that writes nothing but the loop and the window
    listeners, whether it returns or throws. *)
Definition keeps_outside_loop (m : js world unit) : Prop :=
  forall w w' r, m w = (w', r) -> same_outside_loop w w'.

Section Handler.
Variable h : host.
Variable d : document.

Definition call (c : three_call) : js world unit :=
  match faults h c with
  | Some e => throw e
  | None => mret tt
  end.

(** Lines 151-158. *)
Definition updateCanvasSize : js world unit :=
  call SetSize;; call UpdateProjectionMatrix.

(** Lines 191-197, as run by the setup at line 198. *)
Definition first_animate : js world unit :=
  modify (fun w =>
    let '(id, r) :=
      Particles.requestAnimationFrame
        {| Particles.hidden := document_hidden h;
           Particles.animationId := None;
           Particles.requests := [];
           Particles.next_request := 1;
           Particles.rendered := 0 |} in
    set_loop {| Particles.hidden := Particles.hidden r;
                Particles.animationId := Some id;
                Particles.requests := Particles.requests r;
                Particles.next_request := Particles.next_request r;
                Particles.rendered := 0 |} w);;
  call GetElapsedTime;;
  call Render;;
  modify (fun w =>
    match loop w with
    | Some r => set_loop (Particles.animate_drawn r) w
    | None => w
    end).

(** The body of the [try] block, lines 136-206. *)
Definition setup : js world unit :=
  call NewScene;;
  call NewPerspectiveCamera;;
  call NewWebGLRenderer;;
  call SetPixelRatio;;
  updateCanvasSize;;
  call NewBufferGeometry;;
  call NewFloat32Array;;
  call NewBufferAttribute;;
  call SetAttribute;;
  call NewPointsMaterial;;
  call NewPoints;;
  call SceneAdd;;
  call NewClock;;
  first_animate;;
  modify (listen "resize");;
  modify (listen "visibilitychange").

(** The [catch] block, lines 207-210. *)
Definition on_setup_error (e : exn) : js world unit :=
  modify (print (Warn "Three.js animation failed to initialize:" e));;
  modify (fun w => set_canvas (setStyle "display" "none" <$> canvas w) w).

Definition init_sidebar : js world unit := on_page Sidebar.wire_clicks.

(** Lines 65-87; constructing the observer needs the constructor. *)
Definition init_scrollspy : js world unit :=
  if bool_decide (0 < length (navLinks d))%nat
     && bool_decide (0 < length (sections d))%nat
  then
    if has_IntersectionObserver h
    then modify (observe_sections (sections d))
    else throw (ReferenceError "IntersectionObserver")
  else mret tt.

Definition init_typing : js world unit :=
  match typewriterElement d with
  | Some text0 => modify (set_typing (Typing.start text0))
  | None => mret tt
  end.

(** Lines 134-211. *)
Definition init_particles : js world unit :=
  fun w =>
    if bool_decide (is_Some (canvas w)) && has_THREE h
       && negb (prefersReducedMotion h)
    then try_catch setup on_setup_error w
    else (w, Ret tt).

Definition init_lazy : js world unit :=
  modify (set_lazy (LazyImages.init (has_IntersectionObserver h) (imgs d))).

Definition init_anchors : js world unit :=
  modify (set_anchor_listeners (anchors d)).

Definition init_keydown : js world unit := on_page Sidebar.wire_keydown.

(** The components wired before the particle field, and after it. *)
Definition before_particles : js world unit :=
  init_sidebar;; init_scrollspy;; init_typing.

Definition after_particles : js world unit :=
  init_lazy;; init_anchors;; init_keydown;;
  modify (print (Log "✨ Portfolio initialized successfully!")).

Definition DOMContentLoaded : js world unit :=
  before_particles;; init_particles;; after_particles.
End Handler.
End Page.

(** ** Sample markup *)

Module Samples.
Import Dom.

Definition anchor (href : string) (classes : list string) : element :=
  {| classList := classes; attributes := {["href" := href]}; style := ∅ |}.

Definition section_with_id (id : string) : element :=
  {| classList := []; attributes := {["id" := id]}; style := ∅ |}.

Definition section_without_id : element :=
  {| classList := []; attributes := ∅; style := ∅ |}.

Definition plain (classes : list string) : element :=
  {| classList := classes; attributes := ∅; style := ∅ |}.

Definition lazy_img (data_src : string) : element :=
  {| classList := []; attributes := {["data-src" := data_src]}; style := ∅ |}.

Definition eager_img (src : string) : element :=
  {| classList := []; attributes := {["src" := src]}; style := ∅ |}.

(** A host whose WebGL context cannot be created. *)
Definition no_webgl : Page.host :=
  {| Page.has_IntersectionObserver := true;
     Page.has_THREE := true;
     Page.faults := fun c =>
       match c with
       | Page.NewWebGLRenderer => Some (HostError "Error creating WebGL context")
       | _ => None
       end;
     Page.prefersReducedMotion := false;
     Page.document_hidden := false |}.

Definition portfolio : Page.document :=
  {| Page.navLinks := [anchor "#about" ["active"]; anchor "#projects" []];
     Page.sections := [section_with_id "about"; section_with_id "projects"];
     Page.typewriterElement := Some "";
     Page.imgs := [lazy_img "a.jpg"; lazy_img "b.jpg"];
     Page.anchors := 2 |}.

Definition blank : Page.world :=
  {| Page.page :=
       {| Sidebar.hamburger := Some (plain ["hamburger"]);
          Sidebar.sidebar := Some (plain ["sidebar"]);
          Sidebar.overlay := Some (plain ["overlay"]);
          Sidebar.body := plain [];
          Sidebar.listeners := [];
          Sidebar.hamburger_focused := false |};
     Page.observed_sections := [];
     Page.typing := None;
     Page.canvas := Some (plain []);
     Page.loop := None;
     Page.window_listeners := [];
     Page.lazy := None;
     Page.anchor_listeners := 0;
     Page.console := [] |}.
End Samples.

(** ** Debounce over arbitrary call sequences *)

Module DebounceTrace.
Import Debounce.
Section Trace.
Context {Args : Type}.
Variable wait : nat.

(** A closure with exactly one timer and the calls recorded so far. *)
Definition armed_with (k nid t d f : nat) (a : Args) (log : list (nat * Args))
  : closure :=
  {| timeout := Some k;
     timers := {| Timers.now := t; Timers.next_id := nid;
                  Timers.pending := [Timers.Timer k d a]; Timers.fired := f |};
     calls := log |}.

(** The calls of [func] owed to a wrapper call made at time [t0] with
    arguments [a0] and to the wrapper calls [cs] that follow it: a wrapper
    call is honoured, [wait] later, unless the next one comes first. *)
Fixpoint fired_after (t0 : nat) (a0 : Args) (cs : list (nat * Args))
  : list (nat * Args) :=
  match cs with
  | [] => [(t0 + wait, a0)]
  | (g, a) :: cs' =>
      ((if bool_decide (wait < g) then [(t0 + wait, a0)] else [])
       ++ fired_after (g + t0) a cs')%list
  end.

(** What a closure owes to the wrapper calls [made] so far: at most one
    timer, held by [timeout] and carrying the arguments of the last call,
    and calls of [func] with arguments taken in order from the earlier
    ones. *)
Definition bounded (made : list Args) (c : closure) : Prop :=
  (Timers.pending (timers c) = [] ∧ (snd <$> calls c) `sublist_of` made)
  ∨ (∃ t made',
        Timers.pending (timers c) = [t]
        ∧ timeout c = Some (Timers.tid t)
        ∧ made = (made' ++ [Timers.payload t])%list
        ∧ (snd <$> calls c) `sublist_of` made').
End Trace.
End DebounceTrace.

(** ** Sidebar controller over event sequences *)

Module SidebarEvents.
Import Dom Sidebar.

(** Lines 50-62 and 264-269 together: the listeners the handler attaches. *)
Definition init : js page unit := wire_clicks;; wire_keydown.

(** A page with the three elements, as the handler leaves it. *)
Definition wired (hb sb ov bd : element) (fo : bool) : page :=
  (init (Page (Some hb) (Some sb) (Some ov) bd [] fo)).1.

Definition uncaught {A} (r : outcome A) : list exn :=
  match r with
  | Thrown e => [e]
  | Ret _ => []
  end.

(** Events one after the other; an exception leaving a listener is reported
    and the next event is handled all the same. *)
Fixpoint run_events (evs : list event) (p : page) : page * list exn :=
  match evs with
  | [] => (p, [])
  | ev :: evs' =>
      let '(p1, r) := dispatch ev p in
      let '(p2, errs) := run_events evs' p1 in
      (p2, (uncaught r ++ errs)%list)
  end.

Definition all_listeners : list listener :=
  [OnHamburgerClick; OnOverlayClick; OnSidebarLinkClick; OnKeydown].

(** The page after [toggleSidebar(b)] on a page with the three elements. *)
Definition toggled (b : bool) (hb sb ov bd : element) (fo : bool) : page :=
  Page (Some (setAttribute "aria-expanded" (string_of_bool b)
                (classList_toggle "active" b hb)))
       (Some (classList_toggle "show" b sb))
       (Some (classList_toggle "show" b ov))
       (classList_toggle "sidebar-open" b bd) all_listeners fo.

Definition is_escape (ev : event) : bool :=
  match ev with
  | Keydown key => bool_decide (key = "Escape")
  | _ => false
  end.

(** The five markers all say [b]. *)
Definition agree (b : bool) (p : page) : Prop :=
  markers p = [Some b; Some b; Some b; Some b]
  ∧ aria_expanded p = Some (string_of_bool b).

(** The controller as a two-state machine. *)
Definition next_visible (visible : bool) (ev : event) : bool :=
  match ev with
  | ClickHamburger => negb visible
  | ClickOverlay => false
  | ClickSidebarLink => false
  | Keydown key => if bool_decide (key = "Escape") then false else visible
  end.
End SidebarEvents.

(** ** Scroll-spy batches *)

Module ScrollSpyBatch.
Import Dom ScrollSpy.

(** The last entry of a batch that intersects, if any. *)
Definition last_intersecting (entries : list entry) : option entry :=
  last (filter (fun e => isIntersecting e = true) entries).

(** The [href]s of the links that have one. *)
Definition hrefs (navLinks : list element) : list string :=
  omap (getAttribute "href") navLinks.

Definition active_count (navLinks : list element) : nat :=
  length (filter (fun link => active link = true) navLinks).
End ScrollSpyBatch.

(** ** Typing animation over whole phrases *)

Module TypingCycle.
Import Typing.

(** JavaScript counts and cuts a string by UTF-16 code units, [String.length]
    and [String.substring] by bytes; the two agree on a phrase of ASCII
    characters, each being one byte and one code unit. *)
Definition ascii_char (c : Ascii.ascii) : bool :=
  match c with
  | Ascii.Ascii _ _ _ _ _ _ _ high => negb high
  end.

Fixpoint ascii_only (p : string) : bool :=
  match p with
  | EmptyString => true
  | String c p' => ascii_char c && ascii_only p'
  end.

(** The phrase lists the statements on displayed text and timing are
    about: ASCII phrases, none of them empty. *)
Definition typable (phrases : list string) : Prop :=
  Forall (fun p => ascii_only p = true ∧ (0 < String.length p)%nat) phrases.

(** The first [k] characters of a phrase. *)
Definition prefix (p : string) (k : nat) : string := String.substring 0 k p.

(** A phrase typed out and deleted again: its prefixes of length 1 up to
    the full length, then down to the empty string. *)
Definition cycle_display (p : string) : list string :=
  ((prefix p <$> seq 1 (String.length p))
   ++ (prefix p <$> rev (seq 0 (String.length p))))%list.

(** The number of runs of [animateTyping] that take the animation once
    through the phrases. *)
Definition total_runs (phrases : list string) : nat :=
  foldr (fun p t => 2 * String.length p + t)%nat 0%nat phrases.

(** The closure variables and the text, the timers set aside. *)
Definition same_closure (a b : animator) : Prop :=
  phraseIndex a = phraseIndex b
  ∧ charIndex a = charIndex b
  ∧ isDeleting a = isDeleting b
  ∧ textContent a = textContent b.

(** At the start of a phrase. *)
Definition at_phrase (i : nat) (a : animator) : Prop :=
  phraseIndex a = i ∧ charIndex a = 0%Z ∧ isDeleting a = false.

(** Exactly one timer is pending and it is not due yet. *)
Definition ticking (a : animator) : Prop :=
  ∃ t, Timers.pending (timers a) = [t]
       ∧ (Timers.now (timers a) < Timers.due t)%nat.

(** Exactly one timer is pending and it is due now at the earliest. *)
Definition about_to_tick (a : animator) : Prop :=
  ∃ t, Timers.pending (timers a) = [t]
       ∧ (Timers.now (timers a) ≤ Timers.due t)%nat.

(** The animation started as [a0], between two ticks and at a tick before
    the callback has run. *)
Definition between_ticks (phrases : list string) (a0 a : animator) : Prop :=
  well_formed phrases a ∧ ticking a
  ∧ ∃ n, same_closure a (run false phrases n a0).

Definition at_tick (phrases : list string) (a0 a : animator) : Prop :=
  well_formed phrases a ∧ about_to_tick a
  ∧ ∃ n, same_closure a (run false phrases n a0).
End TypingCycle.

(** ** Lazy images: the load event *)

Module LazyLoad.
Import Dom LazyImages.

(** The [load] event of image [i]: the handler of line 223, when the image
    has one. *)
Definition on_load (i : nat) (st : loader) : loader :=
  if bool_decide (i ∈ onload st) then
    match images st !! i with
    | None => st
    | Some img =>
        {| images := <[i := setStyle "opacity" "1" img]> (images st);
           observed := observed st;
           src_writes := src_writes st;
           onload := onload st |}
    end
  else st.

Definition opacity_of (st : loader) (i : nat) : option string :=
  img ← (images st !! i); style img !! "opacity".

Definition style_of (st : loader) (i : nat) : option (gmap string string) :=
  style <$> (images st !! i).
End LazyLoad.

(** ** Smooth scroll for anchor links (script.js, lines 244-261) *)

Module SmoothScroll.
Inductive behavior : Type := Auto | Smooth.

(** What the click listeners write: the calls of [preventDefault], of
    [scrollIntoView] (element and behaviour, the block being "start") and
    of [history.pushState] (the URL). *)
Record viewport : Type := Viewport {
  prevented : nat;
  scrolls : list (Dom.element * behavior);
  history : list string
}.

Definition preventDefault (v : viewport) : viewport :=
  {| prevented := S (prevented v); scrolls := scrolls v; history := history v |}.

Definition scrollIntoView (el : Dom.element) (b : behavior) (v : viewport)
  : viewport :=
  {| prevented := prevented v; scrolls := scrolls v ++ [(el, b)];
     history := history v |}.

Definition pushState (url : string) (v : viewport) : viewport :=
  {| prevented := prevented v; scrolls := scrolls v;
     history := history v ++ [url] |}.

Section Router.
(** [document.querySelector]: the element a selector finds, if any, or the
    exception it throws for a selector it cannot parse. *)
Variable querySelector : string -> outcome (option Dom.element).
(** Whether [history.pushState] exists. *)
Variable has_pushState : bool.
Variable prefersReducedMotion : bool.

(** The click listener of an anchor whose [href] is [targetId]. *)
Definition on_click (targetId : string) : js viewport unit :=
  if bool_decide (targetId = "#") then mret tt
  else
    targetElement ← (fun v => (v, querySelector targetId));
    match targetElement with
    | None => mret tt
    | Some el =>
        modify preventDefault;;
        modify (scrollIntoView el
                  (if prefersReducedMotion then Auto else Smooth));;
        if has_pushState then modify (pushState targetId) else mret tt
    end.

(** Clicks one after the other; an exception leaving a listener does not
    keep the next click from being handled. *)
Definition click_all (hrefs : list string) (v : viewport) : viewport :=
  foldl (fun v targetId => (on_click targetId v).1) v hrefs.

(** The element an [href] leads to, when the listener acts on it. *)
Definition resolves (targetId : string) : option Dom.element :=
  if bool_decide (targetId = "#") then None
  else match querySelector targetId with
       | Ret (Some el) => Some el
       | _ => None
       end.
End Router.
End SmoothScroll.

(** ** The handler as a whole *)

Module PageOutcome.
Import Page.

(** The scroll-spy needs the observer constructor and the host lacks it. *)
Definition observer_missing (h : host) (d : document) : bool :=
  bool_decide (0 < length (navLinks d))%nat
  && bool_decide (0 < length (sections d))%nat
  && negb (has_IntersectionObserver h).

(** The particle field is set up. *)
Definition particles_wanted (h : host) (w : world) : bool :=
  bool_decide (is_Some (canvas w)) && has_THREE h
  && negb (prefersReducedMotion h).

Definition is_warning (e : console_entry) : bool :=
  match e with
  | Warn _ _ => true
  | Log _ => false
  end.
End PageOutcome.

(** ** Canvas size and debounced resize (script.js, lines 151-162 and
    200-201) *)

Module Canvas.
Record window : Type := Window { innerWidth : Z; innerHeight : Z }.

Definition breakpoint : Z := 768.
Definition resizeDelay : nat := 250.

(** [window.innerWidth > 768 ? 80 : 0] *)
Definition sidebarWidth (w : window) : Z :=
  if (breakpoint <? innerWidth w)%Z then 80%Z else 0%Z.

(** [window.innerWidth <= 768] *)
Definition isMobile (w : window) : bool := (innerWidth w <=? breakpoint)%Z.

Definition particlesCount (w : window) : nat :=
  if isMobile w then 1500%nat else 5000%nat.

(** The length of [posArray]. *)
Definition positions (w : window) : nat := (particlesCount w * 3)%nat.

(** The arguments of [renderer.setSize]. *)
Definition canvas_size (w : window) : Z * Z :=
  ((innerWidth w - sidebarWidth w)%Z, innerHeight w).

(** The window, the size of the renderer, the aspect of the camera as the
    pair (width, height) whose quotient it is, the number of calls of
    [updateProjectionMatrix], and the closure of [handleResize]. *)
Record view : Type := View {
  win : window;
  size : Z * Z;
  aspect : Z * Z;
  projections : nat;
  resize : Debounce.closure (Args := unit)
}.

Definition with_resize (c : Debounce.closure (Args := unit)) (v : view) : view :=
  {| win := win v; size := size v; aspect := aspect v;
     projections := projections v; resize := c |}.

Definition with_win (w : window) (v : view) : view :=
  {| win := w; size := size v; aspect := aspect v;
     projections := projections v; resize := resize v |}.

Definition updateCanvasSize (v : view) : view :=
  {| win := win v;
     size := canvas_size (win v);
     aspect := canvas_size (win v);
     projections := S (projections v);
     resize := resize v |}.

(** Lines 137-159: the camera is made with the aspect of the window, then
    [updateCanvasSize] runs once; [size0] is the size the canvas had. *)
Definition setup (w : window) (size0 : Z * Z) : view :=
  updateCanvasSize
    {| win := w; size := size0; aspect := (innerWidth w, innerHeight w);
       projections := 0; resize := Debounce.fresh |}.

(** [handleResize = debounce(updateCanvasSize, 250)]: a call of the
    wrapper, and the run of its timer. *)
Definition handleResize (args : unit) (v : view) : view :=
  with_resize (Debounce.executedFunction resizeDelay args (resize v)) v.

Definition later_resize (args : unit) (v : view) : view :=
  updateCanvasSize (with_resize (Debounce.later args (resize v)) v).

Definition view_timers (v : view) : Timers.host unit :=
  Debounce.timers (resize v).

Definition set_view_timers (h : Timers.host unit) (v : view) : view :=
  with_resize (Debounce.set_timers h (resize v)) v.

Definition advance : nat -> view -> view :=
  Timers.advance view_timers set_view_timers later_resize.

(** A [resize] event: the window has its new size when the listener runs. *)
Definition on_resize (w : window) (v : view) : view :=
  handleResize tt (with_win w v).

Fixpoint resizes (evs : list (nat * window)) (v : view) : view :=
  match evs with
  | [] => v
  | (gap, w) :: evs' => resizes evs' (on_resize w (advance gap v))
  end.

(** What the timer callbacks have done to a view since its window was [w],
    its log [len0] long and its canvas as [sz0], [asp0], [p0] say: nothing
    when none ran, and else the canvas is that of [w]. *)
Definition updated_since (w : window) (len0 : nat) (sz0 asp0 : Z * Z)
    (p0 : nat) (v : view) : Prop :=
  win v = w
  ∧ ∃ k, length (Debounce.calls (resize v)) = (len0 + k)%nat
         ∧ projections v = (p0 + k)%nat
         ∧ match k with
           | 0%nat => size v = sz0 ∧ aspect v = asp0
           | S _ => size v = canvas_size w ∧ aspect v = canvas_size w
           end.
End Canvas.

(** ** Typing animation on the clock *)

Module TypingSchedule.
Import Typing.
Section Schedule.
Variable phrases : list string.

(** The delay a run of [animateTyping] hands to [setTimeout]: the pause
    when the run completes the phrase, else the speed of the direction the
    run started in. *)
Definition timeout_of (a : animator) : nat :=
  match phrases !! phraseIndex a with
  | None => 0
  | Some p =>
      if isDeleting a then deleteSpeed
      else if (charIndex a + 1 =? Z.of_nat (String.length p))%Z
           then delayBetweenPhrases
           else typeSpeed
  end.

(** The milliseconds from one run to the run [n] runs later. *)
Fixpoint duration (n : nat) (a : animator) : nat :=
  match n with
  | 0 => 0
  | S n' => timeout_of a + duration n' (animateTyping false phrases a).1
  end.

(** The time of the run that follows [k] runs, for the animation started
    as [a0] at time 0. *)
Definition run_time (a0 : animator) (k : nat) : nat :=
  startDelay + duration k a0.
End Schedule.

(** The time one phrase takes from its first character to the first
    character of the next phrase, and the time of a pass through the
    list. *)
Definition phrase_time (p : string) : nat :=
  (String.length p - 1) * typeSpeed + delayBetweenPhrases
  + String.length p * deleteSpeed.

Definition pass_time (phrases : list string) : nat :=
  foldr (fun p t => phrase_time p + t)%nat 0%nat phrases.
End TypingSchedule.

(** ** The sidebar on a page that lacks one of its elements *)

Module SidebarIncomplete.
Import Dom Sidebar.

(** One of the three [querySelector] calls found nothing. *)
Definition incomplete (p : page) : Prop :=
  hamburger p = None ∨ sidebar p = None ∨ overlay p = None.

Definition is_TypeError (e : exn) : bool :=
  match e with
  | TypeError _ => true
  | _ => false
  end.

(** The markers [toggleSidebar] writes after it has touched all three
    elements, and the focus the keydown listener moves after it. *)
Definition late_writes (p : page) : element * option string * bool :=
  (body p, aria_expanded p, hamburger_focused p).
End SidebarIncomplete.

(** ** Where the setup of the particle field fails *)

Module SetupFaults.
Import Page.

(** The library calls of lines 136-188, before [animate] first runs, and
    the two calls [animate] makes after it has requested the next frame
    (lines 193-196). *)
Definition calls_before_frame : list three_call :=
  [NewScene; NewPerspectiveCamera; NewWebGLRenderer; SetPixelRatio; SetSize;
   UpdateProjectionMatrix; NewBufferGeometry; NewFloat32Array;
   NewBufferAttribute; SetAttribute; NewPointsMaterial; NewPoints; SceneAdd;
   NewClock].

Definition frame_calls : list three_call := [GetElapsedTime; Render].

(** The exception of the first call of [cs] that throws. *)
Fixpoint first_fault (h : host) (cs : list three_call) : option exn :=
  match cs with
  | [] => None
  | c :: cs' =>
      match faults h c with
      | Some e => Some e
      | None => first_fault h cs'
      end
  end.

(** The render loop after line 192 has run once and nothing was drawn. *)
Definition requested (hidden0 : bool) : Particles.renderer :=
  {| Particles.hidden := hidden0; Particles.animationId := Some 1;
     Particles.requests := [1]; Particles.next_request := 2;
     Particles.rendered := 0 |}.

(** A host that loses the WebGL context before the first frame is drawn,
    and one where every call succeeds. *)
Definition lost_context : host :=
  {| has_IntersectionObserver := true;
     has_THREE := true;
     faults := fun c =>
       match c with
       | Render => Some (HostError "WebGL context lost")
       | _ => None
       end;
     prefersReducedMotion := false;
     document_hidden := false |}.

End SetupFaults.

(** ** A wait the host's timers cannot hold *)

Module DebounceOverflow.
(** The least wait that does not fit a signed 32-bit integer: 2^31 ms. *)
Definition overflowing_wait : nat := Z.to_nat (Timers.max_delay + 1).
End DebounceOverflow.

(** ** Lazy images as the host sees them *)

Module LazyGeometry.
Import LazyImages.

(** What the host saw of a target when it queued an entry: the distance of
    the target to the viewport in pixels (zero or less inside it). *)
Record sighting : Type := Sighting { distance : Z; seen : nat }.

Definition entries_of (b : list sighting) : list entry :=
  (fun s => entry_at (distance s) (seen s)) <$> b.

(** Whether a sighting shows image [i] within [px] pixels of the
    viewport. *)
Definition within (px : Z) (i : nat) (s : sighting) : bool :=
  bool_decide (distance s ≤ px)%Z && bool_decide (seen s = i).

Definition came_within (px : Z) (i : nat) (run : list (list sighting)) : bool :=
  existsb (existsb (within px i)) run.

(** Image [i] comes near, leaves and comes back before the callback runs. *)
Definition back_and_forth (i : nat) : list sighting :=
  [Sighting 80 i; Sighting 300 i; Sighting 40 i].
End LazyGeometry.

(** * Properties *)

(** ** Debounce *)

Section DebounceFacts.
Import Timers Debounce.
Context {Args : Type}.
Variable wait : nat.

Lemma ticks_idle n k nid t f (log : list (nat * Args)) :
  ticks timers set_timers later n (idle k nid t f log) = idle k nid (n + t) f log.
Proof.
  revert t. induction n as [|n IH]; intros t; [reflexivity|].
  cbn [ticks]. replace (S n + t)%nat with (n + S t)%nat by lia.
  rewrite <- IH. reflexivity.
Qed.

Lemma advance_idle n k nid t f (log : list (nat * Args)) :
  advance (Args := Args) n (idle k nid t f log) = idle k nid (n + t) f log.
Proof. unfold advance, Timers.advance. cbn. apply ticks_idle. Qed.

Lemma settle_armed_early k nid t d f (a : Args) :
  (t < d)%nat ->
  settle timers set_timers later (armed k nid t d f a) = armed k nid t d f a.
Proof.
  intros Hlt. unfold settle, armed. cbn.
  unfold next_due, is_due. cbn.
  rewrite bool_decide_eq_false_2 by lia. reflexivity.
Qed.

Lemma settle_armed_due k nid t d f (a : Args) :
  (d ≤ t)%nat ->
  settle timers set_timers later (armed k nid t d f a)
  = idle (Some k) nid t (S f) [(t, a)].
Proof.
  intros Hle. unfold settle, armed. cbn.
  unfold next_due, is_due. cbn.
  rewrite bool_decide_eq_true_2 by lia. cbn.
  unfold later, take, set_timers, idle. cbn.
  rewrite !decide_False by (intros Hn; apply Hn; reflexivity).
  reflexivity.
Qed.

Lemma tick_armed k nid t d f (a : Args) :
  tick timers set_timers later (armed k nid t d f a)
  = if bool_decide (S t < d)%nat
    then armed k nid (S t) d f a
    else idle (Some k) nid (S t) (S f) [(S t, a)].
Proof.
  unfold tick.
  change (set_timers (elapse (timers (armed k nid t d f a))) (armed k nid t d f a))
    with (armed k nid (S t) d f a).
  case_bool_decide.
  - apply settle_armed_early; lia.
  - apply settle_armed_due; lia.
Qed.

Lemma ticks_armed_early n k nid t d f (a : Args) :
  (n + t < d)%nat ->
  ticks timers set_timers later n (armed k nid t d f a)
  = armed k nid (n + t) d f a.
Proof.
  revert t. induction n as [|n IH]; intros t Hlt; [reflexivity|].
  cbn [ticks]. rewrite tick_armed, bool_decide_eq_true_2 by lia.
  rewrite IH by lia. f_equal; lia.
Qed.

Lemma ticks_armed_due n k nid t d f (a : Args) :
  (t < d)%nat -> (d ≤ n + t)%nat ->
  ticks timers set_timers later n (armed k nid t d f a)
  = idle (Some k) nid (n + t) (S f) [(d, a)].
Proof.
  revert t. induction n as [|n IH]; intros t Hlt Hle; [lia|].
  cbn [ticks]. rewrite tick_armed. case_bool_decide.
  - rewrite IH by lia. f_equal; lia.
  - rewrite ticks_idle. assert (d = S t) as -> by lia. f_equal; lia.
Qed.

Lemma advance_armed_early n k nid t d f (a : Args) :
  (n + t < d)%nat ->
  advance (Args := Args) n (armed k nid t d f a) = armed k nid (n + t) d f a.
Proof.
  intros Hlt. unfold advance, Timers.advance.
  rewrite settle_armed_early by lia. apply ticks_armed_early; lia.
Qed.

Lemma advance_armed_due n k nid t d f (a : Args) :
  (t ≤ d)%nat -> (d ≤ n + t)%nat ->
  advance (Args := Args) n (armed k nid t d f a)
  = idle (Some k) nid (n + t) (S f) [(d, a)].
Proof.
  intros Hle Hge. unfold advance, Timers.advance.
  destruct (decide (t < d)%nat) as [Hlt|Hnlt].
  - rewrite settle_armed_early by lia. apply ticks_armed_due; lia.
  - rewrite settle_armed_due by lia. rewrite ticks_idle.
    assert (d = t) as -> by lia. reflexivity.
Qed.

Lemma delay_of_fits : (Z.of_nat wait ≤ max_delay)%Z -> delay_of wait = wait.
Proof.
  intros Hfits. unfold delay_of.
  rewrite (proj2 (Z.leb_le _ _) Hfits). reflexivity.
Qed.

Lemma delay_of_overflow : (max_delay < Z.of_nat wait)%Z -> delay_of wait = 0%nat.
Proof.
  intros Hover. unfold delay_of.
  rewrite (proj2 (Z.leb_gt _ _) Hover). reflexivity.
Qed.

Lemma executedFunction_armed k nid t d f (a a' : Args) :
  executedFunction wait a' (armed k nid t d f a)
  = armed nid (S nid) t (t + delay_of wait) f a'.
Proof.
  unfold executedFunction, armed. cbn.
  rewrite decide_False by (intros Hn; apply Hn; reflexivity).
  reflexivity.
Qed.

Lemma executedFunction_fresh (a : Args) t :
  executedFunction wait a (idle None 1 t 0 [])
  = armed 1 2 t (t + delay_of wait) 0 a.
Proof. reflexivity. Qed.

Lemma last_nonempty_default {A} (l : list A) (x d d' : A) :
  List.last (x :: l) d = List.last (x :: l) d'.
Proof.
  revert x. induction l as [|y l IH]; intros x; [reflexivity|].
  change (List.last (y :: l) d = List.last (y :: l) d'). apply IH.
Qed.

(** During a burst the single timer is replaced at every call and never
    fires. *)
Lemma burst_armed (cs : list (nat * Args)) : forall k nid t f (a : Args),
  (Z.of_nat wait ≤ max_delay)%Z ->
  Forall (fun c => (c.1 < wait)%nat) cs ->
  exists k' nid',
    burst wait cs (armed k nid t (t + wait) f a)
    = armed k' nid' (elapsed cs + t) (elapsed cs + t + wait) f
            (List.last (snd <$> cs) a).
Proof.
  induction cs as [|[g a'] cs IH]; intros k nid t f a Hfits Hgaps.
  - exists k, nid. reflexivity.
  - inversion Hgaps as [|? ? Hg Hrest]; subst. cbn in Hg.
    cbn [burst]. rewrite advance_armed_early by lia.
    rewrite executedFunction_armed, (delay_of_fits Hfits).
    destruct (IH nid (S nid) (g + t)%nat f a' Hfits Hrest) as (k' & nid' & ->).
    exists k', nid'. unfold elapsed. cbn [foldr fst].
    replace (g + foldr _ 0%nat cs + t)%nat
      with (foldr (fun ga u => (ga.1 + u)%nat) 0%nat cs + (g + t))%nat by lia.
    f_equal. destruct cs as [|c cs']; [reflexivity|].
    change (List.last (snd <$> c :: cs') a' = List.last (snd <$> c :: cs') a).
    apply last_nonempty_default.
Qed.

(** With a wait the host cannot hold, the timer of each call is due at
    once: a call made 100 ms after the first finds the callback already
    run, and its own timer runs the callback again. *)
Lemma burst_overflow (a b : Args) :
  (max_delay < Z.of_nat wait)%Z ->
  let quiet := burst wait [(0, a); (100, b)]%nat fresh in
  snd <$> calls quiet = [a]
  ∧ snd <$> calls (advance 100 quiet) = [a; b].
Proof.
  intros Hover. pose proof (delay_of_overflow Hover) as Hnone.
  cbv zeta. unfold burst, executedFunction, setTimeout. rewrite Hnone.
  split; vm_compute; reflexivity.
Qed.
End DebounceFacts.

(** C1 as stated, for every wait, fails: with a wait of 2^31 ms, which the
    host cannot hold, and two calls 100 ms apart (less than the wait), the
    callback has already run with the first call's arguments when the
    second call is made, and within 100 ms of the second call it has run
    twice. *)
Lemma debounce_overflow_counterexample :
  let wait := DebounceOverflow.overflowing_wait in
  Forall (fun c : nat * string => (c.1 < wait)%nat) [(100, "b")]%nat
  ∧ let quiet := Debounce.burst wait [(0, "a"); (100, "b")]%nat Debounce.fresh in
    snd <$> Debounce.calls quiet = ["a"]
    ∧ snd <$> Debounce.calls (Debounce.advance 100 quiet) = ["a"; "b"].
Proof.
  assert (Hover : (Timers.max_delay
                   < Z.of_nat DebounceOverflow.overflowing_wait)%Z).
  { unfold DebounceOverflow.overflowing_wait, Timers.max_delay. lia. }
  split.
  - constructor; [|constructor].
    change (100 < DebounceOverflow.overflowing_wait)%nat.
    unfold DebounceOverflow.overflowing_wait, Timers.max_delay. lia.
  - exact (burst_overflow DebounceOverflow.overflowing_wait "a" "b" Hover).
Qed.

(** C1. For any callback, any wait the host's timers can hold (at most
    2^31 - 1 ms) and any burst of at least one call of the debounced wrapper
    in which every call comes less than [wait] after the one before, the
    callback does not run during the burst, and from then on it has run
    exactly once: [wait] after the last call, with that call's arguments,
    and no timer is left. *)
Theorem debounce_burst_fires_once {Args : Type} (wait g0 : nat) (a0 : Args)
    (cs : list (nat * Args)) (T : nat) :
  (Z.of_nat wait ≤ Timers.max_delay)%Z ->
  Forall (fun c => (c.1 < wait)%nat) cs ->
  let quiet := Debounce.burst wait ((g0, a0) :: cs) Debounce.fresh in
  let final := Debounce.advance T quiet in
  Debounce.calls quiet = []
  ∧ Debounce.calls final
    = (if bool_decide (T < wait)%nat then []
       else [(Debounce.elapsed ((g0, a0) :: cs) + wait,
              List.last (snd <$> cs) a0)]%nat)
  ∧ (if bool_decide (T < wait)%nat
     then length (Timers.pending (Debounce.timers final)) = 1%nat
     else Timers.pending (Debounce.timers final) = []).
Proof.
  intros Hfits Hgaps quiet final. subst final quiet. cbn [Debounce.burst].
  change Debounce.fresh with (Debounce.idle (Args := Args) None 1 0 0 []).
  rewrite advance_idle, executedFunction_fresh, (delay_of_fits wait Hfits).
  destruct (burst_armed wait cs 1 2 (g0 + 0) 0 a0 Hfits Hgaps)
    as (k & nid & ->).
  split; [reflexivity|].
  replace (Debounce.elapsed ((g0, a0) :: cs))
    with (Debounce.elapsed cs + (g0 + 0))%nat
    by (unfold Debounce.elapsed; cbn; lia).
  case_bool_decide.
  - rewrite advance_armed_early by lia. split; reflexivity.
  - rewrite advance_armed_due by lia. split; reflexivity.
Qed.

Lemma debounce_burst_fires_once_witness :
  (Z.of_nat 250 ≤ Timers.max_delay)%Z
  ∧ Forall (fun c : nat * string => (c.1 < 250)%nat) [(100, "b"); (249, "c")]%nat
  ∧ let quiet :=
      Debounce.burst 250 [(10, "a"); (100, "b"); (249, "c")]%nat Debounce.fresh in
    let final := Debounce.advance 400 quiet in
    Debounce.calls quiet = []
    ∧ Debounce.calls final
      = (if bool_decide (400 < 250)%nat then []
         else [(Debounce.elapsed [(10, "a"); (100, "b"); (249, "c")] + 250,
                List.last (snd <$> [(100, "b"); (249, "c")]) "a")]%nat)
    ∧ (if bool_decide (400 < 250)%nat
       then length (Timers.pending (Debounce.timers final)) = 1%nat
       else Timers.pending (Debounce.timers final) = []).
Proof.
  assert (Forall (fun c : nat * string => (c.1 < 250)%nat)
            [(100, "b"); (249, "c")]%nat) as Hgaps
    by (repeat constructor; cbn; lia).
  assert (Hfits : (Z.of_nat 250 ≤ Timers.max_delay)%Z)
    by (unfold Timers.max_delay; lia).
  split; [exact Hfits|]. split; [exact Hgaps|].
  exact (debounce_burst_fires_once 250 10 "a" [(100, "b"); (249, "c")]%nat 400
           Hfits Hgaps).
Defined.

(** ** Class lists *)

Section DomFacts.
Import Dom.

Lemma contains_add c el : contains c (classList_add c el) = true.
Proof.
  unfold classList_add. destruct (contains c el) eqn:Hc; [exact Hc|].
  unfold contains. cbn. apply bool_decide_eq_true_2. set_solver.
Qed.

Lemma contains_remove c el : contains c (classList_remove c el) = false.
Proof.
  unfold contains, classList_remove. cbn. apply bool_decide_eq_false_2.
  rewrite list_elem_of_filter. tauto.
Qed.

Lemma contains_toggle c b el : contains c (classList_toggle c b el) = b.
Proof. destruct b; [apply contains_add | apply contains_remove]. Qed.

Lemma contains_add_ne c c' el :
  c' ≠ c -> contains c' (classList_add c el) = contains c' el.
Proof.
  intros Hne. unfold classList_add. destruct (contains c el); [reflexivity|].
  unfold contains. cbn. apply bool_decide_ext.
  rewrite elem_of_app, list_elem_of_singleton. intuition congruence.
Qed.

Lemma contains_remove_ne c c' el :
  c' ≠ c -> contains c' (classList_remove c el) = contains c' el.
Proof.
  intros Hne. unfold contains, classList_remove. cbn. apply bool_decide_ext.
  rewrite list_elem_of_filter. tauto.
Qed.

Lemma classList_remove_twice c el :
  classList_remove c (classList_remove c el) = classList_remove c el.
Proof.
  unfold classList_remove, with_classes. cbn. f_equal.
  induction (classList el) as [|x l IH]; [reflexivity|].
  cbn. destruct (decide (x ≠ c)) as [Hx|Hx]; cbn.
  - rewrite decide_True by exact Hx. f_equal. exact IH.
  - exact IH.
Qed.

End DomFacts.

(** ** Sidebar controller *)

(** C8. With the three elements present and from any state of the page:
    [toggleSidebar(b)] returns normally and leaves every marker (the classes
    on hamburger, panel, overlay and body, and [aria-expanded]) at [b];
    [toggleSidebar()] does what [toggleSidebar(!visible)] does;
    [toggleSidebar(true)] followed by [toggleSidebar()] leaves the sidebar
    hidden; and [toggleSidebar(false)] leaves it hidden, a second
    [toggleSidebar(false)] changing nothing at all. *)
Theorem toggleSidebar_forces_or_flips (hb sb ov bd : Dom.element)
    (ls : list Sidebar.listener) (fo : bool) :
  let p := Sidebar.Page (Some hb) (Some sb) (Some ov) bd ls fo in
  (∀ b, ∃ p',
      Sidebar.toggleSidebar (Some b) p = (p', Ret tt)
      ∧ Sidebar.isVisible p' = b
      ∧ Sidebar.markers p' = [Some b; Some b; Some b; Some b]
      ∧ Sidebar.aria_expanded p' = Some (Dom.string_of_bool b))
  ∧ Sidebar.toggleSidebar None p
    = Sidebar.toggleSidebar (Some (negb (Sidebar.isVisible p))) p
  ∧ (∃ p', (Sidebar.toggleSidebar (Some true);; Sidebar.toggleSidebar None) p
           = (p', Ret tt)
           ∧ Sidebar.isVisible p' = false)
  ∧ (∃ p', Sidebar.toggleSidebar (Some false) p = (p', Ret tt)
           ∧ Sidebar.isVisible p' = false
           ∧ Sidebar.toggleSidebar (Some false) p' = (p', Ret tt)).
Proof.
  intros p. subst p.
  assert (Hforce : ∀ b hb sb ov bd,
      Sidebar.toggleSidebar (Some b)
        (Sidebar.Page (Some hb) (Some sb) (Some ov) bd ls fo)
      = (Sidebar.Page
           (Some (Dom.setAttribute "aria-expanded" (Dom.string_of_bool b)
                    (Dom.classList_toggle "active" b hb)))
           (Some (Dom.classList_toggle "show" b sb))
           (Some (Dom.classList_toggle "show" b ov))
           (Dom.classList_toggle "sidebar-open" b bd) ls fo, Ret tt))
    by reflexivity.
  assert (Hflip : ∀ hb sb ov bd,
      Sidebar.toggleSidebar None
        (Sidebar.Page (Some hb) (Some sb) (Some ov) bd ls fo)
      = Sidebar.toggleSidebar (Some (negb (Dom.contains "show" sb)))
          (Sidebar.Page (Some hb) (Some sb) (Some ov) bd ls fo))
    by reflexivity.
  split; [|split; [|split]].
  - intros b. eexists. split; [apply Hforce|].
    unfold Sidebar.isVisible, Sidebar.markers, Sidebar.aria_expanded. cbn.
    change (Dom.contains "active" (Dom.setAttribute ?n ?v ?el))
      with (Dom.contains "active" el).
    rewrite !contains_toggle, lookup_insert_eq. auto.
  - apply Hflip.
  - eexists. split.
    + unfold mbind, js_mbind, js_bind. rewrite Hforce, Hflip.
      rewrite contains_toggle. apply Hforce.
    + unfold Sidebar.isVisible. cbn. apply contains_remove.
  - eexists. split; [apply Hforce|]. split.
    + unfold Sidebar.isVisible. cbn. apply contains_remove.
    + rewrite Hforce. f_equal. cbn [Dom.classList_toggle Dom.string_of_bool].
      rewrite !classList_remove_twice. f_equal. f_equal.
      unfold Dom.setAttribute, Dom.classList_remove, Dom.with_classes. cbn.
      rewrite insert_insert_eq. f_equal.
      change (filter ?P (filter ?P ?l)) with
        (Dom.classList (Dom.classList_remove "active"
                          (Dom.classList_remove "active" hb))).
      rewrite classList_remove_twice. reflexivity.
Qed.

(** The guarded half of the controller: when one of the three elements is
    missing no click listener is attached, so a click changes nothing and
    throws nothing. *)
Lemma clicks_inert_without_elements (p : Sidebar.page) (ev : Sidebar.event) :
  Sidebar.listeners p = [] ->
  Sidebar.hamburger p = None ∨ Sidebar.sidebar p = None
  ∨ Sidebar.overlay p = None ->
  (forall key, ev ≠ Sidebar.Keydown key) ->
  let p' := ((Sidebar.wire_clicks;; Sidebar.wire_keydown) p).1 in
  Sidebar.dispatch ev p' = (p', Ret tt).
Proof.
  intros Hnone Hmissing Hclick.
  assert (Hwire : Sidebar.wire_clicks p = (p, Ret tt)).
  { unfold Sidebar.wire_clicks.
    destruct Hmissing as [H|[H|H]]; rewrite H;
      rewrite (bool_decide_eq_false_2 (is_Some None))
        by (intros [x Hx]; discriminate);
      rewrite ?andb_false_r; reflexivity. }
  unfold mbind, js_mbind, js_bind. rewrite Hwire.
  unfold Sidebar.wire_keydown, modify, Sidebar.dispatch. cbn -[Sidebar.handler].
  rewrite Hnone.
  destruct ev as [| | |key]; cbn;
    try (rewrite bool_decide_eq_false_2;
         [reflexivity|
          intros Hin; apply list_elem_of_singleton in Hin; discriminate]).
  exfalso. eapply Hclick. reflexivity.
Qed.

(** C3. The keydown listener is attached whether or not the sidebar
    elements exist (only the click listeners are guarded).  On a page
    without the panel an Escape keydown throws a TypeError; on a page with
    hamburger and panel but without the overlay, and the panel shown, an
    Escape keydown hides the panel and then throws. *)
Theorem escape_keydown_throws_without_sidebar_elements
    (hb ov : option Dom.element) (h0 sb0 bd : Dom.element) (fo : bool) :
  (let p := ((Sidebar.wire_clicks;; Sidebar.wire_keydown)
               (Sidebar.Page hb None ov bd [] fo)).1 in
   Sidebar.listeners p = [Sidebar.OnKeydown]
   ∧ Sidebar.dispatch (Sidebar.Keydown "Escape") p
     = (p, Thrown (TypeError "sidebar.classList")))
  ∧ (let p := ((Sidebar.wire_clicks;; Sidebar.wire_keydown)
                 (Sidebar.Page (Some h0) (Some (Dom.classList_add "show" sb0))
                    None bd [] fo)).1 in
     Sidebar.listeners p = [Sidebar.OnKeydown]
     ∧ Sidebar.isVisible p = true
     ∧ ∃ p', Sidebar.dispatch (Sidebar.Keydown "Escape") p
             = (p', Thrown (TypeError "overlay.classList"))
             ∧ Sidebar.isVisible p' = false).
Proof.
  split.
  - assert (((Sidebar.wire_clicks;; Sidebar.wire_keydown)
               (Sidebar.Page hb None ov bd [] fo)).1
            = Sidebar.Page hb None ov bd [Sidebar.OnKeydown] fo) as ->.
    { unfold mbind, js_mbind, js_bind, Sidebar.wire_clicks.
      cbn [Sidebar.hamburger Sidebar.sidebar Sidebar.overlay].
      rewrite (bool_decide_eq_false_2 (is_Some None))
        by (intros [x Hx]; discriminate).
      rewrite andb_false_r. reflexivity. }
    split; reflexivity.
  - assert (((Sidebar.wire_clicks;; Sidebar.wire_keydown)
               (Sidebar.Page (Some h0) (Some (Dom.classList_add "show" sb0))
                  None bd [] fo)).1
            = Sidebar.Page (Some h0) (Some (Dom.classList_add "show" sb0))
                None bd [Sidebar.OnKeydown] fo) as -> by reflexivity.
    split; [reflexivity|]. split.
    + unfold Sidebar.isVisible. cbn. apply contains_add.
    + eexists. split.
      * unfold Sidebar.dispatch, Sidebar.handler, Sidebar.on_keydown.
        cbn [Sidebar.listeners].
        rewrite bool_decide_eq_true_2 by (apply list_elem_of_here).
        rewrite bool_decide_eq_true_2 by reflexivity.
        unfold mbind, js_mbind, js_bind, deref, js_ret. cbn [Sidebar.sidebar].
        rewrite contains_add. reflexivity.
      * unfold Sidebar.isVisible. cbn. apply contains_remove.
Qed.

(** ** Scroll-spy *)

Section ScrollSpyFacts.
Import Dom ScrollSpy.

Lemma same_but_active_refl l : same_but_active l l.
Proof. split; [reflexivity|]. split; [reflexivity|]. intros c _. reflexivity. Qed.

Lemma same_but_active_trans l1 l2 l3 :
  same_but_active l1 l2 -> same_but_active l2 l3 -> same_but_active l1 l3.
Proof.
  intros (Ha & Hs & Hc) (Ha' & Hs' & Hc').
  split; [congruence|]. split; [congruence|].
  intros c Hne. rewrite Hc', Hc by exact Hne. reflexivity.
Qed.

Lemma mark_same_but_active id l : same_but_active l (mark id l).
Proof.
  unfold mark. case_bool_decide.
  - split; [|split].
    + unfold classList_add. destruct (contains _ _); reflexivity.
    + unfold classList_add. destruct (contains _ _); reflexivity.
    + intros c Hne.
      rewrite contains_add_ne, contains_remove_ne by exact Hne. reflexivity.
  - split; [reflexivity|]. split; [reflexivity|].
    intros c Hne. apply contains_remove_ne. exact Hne.
Qed.

(** After [mark], a link is active exactly when its [href] is the
    fragment. *)
Lemma active_mark id l :
  active (mark id l)
  = bool_decide (getAttribute "href" l = Some ("#" +:+ template_string id)).
Proof.
  unfold active, mark.
  change (getAttribute "href" (classList_remove "active" l))
    with (getAttribute "href" l).
  case_bool_decide.
  - apply contains_add.
  - apply contains_remove.
Qed.

Lemma on_entry_same links e :
  Forall2 same_but_active links (on_entry links e).
Proof.
  unfold on_entry. destruct (isIntersecting e).
  - apply Forall2_fmap_r, Forall_Forall2_diag, Forall_forall.
    intros l _. apply mark_same_but_active.
  - apply Forall_Forall2_diag, Forall_forall. intros l _.
    apply same_but_active_refl.
Qed.

Lemma sectionObserver_same es : forall links,
  Forall2 same_but_active links (sectionObserver es links).
Proof.
  induction es as [|e es IH]; intros links.
  - apply Forall_Forall2_diag, Forall_forall. intros l _.
    apply same_but_active_refl.
  - change (sectionObserver (e :: es) links)
      with (sectionObserver es (on_entry links e)).
    eapply Forall2_trans; [|apply on_entry_same|apply IH].
    intros x y z. apply same_but_active_trans.
Qed.

Lemma Forall2_and_left {A B} (R : A -> B -> Prop) (P : A -> Prop) l k :
  Forall2 R l k -> Forall P l -> Forall2 (fun x y => P x ∧ R x y) l k.
Proof.
  induction 1 as [|x y l k Hxy _ IH]; intros HP; [constructor|].
  inversion HP; subst. constructor; auto.
Qed.

Lemma sectionObserver_snoc es e links :
  sectionObserver (es ++ [e]) links = on_entry (sectionObserver es links) e.
Proof. unfold sectionObserver. rewrite foldl_app. reflexivity. Qed.
End ScrollSpyFacts.

(** C5. After the callback has processed an intersecting entry for the
    section with identifier [s] (as the last entry of a batch), the list of
    links has kept its length, every link has kept its attributes, style and
    other classes, and a link carries [active] exactly when its [href] is
    ["#" + s], whatever classes the links carried before. *)
Theorem sectionObserver_marks_exactly_target
    (es : list ScrollSpy.entry) (e : ScrollSpy.entry)
    (links : list Dom.element) (s : string) :
  ScrollSpy.isIntersecting e = true ->
  Dom.getAttribute "id" (ScrollSpy.target e) = Some s ->
  Forall2 (fun link link' =>
             ScrollSpy.same_but_active link link'
             ∧ ScrollSpy.active link'
               = bool_decide (Dom.getAttribute "href" link = Some ("#" +:+ s)))
          links (ScrollSpy.sectionObserver (es ++ [e]) links).
Proof.
  intros Hint Hid. rewrite sectionObserver_snoc.
  unfold ScrollSpy.on_entry. rewrite Hint, Hid.
  apply Forall2_fmap_r.
  eapply Forall2_impl; [apply sectionObserver_same|].
  intros l l' Hsame. split.
  - eapply same_but_active_trans; [exact Hsame|apply mark_same_but_active].
  - rewrite active_mark. unfold Dom.getAttribute.
    destruct Hsame as (-> & _). reflexivity.
Qed.

Lemma sectionObserver_marks_exactly_target_witness :
  Forall2 (fun link link' =>
             ScrollSpy.same_but_active link link'
             ∧ ScrollSpy.active link'
               = bool_decide (Dom.getAttribute "href" link = Some "#projects"))
          [Samples.anchor "#about" ["active"]; Samples.anchor "#projects" []]
          (ScrollSpy.sectionObserver
             ([] ++ [ScrollSpy.Entry true (Samples.section_with_id "projects")])
             [Samples.anchor "#about" ["active"]; Samples.anchor "#projects" []]).
Proof.
  apply (sectionObserver_marks_exactly_target []
           (ScrollSpy.Entry true (Samples.section_with_id "projects"))
           [Samples.anchor "#about" ["active"]; Samples.anchor "#projects" []]
           "projects").
  - reflexivity.
  - vm_compute. reflexivity.
Defined.

(** C10, as stated, fails: a section without an [id] makes the callback
    compare each [href] with ["#null"], so a link with that [href] is
    marked although no identifier matches it. *)
Lemma sectionObserver_unmatched_counterexample :
  ~ (forall (links : list Dom.element) (e : ScrollSpy.entry),
        ScrollSpy.isIntersecting e = true ->
        (forall s link,
            Dom.getAttribute "id" (ScrollSpy.target e) = Some s ->
            link ∈ links ->
            Dom.getAttribute "href" link ≠ Some ("#" +:+ s)) ->
        Forall (fun link' => ScrollSpy.active link' = false)
               (ScrollSpy.sectionObserver [e] links)).
Proof.
  intros Hclaim.
  specialize (Hclaim [Samples.anchor "#null" []]
                (ScrollSpy.Entry true Samples.section_without_id) eq_refl).
  assert (Hnone : forall s link,
             Dom.getAttribute "id" Samples.section_without_id = Some s ->
             link ∈ [Samples.anchor "#null" []] ->
             Dom.getAttribute "href" link ≠ Some ("#" +:+ s)).
  { intros s link Hid. vm_compute in Hid. discriminate. }
  specialize (Hclaim Hnone). inversion Hclaim as [|x l Hact _]; subst.
  vm_compute in Hact. discriminate.
Qed.

(** C10, amended.  After the callback has processed an intersecting entry
    (as the last entry of a batch) whose fragment, ["#" + id] with a missing
    [id] printed as [null], is the [href] of no link, every link has kept
    its attributes, style and other classes and none carries [active]. *)
Theorem sectionObserver_clears_when_unmatched
    (es : list ScrollSpy.entry) (e : ScrollSpy.entry)
    (links : list Dom.element) :
  ScrollSpy.isIntersecting e = true ->
  (forall link, link ∈ links ->
     Dom.getAttribute "href" link
     ≠ Some ("#" +:+ Dom.template_string
                       (Dom.getAttribute "id" (ScrollSpy.target e)))) ->
  Forall2 (fun link link' =>
             ScrollSpy.same_but_active link link'
             ∧ ScrollSpy.active link' = false)
          links (ScrollSpy.sectionObserver (es ++ [e]) links).
Proof.
  intros Hint Hnone. rewrite sectionObserver_snoc.
  unfold ScrollSpy.on_entry. rewrite Hint.
  apply Forall2_fmap_r.
  apply Forall_forall in Hnone.
  eapply Forall2_impl;
    [exact (Forall2_and_left _ _ _ _ (sectionObserver_same es links) Hnone)|].
  intros l l' [Hne Hsame]. split.
  - eapply same_but_active_trans; [exact Hsame|apply mark_same_but_active].
  - rewrite active_mark. apply bool_decide_eq_false_2.
    unfold Dom.getAttribute in *. destruct Hsame as (-> & _). exact Hne.
Qed.

Lemma sectionObserver_clears_when_unmatched_witness :
  Forall2 (fun link link' =>
             ScrollSpy.same_but_active link link'
             ∧ ScrollSpy.active link' = false)
          [Samples.anchor "#about" ["active"]; Samples.anchor "#projects" []]
          (ScrollSpy.sectionObserver
             ([] ++ [ScrollSpy.Entry true Samples.section_without_id])
             [Samples.anchor "#about" ["active"]; Samples.anchor "#projects" []]).
Proof.
  apply (sectionObserver_clears_when_unmatched []
           (ScrollSpy.Entry true Samples.section_without_id)
           [Samples.anchor "#about" ["active"]; Samples.anchor "#projects" []]).
  - reflexivity.
  - intros link Hin Heq.
    apply elem_of_cons in Hin as [->|Hin];
      [vm_compute in Heq; discriminate|].
    apply elem_of_cons in Hin as [->|Hin];
      [vm_compute in Heq; discriminate|].
    inversion Hin.
Defined.

(** ** Typing animation *)

Section TypingFacts.
Import Typing.

Lemma substring0_zero s : substring0 s 0 = "".
Proof. unfold substring0. cbn. destruct s; reflexivity. Qed.

Lemma length_substring_prefix s : forall n,
  (n ≤ String.length s)%nat -> String.length (String.substring 0 n s) = n.
Proof.
  induction s as [|c s IH]; intros n Hn.
  - cbn in Hn. assert (n = 0)%nat as -> by lia. reflexivity.
  - destruct n as [|n]; [reflexivity|]. cbn in *. rewrite IH by lia. reflexivity.
Qed.

Lemma length_substring0 s k :
  (0 ≤ k ≤ Z.of_nat (String.length s))%Z ->
  Z.of_nat (String.length (substring0 s k)) = k.
Proof.
  intros Hk. unfold substring0. rewrite length_substring_prefix by lia. lia.
Qed.

Variable phrases : list string.
Hypothesis phrases_nonempty :
  Forall (fun p => (0 < String.length p)%nat) phrases.

(** One run of [animateTyping] with motion allowed: the counters stay in
    range, the count moves by exactly one, and the text is the prefix of
    the current phrase with that many characters. *)
Lemma animateTyping_step a :
  well_formed phrases a ->
  let a' := (animateTyping false phrases a).1 in
  well_formed phrases a'
  ∧ (∃ p', phrases !! phraseIndex a' = Some p'
           ∧ textContent a' = substring0 p' (charIndex a'))
  ∧ Z.of_nat (String.length (textContent a')) = charIndex a'
  ∧ (charIndex a' = charIndex a + 1 ∨ charIndex a' = charIndex a - 1)%Z
  ∧ length (Timers.pending (timers a'))
    = S (length (Timers.pending (timers a))).
Proof.
  intros (p & Hp & Hrange). unfold animateTyping. rewrite Hp.
  destruct (isDeleting a) eqn:Hdel; cbn [negb andb].
  - destruct (charIndex a - 1 =? 0)%Z eqn:Hzero; cbn.
    + apply Z.eqb_eq in Hzero.
      assert (Hlen : (phraseIndex a < length phrases)%nat)
        by (eapply lookup_lt_Some; exact Hp).
      assert (Hmod : ((phraseIndex a + 1) `mod` length phrases
                      < length phrases)%nat)
        by (apply Nat.mod_upper_bound; lia).
      destruct (lookup_lt_is_Some_2 _ _ Hmod) as [p' Hp'].
      assert (Hp'len : (0 < String.length p')%nat).
      { rewrite Forall_forall in phrases_nonempty.
        apply phrases_nonempty. eapply list_elem_of_lookup_2. exact Hp'. }
      rewrite Hzero, substring0_zero.
      split; [|split; [|split; [|split]]].
      * exists p'. cbn. split; [exact Hp'|lia].
      * exists p'. rewrite substring0_zero. split; [exact Hp'|reflexivity].
      * reflexivity.
      * lia.
      * rewrite length_app. cbn. lia.
    + apply Z.eqb_neq in Hzero.
      split; [|split; [|split; [|split]]].
      * exists p. cbn. split; [exact Hp|lia].
      * exists p. split; [exact Hp|reflexivity].
      * apply length_substring0. lia.
      * lia.
      * rewrite length_app. cbn. lia.
  - destruct (charIndex a + 1 =? Z.of_nat (String.length p))%Z eqn:Hfull; cbn.
    + apply Z.eqb_eq in Hfull.
      split; [|split; [|split; [|split]]].
      * exists p. cbn. split; [exact Hp|lia].
      * exists p. split; [exact Hp|reflexivity].
      * apply length_substring0. lia.
      * lia.
      * rewrite length_app. cbn. lia.
    + apply Z.eqb_neq in Hfull.
      split; [|split; [|split; [|split]]].
      * exists p. cbn. split; [exact Hp|lia].
      * exists p. split; [exact Hp|reflexivity].
      * apply length_substring0. lia.
      * lia.
      * rewrite length_app. cbn. lia.
Qed.

Lemma run_snoc r n a :
  run r phrases (S n) a = (animateTyping r phrases (run r phrases n a)).1.
Proof.
  revert a. induction n as [|n IH]; intros a; [reflexivity|].
  change (run r phrases (S (S n)) a)
    with (run r phrases (S n) (animateTyping r phrases a).1).
  rewrite IH. reflexivity.
Qed.

Lemma run_well_formed n a :
  well_formed phrases a -> well_formed phrases (run false phrases n a).
Proof.
  intros Ha. induction n as [|n IH]; [exact Ha|].
  rewrite run_snoc. apply animateTyping_step. exact IH.
Qed.

Lemma start_well_formed text0 p0 ps :
  phrases = p0 :: ps -> well_formed phrases (start text0).
Proof.
  intros ->. exists p0. cbn. split; [reflexivity|].
  inversion phrases_nonempty; subst. lia.
Qed.
End TypingFacts.

Section TypingClock.
Import Timers Typing.
Variable r : bool.
Variable phrases : list string.

Local Abbreviation loop_ticks :=
  (ticks timers set_timers
     (fun (_ : unit) a => (animateTyping r phrases a).1)).

Lemma ticks_add n m a : loop_ticks (n + m) a = loop_ticks m (loop_ticks n a).
Proof.
  revert a. induction n as [|n IH]; intros a; [reflexivity|].
  cbn [Nat.add ticks]. apply IH.
Qed.

(** While the only pending timer is not due, time just passes. *)
Lemma ticks_quiet n : forall a t,
  pending (timers a) = [t] ->
  (now (timers a) + n < due t)%nat ->
  loop_ticks n a = later_by n a.
Proof.
  induction n as [|n IH]; intros a t Hone Hlate.
  - destruct a as [pi ci del txt [nw nid pend f]]. unfold later_by, set_timers.
    cbn. replace (nw + 0)%nat with nw by lia. reflexivity.
  - cbn [ticks].
    assert (Htick : tick timers set_timers
                      (fun (_ : unit) a => (animateTyping r phrases a).1) a
                    = later_by 1 a).
    { unfold tick, settle. destruct a as [pi ci del txt [nw nid pend f]].
      cbn in Hone, Hlate. subst pend. cbn.
      unfold next_due, is_due. cbn.
      assert (Hnot : ¬ (due t ≤ S nw)%nat) by lia.
      rewrite (bool_decide_eq_false_2 _ Hnot).
      unfold later_by, set_timers. cbn.
      replace (nw + 1)%nat with (S nw) by lia. reflexivity. }
    rewrite Htick. rewrite (IH (later_by 1 a) t).
    + destruct a as [pi ci del txt [nw nid pend f]]. unfold later_by, set_timers.
      cbn. replace (nw + 1 + n)%nat with (nw + S n)%nat by lia. reflexivity.
    + destruct a as [pi ci del txt [nw nid pend f]]. exact Hone.
    + destruct a as [pi ci del txt [nw nid pend f]]. cbn in *. lia.
Qed.

Lemma ticks_next n a t :
  pending (timers a) = [t] ->
  (now (timers a) + n < due t)%nat ->
  loop_ticks (S n) a = next_run r phrases n a.
Proof.
  intros Hone Hlate. replace (S n) with (n + 1)%nat by lia.
  rewrite ticks_add, (ticks_quiet n a t Hone Hlate). reflexivity.
Qed.
End TypingClock.

Lemma displayed_length r phrases n : forall a,
  length (Typing.displayed r phrases n a) = n.
Proof.
  induction n as [|n IH]; intros a; [reflexivity|].
  cbn. rewrite IH. reflexivity.
Qed.

(** C4, as stated, fails: no initial stretch of the displayed strings for
    ["a."; "bb."] reads "a", "a.", "" with the animation then on its second
    phrase. *)
Lemma typing_first_phrase_counterexample :
  ~ (exists n,
        Typing.displayed false ["a."; "bb."] n (Typing.start "")
        = ["a"; "a."; ""]
        ∧ Typing.phraseIndex
            (Typing.run false ["a."; "bb."] n (Typing.start "")) = 1%nat).
Proof.
  intros (n & Hshown & _).
  assert (n = 3)%nat as ->
    by (rewrite <- (displayed_length false ["a."; "bb."] n (Typing.start "")),
          Hshown; reflexivity).
  vm_compute in Hshown. discriminate.
Qed.

(** The first five runs for ["a."; "bb."] on the clock: what the element
    shows just before and at 500, 600, 2600, 2650 and 2700 ms. *)
Section Timeline.
Variable text0 : string.

Local Abbreviation ph := ["a."; "bb."].
Local Abbreviation play :=
  (Timers.ticks Typing.timers Typing.set_timers
     (fun (_ : unit) a => (Typing.animateTyping false ph a).1)).
Local Abbreviation a0 := (Typing.start text0).
Local Abbreviation a1 := (Typing.next_run false ph 499 a0).
Local Abbreviation a2 := (Typing.next_run false ph 99 a1).
Local Abbreviation a3 := (Typing.next_run false ph 1999 a2).
Local Abbreviation a4 := (Typing.next_run false ph 49 a3).
Local Abbreviation a5 := (Typing.next_run false ph 49 a4).

Lemma play_499 : play 499%nat a0 = Typing.later_by 499 a0.
Proof.
  apply (ticks_quiet false ph 499 a0 (Timers.Timer 1 500 tt));
    [reflexivity | vm_compute; lia].
Qed.

Lemma play_500 : play 500%nat a0 = a1.
Proof.
  apply (ticks_next false ph 499 a0 (Timers.Timer 1 500 tt));
    [reflexivity | vm_compute; lia].
Qed.

Lemma play_599 : play (500 + 99)%nat a0 = Typing.later_by 99 a1.
Proof.
  rewrite ticks_add, play_500.
  apply (ticks_quiet false ph 99 a1 (Timers.Timer 2 600 tt));
    [vm_compute; reflexivity | vm_compute; lia].
Qed.

Lemma play_600 : play (500 + 100)%nat a0 = a2.
Proof.
  rewrite ticks_add, play_500.
  apply (ticks_next false ph 99 a1 (Timers.Timer 2 600 tt));
    [vm_compute; reflexivity | vm_compute; lia].
Qed.

Lemma play_2599 : play (500 + 100 + 1999)%nat a0 = Typing.later_by 1999 a2.
Proof.
  rewrite ticks_add, play_600.
  apply (ticks_quiet false ph 1999 a2 (Timers.Timer 3 2600 tt));
    [vm_compute; reflexivity | vm_compute; lia].
Qed.

Lemma play_2600 : play (500 + 100 + 2000)%nat a0 = a3.
Proof.
  rewrite ticks_add, play_600.
  apply (ticks_next false ph 1999 a2 (Timers.Timer 3 2600 tt));
    [vm_compute; reflexivity | vm_compute; lia].
Qed.

Lemma play_2649 :
  play (500 + 100 + 2000 + 49)%nat a0 = Typing.later_by 49 a3.
Proof.
  rewrite ticks_add, play_2600.
  apply (ticks_quiet false ph 49 a3 (Timers.Timer 4 2650 tt));
    [vm_compute; reflexivity | vm_compute; lia].
Qed.

Lemma play_2650 : play (500 + 100 + 2000 + 50)%nat a0 = a4.
Proof.
  rewrite ticks_add, play_2600.
  apply (ticks_next false ph 49 a3 (Timers.Timer 4 2650 tt));
    [vm_compute; reflexivity | vm_compute; lia].
Qed.

Lemma play_2699 :
  play (500 + 100 + 2000 + 50 + 49)%nat a0 = Typing.later_by 49 a4.
Proof.
  rewrite ticks_add, play_2650.
  apply (ticks_quiet false ph 49 a4 (Timers.Timer 5 2700 tt));
    [vm_compute; reflexivity | vm_compute; lia].
Qed.

Lemma play_2700 : play (500 + 100 + 2000 + 50 + 50)%nat a0 = a5.
Proof.
  rewrite ticks_add, play_2650.
  apply (ticks_next false ph 49 a4 (Timers.Timer 5 2700 tt));
    [vm_compute; reflexivity | vm_compute; lia].
Qed.

Lemma typing_timeline :
  (fun t => Typing.textContent (Typing.advance false ph t a0))
    <$> [499; 500; 599; 600; 2599; 2600; 2649; 2650; 2699; 2700]%nat
  = [text0; "a"; "a"; "a."; "a."; "a"; "a"; ""; ""; "b"].
Proof.
  change (Typing.textContent
            <$> [play 499%nat a0; play 500%nat a0;
                 play (500 + 99)%nat a0; play (500 + 100)%nat a0;
                 play (500 + 100 + 1999)%nat a0;
                 play (500 + 100 + 2000)%nat a0;
                 play (500 + 100 + 2000 + 49)%nat a0;
                 play (500 + 100 + 2000 + 50)%nat a0;
                 play (500 + 100 + 2000 + 50 + 49)%nat a0;
                 play (500 + 100 + 2000 + 50 + 50)%nat a0]
          = [text0; "a"; "a"; "a."; "a."; "a"; "a"; ""; ""; "b"]).
  rewrite play_499, play_500, play_599, play_600, play_2599, play_2600,
    play_2649, play_2650, play_2699, play_2700.
  vm_compute. reflexivity.
Qed.
End Timeline.

(** C4, amended.  With motion allowed and the phrases ["a."; "bb."], the
    strings displayed by the first five runs are "a", "a.", "a", "", "b":
    the first phrase grows to its full length, shrinks one character at a
    time down to the empty string, and only then the second phrase starts.
    These runs happen 500, 600, 2600, 2650 and 2700 ms after the start, and
    the element keeps its original text before the first.  After every run
    the text is the prefix of the current phrase that has the current
    character count, and between two runs its length changes by exactly
    one. *)
Theorem typing_grows_then_shrinks (text0 : string) :
  let ph := ["a."; "bb."] in
  let a0 := Typing.start text0 in
  Typing.displayed false ph 5 a0 = ["a"; "a."; "a"; ""; "b"]
  ∧ (fun n => Typing.phraseIndex (Typing.run false ph n a0)) <$> [1; 2; 3; 4; 5]%nat
    = [0; 0; 0; 1; 1]%nat
  ∧ (fun t => Typing.textContent (Typing.advance false ph t a0))
      <$> [499; 500; 599; 600; 2599; 2600; 2649; 2650; 2699; 2700]%nat
    = [text0; "a"; "a"; "a."; "a."; "a"; "a"; ""; ""; "b"]
  ∧ (forall n,
        let a := Typing.run false ph (S n) a0 in
        exists p,
          ph !! Typing.phraseIndex a = Some p
          ∧ Typing.textContent a = Typing.substring0 p (Typing.charIndex a)
          ∧ Z.of_nat (String.length (Typing.textContent a)) = Typing.charIndex a)
  ∧ (forall n,
        let shown k := String.length
                         (Typing.textContent (Typing.run false ph k a0)) in
        shown (S (S n)) = S (shown (S n)) ∨ S (shown (S (S n))) = shown (S n)).
Proof.
  intros ph a0.
  assert (Hne : Forall (fun p => (0 < String.length p)%nat) ph)
    by (repeat constructor).
  assert (Hwf : forall n, Typing.well_formed ph (Typing.run false ph n a0)).
  { intros n. apply run_well_formed; [exact Hne|].
    eapply start_well_formed; [exact Hne|reflexivity]. }
  assert (Hstep : forall n,
             let a := Typing.run false ph n a0 in
             let a' := Typing.run false ph (S n) a0 in
             (exists p,
                 ph !! Typing.phraseIndex a' = Some p
                 ∧ Typing.textContent a' = Typing.substring0 p (Typing.charIndex a'))
             ∧ Z.of_nat (String.length (Typing.textContent a')) = Typing.charIndex a'
             ∧ (Typing.charIndex a' = Typing.charIndex a + 1
                ∨ Typing.charIndex a' = Typing.charIndex a - 1)%Z).
  { intros n a a'. subst a a'. rewrite run_snoc.
    destruct (animateTyping_step ph Hne _ (Hwf n)) as (_ & Hp & Hl & Hc & _).
    auto. }
  split; [vm_compute; reflexivity|].
  split; [vm_compute; reflexivity|].
  split; [apply typing_timeline|].
  split.
  - intros n a. destruct (Hstep n) as ((p & Hp & Ht) & Hl & _).
    exists p. auto.
  - intros n shown. subst shown. cbv beta.
    destruct (Hstep n) as (_ & Hl & _).
    destruct (Hstep (S n)) as (_ & Hl' & Hc).
    cbv zeta in Hl, Hl', Hc. lia.
Qed.

Section ReducedMotion.
Import Timers Typing.
Variable p0 : string.
Variable ps : list string.
Variable text0 : string.

Local Abbreviation loop_tick :=
  (tick timers set_timers
     (fun (_ : unit) a => (animateTyping true (p0 :: ps) a).1)).
Local Abbreviation loop_ticks :=
  (ticks timers set_timers
     (fun (_ : unit) a => (animateTyping true (p0 :: ps) a).1)).
Local Abbreviation loop_settle :=
  (settle timers set_timers
     (fun (_ : unit) a => (animateTyping true (p0 :: ps) a).1)).

Lemma start_waiting : start text0 = waiting text0 0.
Proof. reflexivity. Qed.

Lemma settle_waiting_early t :
  (t < startDelay)%nat -> loop_settle (waiting text0 t) = waiting text0 t.
Proof.
  intros Hlt. unfold settle, waiting. cbn [timers pending length fire_due].
  unfold next_due, is_due. cbn [pending now List.find due].
  rewrite bool_decide_eq_false_2 by lia. reflexivity.
Qed.

Lemma settle_waiting_due t :
  (startDelay ≤ t)%nat -> loop_settle (waiting text0 t) = settled p0 t.
Proof.
  intros Hle. unfold settle, waiting. cbn [timers pending length fire_due].
  unfold next_due, is_due. cbn [pending now List.find due].
  rewrite bool_decide_eq_true_2 by lia.
  unfold animateTyping, take, set_timers, settled.
  cbn -[Z.eqb Z.of_nat String.length].
  rewrite decide_False by (intros Hn; apply Hn; reflexivity).
  change (0 + 1)%Z with 1%Z.
  destruct (1 =? Z.of_nat (String.length p0))%Z; reflexivity.
Qed.

Lemma tick_waiting t :
  loop_tick (waiting text0 t)
  = if bool_decide (S t < startDelay)%nat
    then waiting text0 (S t)
    else settled p0 (S t).
Proof.
  unfold tick.
  change (set_timers (elapse (timers (waiting text0 t))) (waiting text0 t))
    with (waiting text0 (S t)).
  case_bool_decide.
  - apply settle_waiting_early; lia.
  - apply settle_waiting_due; lia.
Qed.

Lemma ticks_settled n : forall t,
  loop_ticks n (settled p0 t) = settled p0 (n + t).
Proof.
  induction n as [|n IH]; intros t; [reflexivity|].
  cbn [ticks].
  replace (S n + t)%nat with (n + S t)%nat by lia.
  rewrite <- IH. reflexivity.
Qed.

Lemma ticks_waiting n : forall t,
  (t < startDelay)%nat ->
  loop_ticks n (waiting text0 t)
  = if bool_decide (n + t < startDelay)%nat
    then waiting text0 (n + t)
    else settled p0 (n + t).
Proof.
  induction n as [|n IH]; intros t Hlt.
  - cbn. rewrite bool_decide_eq_true_2 by lia. reflexivity.
  - cbn [ticks]. rewrite tick_waiting.
    replace (S n + t)%nat with (n + S t)%nat by lia.
    case_bool_decide as Hnext.
    + apply IH. exact Hnext.
    + rewrite ticks_settled.
      rewrite bool_decide_eq_false_2 by lia. reflexivity.
Qed.

Lemma advance_reduced T :
  Typing.advance true (p0 :: ps) T (start text0)
  = if bool_decide (T < startDelay)%nat
    then waiting text0 T
    else settled p0 T.
Proof.
  unfold Typing.advance, Timers.advance. rewrite start_waiting.
  rewrite settle_waiting_early by (unfold startDelay; lia).
  rewrite ticks_waiting by (unfold startDelay; lia).
  replace (T + 0)%nat with T by lia. reflexivity.
Qed.
End ReducedMotion.

(** C2, as stated, fails: with reduced motion the first timer is still set
    and its callback still runs, after 500 ms, and until then the element
    shows the text of the markup. *)
Lemma reduced_motion_counterexample :
  ~ (forall T,
        Timers.fired
          (Typing.timers
             (Typing.advance true Typing.site_phrases T (Typing.start "")))
        = 0%nat)
  ∧ ~ (forall T,
          Typing.textContent
            (Typing.advance true Typing.site_phrases T (Typing.start ""))
          = "developer.").
Proof.
  split; intros Hclaim.
  - specialize (Hclaim 500%nat). vm_compute in Hclaim. discriminate.
  - specialize (Hclaim 0%nat). vm_compute in Hclaim. discriminate.
Qed.

(** C2, amended.  With the reduced-motion preference set and a phrase list
    starting with [p0], the element keeps the text of the markup and no
    timer callback has run during the first 500 ms, one timer being pending;
    from 500 ms on exactly one timer callback has run, the text is [p0] and
    no timer is pending, so nothing changes any more. *)
Theorem reduced_motion_shows_first_phrase
    (p0 : string) (ps : list string) (text0 : string) (T : nat) :
  let a := Typing.advance true (p0 :: ps) T (Typing.start text0) in
  if bool_decide (T < 500)%nat
  then Typing.textContent a = text0
       ∧ Timers.fired (Typing.timers a) = 0%nat
       ∧ length (Timers.pending (Typing.timers a)) = 1%nat
  else Typing.textContent a = p0
       ∧ Timers.fired (Typing.timers a) = 1%nat
       ∧ Timers.pending (Typing.timers a) = [].
Proof.
  intros a. subst a. rewrite advance_reduced.
  change Typing.startDelay with 500%nat.
  case_bool_decide; repeat split.
Qed.

(** ** Particle-field render loop *)

Section ParticlesFacts.
Import Particles.

Lemma step_single_loop r ev : single_loop r -> single_loop (step r ev).
Proof.
  unfold single_loop. destruct r as [hid id reqs next drawn]. cbn.
  destruct hid; intros Hinv.
  - subst reqs. destruct ev; cbn.
    + exists next. split; reflexivity.
    + reflexivity.
  - destruct Hinv as (i & -> & ->). destruct ev; cbn.
    + rewrite decide_False by (intros Hn; apply Hn; reflexivity). reflexivity.
    + exists next. split; reflexivity.
Qed.

Lemma run_single_loop evs : forall r, single_loop r -> single_loop (run evs r).
Proof.
  induction evs as [|ev evs IH]; intros r Hr; [exact Hr|].
  cbn. apply IH, step_single_loop, Hr.
Qed.

Lemma step_double_loop r ev : double_loop r -> double_loop (step r ev).
Proof.
  unfold double_loop. destruct r as [hid id reqs next drawn]. cbn.
  intros (a & Ha & Hinv). destruct hid.
  - subst reqs. destruct ev; cbn.
    + exists a. split; [lia|]. exists next.
      split; [lia|]. split; [lia|]. split; reflexivity.
    + exists a. split; [lia|reflexivity].
  - destruct Hinv as (b & Hb & Hab & -> & ->). destruct ev; cbn.
    + exists a. split; [lia|].
      rewrite decide_True by exact Hab.
      rewrite decide_False by (intros Hn; apply Hn; reflexivity). reflexivity.
    + exists next. split; [lia|]. exists (S next).
      split; [lia|]. split; [lia|]. split; reflexivity.
Qed.

Lemma run_double_loop evs : forall r, double_loop r -> double_loop (run evs r).
Proof.
  induction evs as [|ev evs IH]; intros r Hr; [exact Hr|].
  cbn. apply IH, step_double_loop, Hr.
Qed.

(** On a page that is visible at the setup the render loop keeps at most
    one frame request, whatever the order of frames and visibility
    changes. *)
Lemma visible_start_single_request evs :
  (length (requests (run evs (start false))) ≤ 1)%nat.
Proof.
  assert (Hinv : single_loop (run evs (start false))).
  { apply run_single_loop. unfold single_loop. cbn.
    exists 1%nat. split; reflexivity. }
  unfold single_loop in Hinv. destruct (hidden _).
  - rewrite Hinv. cbn. lia.
  - destruct Hinv as (i & -> & _). cbn. lia.
Qed.
End ParticlesFacts.

(** C6.  A page that is hidden at the setup (a tab opened in the
    background) gets its first frame request from line 198; the first
    change to visible runs [animate] again without cancelling it, and from
    then on the host holds two frame requests whenever the page is visible
    and one, never cancelled, whenever it is hidden. *)
Theorem hidden_start_keeps_two_frame_requests (evs : list Particles.event) :
  Particles.requests (Particles.start true) = [1%nat]
  ∧ Particles.requests
      (Particles.run [Particles.VisibilityChange] (Particles.start true))
    = [1; 2]%nat
  ∧ let r := Particles.run (Particles.VisibilityChange :: evs)
               (Particles.start true) in
    length (Particles.requests r) = if Particles.hidden r then 1%nat else 2%nat.
Proof.
  split; [reflexivity|]. split; [reflexivity|].
  intros r.
  assert (Hinv : Particles.double_loop r).
  { subst r.
    change (Particles.run (Particles.VisibilityChange :: evs)
              (Particles.start true))
      with (Particles.run evs
              (Particles.step (Particles.start true) Particles.VisibilityChange)).
    apply run_double_loop. unfold Particles.double_loop. cbn.
    exists 1%nat. split; [lia|].
    exists 2%nat. split; [lia|]. split; [lia|]. split; reflexivity. }
  unfold Particles.double_loop in Hinv. destruct Hinv as (a & _ & Hinv).
  destruct (Particles.hidden r).
  - rewrite Hinv. reflexivity.
  - destruct Hinv as (b & _ & _ & -> & _). reflexivity.
Qed.

(** ** Lazy image loader *)

Section LazyImagesFacts.
Import Dom LazyImages.
Variable i : nat.
Variable img : element.
Variable u : string.
Hypothesis img_data_src : getAttribute "data-src" img = Some u.

Lemma writes_to_snoc st j v :
  filter (fun w : nat * string => w.1 = i) (src_writes st ++ [(j, v)])%list
  = (filter (fun w : nat * string => w.1 = i) (src_writes st)
     ++ (if bool_decide (j = i) then [(j, v)] else []))%list.
Proof.
  rewrite filter_app. f_equal. case_bool_decide.
  - rewrite filter_cons_True by assumption. reflexivity.
  - rewrite filter_cons_False by assumption. reflexivity.
Qed.

(** An entry that does not report [i] leaves image [i] as it is. *)
Lemma on_entry_elsewhere e st :
  hits i e = false ->
  (untouched i img st -> untouched i img (on_entry st e))
  ∧ (loaded i img u st -> loaded i img u (on_entry st e)).
Proof.
  unfold hits, on_entry. intros Hmiss.
  destruct (isIntersecting e); [|tauto].
  destruct (images st !! target e) as [other|] eqn:Hother; [|tauto].
  cbn in Hmiss. apply bool_decide_eq_false in Hmiss.
  unfold untouched, loaded, writes_to. cbn.
  rewrite writes_to_snoc, bool_decide_eq_false_2 by exact Hmiss.
  rewrite app_nil_r, list_lookup_insert_ne by exact Hmiss.
  rewrite list_elem_of_filter. split.
  - intros (Himg & Hobs & Hw). split; [exact Himg|]. split; [|exact Hw].
    split; [congruence|exact Hobs].
  - intros (Himg & Hobs & Hw). split; [exact Himg|]. split; [|exact Hw].
    tauto.
Qed.

(** The entry that reports [i] loads it. *)
Lemma on_entry_hit e st :
  hits i e = true -> untouched i img st -> loaded i img u (on_entry st e).
Proof.
  unfold hits, on_entry. intros Hhit (Himg & Hobs & Hw).
  apply andb_true_iff in Hhit as [-> Htarget].
  apply bool_decide_eq_true in Htarget. rewrite Htarget, Himg.
  unfold loaded, writes_to in *. cbn.
  rewrite writes_to_snoc, bool_decide_eq_true_2 by reflexivity.
  rewrite fmap_app, Hw. cbn.
  split; [|split].
  - apply list_lookup_insert_eq. eapply lookup_lt_Some. exact Himg.
  - rewrite list_elem_of_filter. tauto.
  - unfold getAttribute in img_data_src. rewrite img_data_src. reflexivity.
Qed.

Lemma imageObserver_elsewhere batch : forall st,
  (forall e, e ∈ batch -> hits i e = false) ->
  (untouched i img st -> untouched i img (imageObserver batch st))
  ∧ (loaded i img u st -> loaded i img u (imageObserver batch st)).
Proof.
  induction batch as [|e batch IH]; intros st Hmiss; [tauto|].
  change (imageObserver (e :: batch) st)
    with (imageObserver batch (on_entry st e)).
  destruct (on_entry_elsewhere e st) as [Hu Hl];
    [apply Hmiss, list_elem_of_here|].
  destruct (IH (on_entry st e)) as [Hu' Hl'];
    [intros e' He'; apply Hmiss, elem_of_cons; auto|].
  split; auto.
Qed.

(** A batch in which no target comes twice loads [i] if one of its entries
    reports it, and leaves it alone otherwise. *)
Lemma imageObserver_untouched batch : forall st,
  NoDup (target <$> batch) ->
  untouched i img st ->
  if existsb (hits i) batch
  then loaded i img u (imageObserver batch st)
  else untouched i img (imageObserver batch st).
Proof.
  induction batch as [|e batch IH]; intros st Hnodup Hst; [exact Hst|].
  cbn [fmap list_fmap] in Hnodup. apply NoDup_cons in Hnodup as [Hfresh Hnodup].
  cbn [existsb]. change (imageObserver (e :: batch) st)
    with (imageObserver batch (on_entry st e)).
  destruct (hits i e) eqn:Hhit; cbn [orb].
  - apply imageObserver_elsewhere; [|apply on_entry_hit; assumption].
    unfold hits in Hhit. apply andb_true_iff in Hhit as [_ Htarget].
    apply bool_decide_eq_true in Htarget.
    intros e' He'. unfold hits.
    rewrite bool_decide_eq_false_2, andb_false_r; [reflexivity|].
    intros Heq. apply Hfresh. rewrite Htarget, <- Heq.
    apply list_elem_of_fmap_2. exact He'.
  - apply IH; [exact Hnodup|].
    apply on_entry_elsewhere; assumption.
Qed.

Lemma reported_cons batch batches :
  reported i (batch :: batches) = existsb (hits i) batch || reported i batches.
Proof. reflexivity. Qed.

(** Over a whole run of deliverable batches. *)
Lemma deliver_image batches : forall st,
  deliverable_run st batches ->
  (untouched i img st ->
   if reported i batches
   then loaded i img u (deliver batches st)
   else untouched i img (deliver batches st))
  ∧ (loaded i img u st -> loaded i img u (deliver batches st)).
Proof.
  induction batches as [|batch batches IH]; intros st Hrun; [split; auto|].
  destruct Hrun as [[Hnodup Hwatched] Hrun].
  change (deliver (batch :: batches) st)
    with (deliver batches (imageObserver batch st)).
  destruct (IH _ Hrun) as [IHu IHl]. split.
  - intros Hst. rewrite reported_cons.
    pose proof (imageObserver_untouched batch st Hnodup Hst) as Hbatch.
    destruct (existsb (hits i) batch); cbn [orb]; [apply IHl|apply IHu]; exact Hbatch.
  - intros Hst. apply IHl. apply imageObserver_elsewhere; [|exact Hst].
    intros e He. unfold hits.
    rewrite bool_decide_eq_false_2, andb_false_r; [reflexivity|].
    intros Heq. destruct Hst as (_ & Hgone & _). apply Hgone.
    rewrite <- Heq. rewrite Forall_forall in Hwatched.
    apply Hwatched. exact He.
Qed.

Lemma init_untouched imgs :
  lazyImages imgs !! i = Some img -> untouched i img (init true imgs).
Proof.
  intros Hi. unfold init.
  assert (Hlen : (i < length (lazyImages imgs))%nat)
    by (eapply lookup_lt_Some; exact Hi).
  rewrite bool_decide_eq_true_2 by lia. cbn.
  unfold untouched, writes_to. cbn. split; [|split].
  - rewrite list_lookup_fmap, Hi. reflexivity.
  - apply elem_of_seq. lia.
  - reflexivity.
Qed.
End LazyImagesFacts.

(** With intersection observation available, take any image of
    [lazyImages] and any run of batches in which the entries are for watched
    targets only and no target comes twice in a batch.  As long as no entry
    has reported the image as intersecting, it is as the markup gave it
    (same [src], [data-src] still there), still watched, and nothing was
    assigned to its [src].  Once an entry has reported it, its [src] is the
    former [data-src], [data-src] is gone, it is no longer watched, and
    exactly one assignment to its [src] was made, however many batches
    follow. *)
Lemma deliver_settles_image
    (imgs : list Dom.element) (batches : list (list LazyImages.entry))
    (i : nat) (img : Dom.element) :
  LazyImages.lazyImages imgs !! i = Some img ->
  LazyImages.deliverable_run (LazyImages.init true imgs) batches ->
  let st := LazyImages.deliver batches (LazyImages.init true imgs) in
  exists u,
    Dom.getAttribute "data-src" img = Some u
    ∧ if LazyImages.reported i batches
      then LazyImages.src_of st i = Some u
           ∧ LazyImages.data_src_of st i = None
           ∧ (i ∉ LazyImages.observed st)
           ∧ LazyImages.writes_to i st = [u]
      else LazyImages.src_of st i = Dom.getAttribute "src" img
           ∧ LazyImages.data_src_of st i = Some u
           ∧ i ∈ LazyImages.observed st
           ∧ LazyImages.writes_to i st = [].
Proof.
  intros Hi Hrun st.
  assert (Hmarked : is_Some (Dom.getAttribute "data-src" img)).
  { apply list_elem_of_lookup_2 in Hi. unfold LazyImages.lazyImages in Hi.
    apply list_elem_of_filter in Hi. tauto. }
  destruct Hmarked as [u Hu]. exists u. split; [exact Hu|].
  destruct (deliver_image i img u Hu batches _ Hrun) as [Hfrom _].
  specialize (Hfrom (init_untouched i img imgs Hi)). fold st in Hfrom.
  unfold LazyImages.src_of, LazyImages.data_src_of.
  destruct (LazyImages.reported i batches).
  - destruct Hfrom as (-> & Hgone & Hw). cbn.
    unfold Dom.getAttribute, LazyImages.load, LazyImages.dataset_src. cbn.
    unfold Dom.getAttribute in Hu. rewrite Hu. cbn.
    rewrite lookup_delete_ne by discriminate.
    rewrite lookup_insert_eq, lookup_delete_eq. auto.
  - destruct Hfrom as (-> & Hobs & Hw). cbn. auto.
Qed.

(** C9.  The loader does not keep to one assignment.  The observer is
    created with a margin of 100px and queues an entry whenever a watched
    image crosses it; the callback gets every entry queued since it last
    ran.  Take a page with one lazy image whose [data-src] is [u], seen 80px
    from the viewport, then 300px, then 40px, before the callback runs: the
    three entries (intersecting, not, intersecting) are all for a target
    that was watched when they were queued.  The first entry assigns [u],
    removes [data-src] and unobserves the image; the third finds
    [img.dataset.src] undefined and assigns that: two assignments, and the
    image is left with the source ["undefined"]. *)
Theorem lazy_image_reassigned_within_batch (u : string) :
  let imgs := [Samples.lazy_img u] in
  let st0 := LazyImages.init true imgs in
  let batch := LazyGeometry.entries_of (LazyGeometry.back_and_forth 0) in
  let st := LazyImages.imageObserver batch st0 in
  LazyImages.lazyImages imgs = imgs
  ∧ Forall (fun e => LazyImages.target e ∈ LazyImages.observed st0) batch
  ∧ LazyImages.isIntersecting <$> batch = [true; false; true]
  ∧ LazyImages.writes_to 0 st = [u; "undefined"]
  ∧ LazyImages.src_of st 0 = Some "undefined"
  ∧ LazyImages.data_src_of st 0 = None
  ∧ LazyImages.observed st = [].
Proof.
  cbv zeta. split; [reflexivity|]. split.
  - repeat constructor.
  - split; [reflexivity|]. split; [reflexivity|]. split; [reflexivity|].
    split; reflexivity.
Qed.

(** ** The DOMContentLoaded handler *)

Section PageFacts.
Import Page.
Variable h : host.
Variable d : document.

Lemma same_outside_loop_refl w : same_outside_loop w w.
Proof. repeat split. Qed.

Lemma same_outside_loop_trans w1 w2 w3 :
  same_outside_loop w1 w2 -> same_outside_loop w2 w3 -> same_outside_loop w1 w3.
Proof.
  unfold same_outside_loop.
  intros (? & ? & ? & ? & ? & ? & ?) (? & ? & ? & ? & ? & ? & ?).
  repeat split; congruence.
Qed.

Lemma keeps_call c : keeps_outside_loop (call h c).
Proof.
  intros w w' r. unfold call, throw. destruct (faults h c); cbn;
    intros [= <- _]; apply same_outside_loop_refl.
Qed.

Lemma keeps_modify f :
  (forall w, same_outside_loop w (f w)) -> keeps_outside_loop (modify f).
Proof. intros Hf w w' r [= <- _]. apply Hf. Qed.

Lemma keeps_seq (m k : js world unit) :
  keeps_outside_loop m -> keeps_outside_loop k -> keeps_outside_loop (m;; k).
Proof.
  intros Hm Hk w w' r. unfold mbind, js_mbind, js_bind.
  destruct (m w) as [w1 [[]|e]] eqn:Hmw.
  - intros Hkw. eapply same_outside_loop_trans; [eapply Hm|eapply Hk]; eassumption.
  - intros [= <- _]. eapply Hm. eassumption.
Qed.

Lemma keeps_setup : keeps_outside_loop (setup h).
Proof.
  unfold setup, updateCanvasSize, first_animate.
  repeat (apply keeps_seq; [|]);
    try apply keeps_call;
    apply keeps_modify; intros w; unfold listen, set_loop;
    try destruct (loop w); repeat split.
Qed.

End PageFacts.

(** C7.  Suppose the components before the particle field were wired
    without an exception, the canvas exists, the rendering library is loaded
    and motion is not reduced, and the setup of the particle field throws
    [e] at whatever point.  Then the handler as a whole returns normally;
    the console got the warning carrying [e] followed by the final log line;
    the canvas has [display: none]; the lazy loader, the anchor listeners
    and the keydown listener were set up after the failure; and the
    components wired before it are as they were. *)
Theorem particle_setup_failure_is_contained
    (h : Page.host) (d : Page.document) (w0 w1 w2 : Page.world)
    (c : Dom.element) (e : exn) :
  Page.before_particles h d w0 = (w1, Ret tt) ->
  Page.canvas w1 = Some c ->
  Page.has_THREE h = true ->
  Page.prefersReducedMotion h = false ->
  Page.setup h w1 = (w2, Thrown e) ->
  exists w',
    Page.DOMContentLoaded h d w0 = (w', Ret tt)
    ∧ Page.console w'
      = (Page.console w1
         ++ [Page.Warn "Three.js animation failed to initialize:" e;
             Page.Log "✨ Portfolio initialized successfully!"])%list
    ∧ Page.canvas w' = Some (Dom.setStyle "display" "none" c)
    ∧ Page.lazy w'
      = Some (LazyImages.init (Page.has_IntersectionObserver h) (Page.imgs d))
    ∧ Page.anchor_listeners w' = Page.anchors d
    ∧ Sidebar.listeners (Page.page w')
      = (Sidebar.listeners (Page.page w1) ++ [Sidebar.OnKeydown])%list
    ∧ Page.typing w' = Page.typing w1
    ∧ Page.observed_sections w' = Page.observed_sections w1.
Proof.
  intros Hbefore Hcanvas Hthree Hmotion Hsetup.
  destruct (keeps_setup h w1 w2 _ Hsetup)
    as (Hpage & Hsections & Htyping & Hcanvas2 & Hlazy & Hanchors & Hconsole).
  eexists. split.
  - unfold Page.DOMContentLoaded, mbind, js_mbind, js_bind.
    rewrite Hbefore. unfold Page.init_particles.
    rewrite Hcanvas, Hthree, Hmotion.
    rewrite bool_decide_eq_true_2 by (eexists; reflexivity).
    cbn [andb negb]. unfold try_catch. rewrite Hsetup.
    reflexivity.
  - cbn. rewrite Hconsole, Hcanvas2, Hcanvas, Hpage, Htyping, Hsections.
    rewrite <- app_assoc. repeat split.
Qed.

Lemma particle_setup_failure_is_contained_witness :
  exists w',
    Page.DOMContentLoaded Samples.no_webgl Samples.portfolio Samples.blank
    = (w', Ret tt)
    ∧ Page.console w'
      = (Page.console
           (Page.before_particles Samples.no_webgl Samples.portfolio
              Samples.blank).1
         ++ [Page.Warn "Three.js animation failed to initialize:"
               (HostError "Error creating WebGL context");
             Page.Log "✨ Portfolio initialized successfully!"])%list
    ∧ Page.canvas w'
      = Some (Dom.setStyle "display" "none" (Samples.plain []))
    ∧ Page.lazy w'
      = Some (LazyImages.init
                (Page.has_IntersectionObserver Samples.no_webgl)
                (Page.imgs Samples.portfolio))
    ∧ Page.anchor_listeners w' = Page.anchors Samples.portfolio
    ∧ Sidebar.listeners (Page.page w')
      = (Sidebar.listeners
           (Page.page
              (Page.before_particles Samples.no_webgl Samples.portfolio
                 Samples.blank).1)
         ++ [Sidebar.OnKeydown])%list
    ∧ Page.typing w'
      = Page.typing
          (Page.before_particles Samples.no_webgl Samples.portfolio
             Samples.blank).1
    ∧ Page.observed_sections w'
      = Page.observed_sections
          (Page.before_particles Samples.no_webgl Samples.portfolio
             Samples.blank).1.
Proof.
  apply (particle_setup_failure_is_contained
           Samples.no_webgl Samples.portfolio Samples.blank
           (Page.before_particles Samples.no_webgl Samples.portfolio
              Samples.blank).1
           (Page.before_particles Samples.no_webgl Samples.portfolio
              Samples.blank).1
           (Samples.plain [])
           (HostError "Error creating WebGL context")).
  - vm_compute. reflexivity.
  - vm_compute. reflexivity.
  - reflexivity.
  - reflexivity.
  - vm_compute. reflexivity.
Defined.

(** * Further properties *)

(** ** The timer loop *)

Section LoopFacts.
Import Timers.
Context {A S : Type}.
Variable get : S -> host A.
Variable set : host A -> S -> S.
Variable run : A -> S -> S.
Variable P : S -> Prop.
Hypothesis P_clock : forall s, P s -> P (set (elapse (get s)) s).
Hypothesis P_fire : forall s t,
  P s -> next_due (get s) = Some t ->
  P (run (payload t) (set (take t (get s)) s)).

Lemma fire_due_invariant fuel : forall s, P s -> P (fire_due get set run fuel s).
Proof.
  induction fuel as [|fuel IH]; intros s Hs; [exact Hs|].
  cbn. destruct (next_due (get s)) as [t|] eqn:Hdue; [|exact Hs].
  apply IH, P_fire; assumption.
Qed.

Lemma ticks_invariant n : forall s, P s -> P (ticks get set run n s).
Proof.
  induction n as [|n IH]; intros s Hs; [exact Hs|].
  cbn. apply IH. unfold tick, settle. apply fire_due_invariant, P_clock, Hs.
Qed.

(** A property kept by the passing of a millisecond and by the run of a due
    callback is kept by the loop. *)
Lemma advance_invariant n s : P s -> P (advance get set run n s).
Proof.
  intros Hs. unfold advance, settle.
  apply ticks_invariant, fire_due_invariant, Hs.
Qed.
End LoopFacts.

(** ** Debounce over arbitrary call sequences *)

Section DebounceTraceFacts.
Import Timers Debounce DebounceTrace.
Context {Args : Type}.
Variable wait : nat.

Lemma settle_armed_with_early k nid t d f (a : Args) log :
  (t < d)%nat ->
  settle timers set_timers later (armed_with k nid t d f a log)
  = armed_with k nid t d f a log.
Proof.
  intros Hlt. unfold settle, armed_with. cbn.
  unfold next_due, is_due. cbn.
  rewrite bool_decide_eq_false_2 by lia. reflexivity.
Qed.

Lemma settle_armed_with_due k nid t d f (a : Args) log :
  (d ≤ t)%nat ->
  settle timers set_timers later (armed_with k nid t d f a log)
  = idle (Some k) nid t (S f) (log ++ [(t, a)]).
Proof.
  intros Hle. unfold settle, armed_with. cbn.
  unfold next_due, is_due. cbn.
  rewrite bool_decide_eq_true_2 by lia. cbn.
  unfold later, take, set_timers, idle. cbn.
  rewrite !decide_False by (intros Hn; apply Hn; reflexivity).
  reflexivity.
Qed.

Lemma tick_armed_with k nid t d f (a : Args) log :
  tick timers set_timers later (armed_with k nid t d f a log)
  = if bool_decide (S t < d)%nat
    then armed_with k nid (S t) d f a log
    else idle (Some k) nid (S t) (S f) (log ++ [(S t, a)]).
Proof.
  unfold tick.
  change (set_timers (elapse (timers (armed_with k nid t d f a log)))
            (armed_with k nid t d f a log))
    with (armed_with k nid (S t) d f a log).
  case_bool_decide.
  - apply settle_armed_with_early; lia.
  - apply settle_armed_with_due; lia.
Qed.

Lemma ticks_armed_with_early n k nid t d f (a : Args) log :
  (n + t < d)%nat ->
  ticks timers set_timers later n (armed_with k nid t d f a log)
  = armed_with k nid (n + t) d f a log.
Proof.
  revert t. induction n as [|n IH]; intros t Hlt; [reflexivity|].
  cbn [ticks]. rewrite tick_armed_with, bool_decide_eq_true_2 by lia.
  rewrite IH by lia. replace (n + S t)%nat with (S n + t)%nat by lia.
  reflexivity.
Qed.

Lemma ticks_armed_with_due n k nid t d f (a : Args) log :
  (t < d)%nat -> (d ≤ n + t)%nat ->
  ticks timers set_timers later n (armed_with k nid t d f a log)
  = idle (Some k) nid (n + t) (S f) (log ++ [(d, a)]).
Proof.
  revert t. induction n as [|n IH]; intros t Hlt Hle; [lia|].
  cbn [ticks]. rewrite tick_armed_with. case_bool_decide.
  - rewrite IH by lia. replace (n + S t)%nat with (S n + t)%nat by lia.
    reflexivity.
  - rewrite ticks_idle. assert (d = S t) as -> by lia.
    replace (n + S t)%nat with (S n + t)%nat by lia. reflexivity.
Qed.

Lemma advance_armed_with_early n k nid t d f (a : Args) log :
  (n + t < d)%nat ->
  advance (Args := Args) n (armed_with k nid t d f a log)
  = armed_with k nid (n + t) d f a log.
Proof.
  intros Hlt. unfold advance, Timers.advance.
  rewrite settle_armed_with_early by lia. apply ticks_armed_with_early; lia.
Qed.

Lemma advance_armed_with_due n k nid t d f (a : Args) log :
  (t ≤ d)%nat -> (d ≤ n + t)%nat ->
  advance (Args := Args) n (armed_with k nid t d f a log)
  = idle (Some k) nid (n + t) (S f) (log ++ [(d, a)]).
Proof.
  intros Hle Hge. unfold advance, Timers.advance.
  destruct (decide (t < d)%nat) as [Hlt|Hnlt].
  - rewrite settle_armed_with_early by lia. apply ticks_armed_with_due; lia.
  - rewrite settle_armed_with_due by lia. rewrite ticks_idle.
    assert (d = t) as -> by lia. reflexivity.
Qed.

Lemma executedFunction_armed_with k nid t d f (a a' : Args) log :
  executedFunction wait a' (armed_with k nid t d f a log)
  = armed_with nid (S nid) t (t + delay_of wait) f a' log.
Proof.
  unfold executedFunction, armed_with. cbn.
  rewrite decide_False by (intros Hn; apply Hn; reflexivity).
  reflexivity.
Qed.

Lemma executedFunction_idle k nid t f (a : Args) log :
  executedFunction wait a (idle k nid t f log)
  = armed_with nid (S nid) t (t + delay_of wait) f a log.
Proof. unfold executedFunction, idle, armed_with. destruct k; reflexivity. Qed.

Lemma burst_armed_with (cs : list (nat * Args)) (T : nat) :
  forall k nid t f (a : Args) log,
    (Z.of_nat wait ≤ max_delay)%Z ->
    Forall (fun c => c.1 ≠ wait) cs ->
    (wait ≤ T)%nat ->
    calls (advance T (burst wait cs (armed_with k nid t (t + wait) f a log)))
    = (log ++ fired_after wait t a cs)%list.
Proof.
  induction cs as [|[g a'] cs IH]; intros k nid t f a log Hfits Hties HT.
  - cbn [burst fired_after]. rewrite advance_armed_with_due by lia. reflexivity.
  - inversion Hties as [|? ? Hg Hrest]; subst. cbn in Hg.
    cbn [burst fired_after]. case_bool_decide as Hlate.
    + rewrite advance_armed_with_due by lia.
      rewrite executedFunction_idle, (delay_of_fits wait Hfits).
      rewrite IH by assumption. rewrite <- app_assoc. reflexivity.
    + rewrite advance_armed_with_early by lia.
      rewrite executedFunction_armed_with, (delay_of_fits wait Hfits).
      rewrite IH by assumption. reflexivity.
Qed.
End DebounceTraceFacts.

(** X1.  For a wait the host's timers can hold (at most 2^31 - 1 ms) and any
    sequence of at least one call of the debounced wrapper in which no call
    comes exactly [wait] after the one before, and once [wait] milliseconds
    have passed since the last call, [func] has been called exactly for the
    wrapper calls that were not followed by another one within [wait]: each
    such call [wait] after it was made, with its arguments, in order. *)
Theorem debounce_fires_calls_left_alone {Args : Type} (wait g0 : nat)
    (a0 : Args) (cs : list (nat * Args)) (T : nat) :
  (Z.of_nat wait ≤ Timers.max_delay)%Z ->
  Forall (fun c => c.1 ≠ wait) cs ->
  (wait ≤ T)%nat ->
  Debounce.calls
    (Debounce.advance T (Debounce.burst wait ((g0, a0) :: cs) Debounce.fresh))
  = DebounceTrace.fired_after wait g0 a0 cs.
Proof.
  intros Hfits Hties HT. cbn [Debounce.burst].
  change Debounce.fresh with (Debounce.idle (Args := Args) None 1 0 0 []).
  rewrite advance_idle, executedFunction_idle, (delay_of_fits wait Hfits).
  replace (g0 + 0)%nat with g0 by lia.
  rewrite burst_armed_with by assumption. reflexivity.
Qed.

Lemma debounce_fires_calls_left_alone_witness :
  (Z.of_nat 250 ≤ Timers.max_delay)%Z
  ∧ Forall (fun c : nat * string => c.1 ≠ 250%nat)
         [(100, "b"); (300, "c"); (10, "d")]%nat
  ∧ (250 ≤ 250)%nat
  ∧ Debounce.calls
      (Debounce.advance 250
         (Debounce.burst 250 [(5, "a"); (100, "b"); (300, "c"); (10, "d")]%nat
            Debounce.fresh))
    = DebounceTrace.fired_after 250 5 "a" [(100, "b"); (300, "c"); (10, "d")]%nat.
Proof.
  assert (Hties : Forall (fun c : nat * string => c.1 ≠ 250%nat)
                         [(100, "b"); (300, "c"); (10, "d")]%nat)
    by (repeat constructor; cbn; lia).
  assert (HT : (250 ≤ 250)%nat) by lia.
  assert (Hfits : (Z.of_nat 250 ≤ Timers.max_delay)%Z)
    by (unfold Timers.max_delay; lia).
  split; [exact Hfits|]. split; [exact Hties|]. split; [exact HT|].
  exact (debounce_fires_calls_left_alone 250 5 "a"
           [(100, "b"); (300, "c"); (10, "d")]%nat 250 Hfits Hties HT).
Defined.

Section DebounceBounded.
Import Timers Debounce DebounceTrace.
Context {Args : Type}.
Variable wait : nat.

Lemma bounded_fresh : bounded (Args := Args) [] fresh.
Proof. left. split; [reflexivity|apply sublist_nil_l]. Qed.

Lemma bounded_advance (made : list Args) n c :
  bounded made c -> bounded made (advance n c).
Proof.
  apply (advance_invariant timers set_timers later (bounded made)).
  - intros s Hs. exact Hs.
  - intros s t Hs Hdue. unfold next_due in Hdue.
    apply List.find_some in Hdue as [Hin _].
    destruct Hs as [[Hnone _]|(t' & made' & Hone & Hid & -> & Hsub)].
    + rewrite Hnone in Hin. destruct Hin.
    + rewrite Hone in Hin. destruct Hin as [<-|[]].
      left. unfold later, take, set_timers. cbn. rewrite Hone, Hid. cbn.
      rewrite !decide_False by (intros Hn; apply Hn; reflexivity). cbn.
      split; [reflexivity|].
      rewrite fmap_app. cbn. apply sublist_app; [exact Hsub|reflexivity].
Qed.

Lemma bounded_executedFunction (made : list Args) a c :
  bounded made c -> bounded (made ++ [a]) (executedFunction wait a c).
Proof.
  intros Hc.
  assert (Hclear : pending (clearTimeout (timeout c) (timers c)) = []).
  { destruct Hc as [[Hnone _]|(t & made' & Hone & Hid & _)].
    - destruct (timeout c); cbn; rewrite ?Hnone; reflexivity.
    - rewrite Hid. cbn. rewrite Hone. cbn.
      rewrite decide_False by (intros Hn; apply Hn; reflexivity). reflexivity. }
  assert (Hsub : (snd <$> calls c) `sublist_of` made).
  { destruct Hc as [[_ Hsub]|(t & made' & _ & _ & -> & Hsub)];
      [exact Hsub|apply sublist_inserts_r, Hsub]. }
  right.
  exists (Timer (next_id (clearTimeout (timeout c) (timers c)))
            (now (clearTimeout (timeout c) (timers c)) + delay_of wait) a),
    made.
  unfold executedFunction, setTimeout. cbn. rewrite Hclear. cbn.
  repeat split. exact Hsub.
Qed.

Lemma bounded_burst (cs : list (nat * Args)) : forall made c,
  bounded made c -> bounded (made ++ (snd <$> cs)) (burst wait cs c).
Proof.
  induction cs as [|[g a] cs IH]; intros made c Hc.
  - cbn. rewrite app_nil_r. exact Hc.
  - cbn [burst fmap list_fmap snd].
    replace (made ++ a :: (snd <$> cs))%list
      with ((made ++ [a]) ++ (snd <$> cs))%list
      by (rewrite <- app_assoc; reflexivity).
    apply IH, bounded_executedFunction, bounded_advance, Hc.
Qed.
End DebounceBounded.

(** X2.  Whatever the sequence of calls of the debounced wrapper and
    whenever one looks, at most one timer is pending, and the calls of
    [func] made so far carry arguments of wrapper calls, in the order of
    those calls and none of them twice; so [func] was never called more
    often than the wrapper. *)
Theorem debounce_keeps_one_timer {Args : Type} (wait : nat)
    (cs : list (nat * Args)) (T : nat) :
  let c := Debounce.advance T (Debounce.burst wait cs Debounce.fresh) in
  (length (Timers.pending (Debounce.timers c)) ≤ 1)%nat
  ∧ (snd <$> Debounce.calls c) `sublist_of` (snd <$> cs)
  ∧ (length (Debounce.calls c) ≤ length cs)%nat.
Proof.
  intros c.
  assert (Hc : DebounceTrace.bounded (snd <$> cs) c).
  { apply bounded_advance.
    apply (bounded_burst wait cs [] Debounce.fresh), bounded_fresh. }
  destruct Hc as [[Hnone Hsub]|(t & made' & Hone & _ & Hmade & Hsub)].
  - rewrite Hnone. split; [cbn; lia|]. split; [exact Hsub|].
    apply sublist_length in Hsub. rewrite !length_fmap in Hsub. exact Hsub.
  - rewrite Hone. split; [cbn; lia|].
    assert (Hall : (snd <$> Debounce.calls c) `sublist_of` (snd <$> cs))
      by (rewrite Hmade; apply sublist_inserts_r, Hsub).
    split; [exact Hall|].
    apply sublist_length in Hall. rewrite !length_fmap in Hall. exact Hall.
Qed.

(** ** Sidebar controller over event sequences *)

Section SidebarEventsFacts.
Import Dom Sidebar SidebarEvents.

Lemma wired_full hb sb ov bd fo :
  wired hb sb ov bd fo = Page (Some hb) (Some sb) (Some ov) bd all_listeners fo.
Proof. reflexivity. Qed.

Lemma toggleSidebar_full b hb sb ov bd fo :
  toggleSidebar (Some b) (Page (Some hb) (Some sb) (Some ov) bd all_listeners fo)
  = (toggled b hb sb ov bd fo, Ret tt).
Proof. reflexivity. Qed.

Lemma toggleSidebar_flip_full hb sb ov bd fo :
  toggleSidebar None (Page (Some hb) (Some sb) (Some ov) bd all_listeners fo)
  = (toggled (negb (contains "show" sb)) hb sb ov bd fo, Ret tt).
Proof. reflexivity. Qed.

Lemma toggled_agree b hb sb ov bd fo :
  agree b (toggled b hb sb ov bd fo) ∧ isVisible (toggled b hb sb ov bd fo) = b.
Proof.
  unfold agree, markers, aria_expanded, isVisible, toggled. cbn.
  change (contains "active" (setAttribute ?n ?v ?el)) with (contains "active" el).
  rewrite !contains_toggle, lookup_insert_eq. auto.
Qed.

(** What each event does to a page with the three elements. *)
Lemma dispatch_full ev hb sb ov bd fo :
  dispatch ev (Page (Some hb) (Some sb) (Some ov) bd all_listeners fo)
  = (match ev with
     | ClickHamburger => toggled (negb (contains "show" sb)) hb sb ov bd fo
     | ClickOverlay => toggled false hb sb ov bd fo
     | ClickSidebarLink =>
         if contains "show" sb then toggled false hb sb ov bd fo
         else Page (Some hb) (Some sb) (Some ov) bd all_listeners fo
     | Keydown key =>
         if bool_decide (key = "Escape") && contains "show" sb
         then set_focus (toggled false hb sb ov bd fo)
         else Page (Some hb) (Some sb) (Some ov) bd all_listeners fo
     end, Ret tt).
Proof.
  destruct ev as [| | |key]; unfold dispatch, handler; cbn [listeners].
  - reflexivity.
  - reflexivity.
  - change (bool_decide (OnSidebarLinkClick ∈ all_listeners)) with true.
    cbv iota. unfold on_link_click, mbind, js_mbind, js_bind, deref, js_ret.
    cbn [sidebar]. destruct (contains "show" sb); reflexivity.
  - change (bool_decide (OnKeydown ∈ all_listeners)) with true.
    cbv iota. unfold on_keydown. case_bool_decide; [|reflexivity].
    unfold mbind, js_mbind, js_bind, deref, js_ret. cbn [sidebar andb].
    destruct (contains "show" sb); reflexivity.
Qed.

Lemma run_events_full evs : forall hb sb ov bd fo,
  let p := Page (Some hb) (Some sb) (Some ov) bd all_listeners fo in
  exists hb' sb' ov' bd' fo',
    run_events evs p
    = (Page (Some hb') (Some sb') (Some ov') bd' all_listeners fo', [])
    ∧ contains "show" sb' = foldl next_visible (contains "show" sb) evs
    ∧ (Page (Some hb') (Some sb') (Some ov') bd' all_listeners fo' = p
       ∨ agree (contains "show" sb')
           (Page (Some hb') (Some sb') (Some ov') bd' all_listeners fo')).
Proof.
  induction evs as [|ev evs IH]; intros hb sb ov bd fo p; subst p.
  - exists hb, sb, ov, bd, fo. cbn. auto.
  - cbn [run_events foldl]. rewrite dispatch_full.
    assert (Hstep :
      exists hb1 sb1 ov1 bd1 fo1,
        (match ev with
         | ClickHamburger => toggled (negb (contains "show" sb)) hb sb ov bd fo
         | ClickOverlay => toggled false hb sb ov bd fo
         | ClickSidebarLink =>
             if contains "show" sb then toggled false hb sb ov bd fo
             else Page (Some hb) (Some sb) (Some ov) bd all_listeners fo
         | Keydown key =>
             if bool_decide (key = "Escape") && contains "show" sb
             then set_focus (toggled false hb sb ov bd fo)
             else Page (Some hb) (Some sb) (Some ov) bd all_listeners fo
         end)
        = Page (Some hb1) (Some sb1) (Some ov1) bd1 all_listeners fo1
        ∧ contains "show" sb1 = next_visible (contains "show" sb) ev
        ∧ (Page (Some hb1) (Some sb1) (Some ov1) bd1 all_listeners fo1
           = Page (Some hb) (Some sb) (Some ov) bd all_listeners fo
           ∨ agree (contains "show" sb1)
               (Page (Some hb1) (Some sb1) (Some ov1) bd1 all_listeners fo1))).
    { pose proof (fun b => toggled_agree b hb sb ov bd fo) as Hagree.
      destruct ev as [| | |key]; cbn [next_visible].
      - eexists _, _, _, _, _. split; [reflexivity|].
        rewrite contains_toggle. split; [reflexivity|]. right.
        apply (Hagree (negb (contains "show" sb))).
      - eexists _, _, _, _, _. split; [reflexivity|].
        rewrite contains_toggle. split; [reflexivity|]. right.
        apply (Hagree false).
      - destruct (contains "show" sb) eqn:Hvis.
        + eexists _, _, _, _, _. split; [reflexivity|].
          rewrite contains_toggle. split; [reflexivity|]. right.
          apply (Hagree false).
        + exists hb, sb, ov, bd, fo. auto.
      - case_bool_decide; cbn [andb].
        + destruct (contains "show" sb) eqn:Hvis.
          * eexists _, _, _, _, _. split; [reflexivity|].
            rewrite contains_toggle. split; [reflexivity|]. right.
            apply (Hagree false).
          * exists hb, sb, ov, bd, fo. auto.
        + exists hb, sb, ov, bd, fo. auto. }
    destruct Hstep as (hb1 & sb1 & ov1 & bd1 & fo1 & -> & Hvis1 & Hsame1).
    destruct (IH hb1 sb1 ov1 bd1 fo1)
      as (hb' & sb' & ov' & bd' & fo' & -> & Hvis & Hsame).
    exists hb', sb', ov', bd', fo'. split; [reflexivity|].
    split; [rewrite Hvis, Hvis1; reflexivity|].
    destruct Hsame as [Heq|Hagree]; [|right; exact Hagree].
    destruct Hsame1 as [Heq1|Hagree1]; [left; congruence|].
    right. injection Heq as -> -> -> -> ->. exact Hagree1.
Qed.
End SidebarEventsFacts.

(** X3.  On a page with the three elements, whatever events arrive once the
    listeners are attached (clicks on hamburger, overlay and sidebar links,
    key presses): no listener throws; the sidebar is visible exactly as a
    two-state machine says (a hamburger click flips, an overlay click, a
    link click and Escape hide, any other key changes nothing); and the
    page is either untouched or has its five markers (the classes on
    hamburger, panel, overlay and body, and [aria-expanded]) all agreeing
    with that state. *)
Theorem sidebar_events_keep_markers_together
    (hb sb ov bd : Dom.element) (fo : bool) (evs : list Sidebar.event) :
  let p := SidebarEvents.wired hb sb ov bd fo in
  let r := SidebarEvents.run_events evs p in
  r.2 = []
  ∧ Sidebar.isVisible r.1
    = foldl SidebarEvents.next_visible (Sidebar.isVisible p) evs
  ∧ (r.1 = p ∨ SidebarEvents.agree (Sidebar.isVisible r.1) r.1).
Proof.
  intros p r. subst r p. rewrite wired_full.
  destruct (run_events_full evs hb sb ov bd fo)
    as (hb' & sb' & ov' & bd' & fo' & -> & Hvis & Hsame).
  cbn [fst snd Sidebar.isVisible Sidebar.sidebar]. auto.
Qed.

(** X4.  On a page with the three elements, an event moves the focus to the
    hamburger exactly when it is an Escape key press arriving while the
    sidebar is visible; every other event leaves the focus where it was. *)
Theorem escape_returns_focus_when_visible
    (hb sb ov bd : Dom.element) (fo : bool) (ev : Sidebar.event) :
  let p := SidebarEvents.wired hb sb ov bd fo in
  Sidebar.hamburger_focused (Sidebar.dispatch ev p).1
  = fo || (SidebarEvents.is_escape ev && Sidebar.isVisible p).
Proof.
  intros p. subst p. rewrite wired_full, dispatch_full.
  cbn [fst Sidebar.isVisible Sidebar.sidebar].
  destruct ev as [| | |key]; cbn [SidebarEvents.is_escape andb].
  - cbn. rewrite orb_false_r. reflexivity.
  - cbn. rewrite orb_false_r. reflexivity.
  - destruct (Dom.contains "show" sb); cbn; rewrite orb_false_r; reflexivity.
  - destruct (bool_decide (key = "Escape")), (Dom.contains "show" sb); cbn;
      rewrite ?orb_false_r, ?orb_true_r; reflexivity.
Qed.

(** X5.  Whatever elements exist and whatever listeners are attached, a key
    other than Escape changes nothing and throws nothing; and when the
    panel exists and is hidden, Escape and a click on a sidebar link change
    nothing and throw nothing either, even without hamburger or overlay. *)
Theorem sidebar_idle_events_change_nothing
    (p : Sidebar.page) (sb : Dom.element) (key : string) :
  key ≠ "Escape" ->
  Sidebar.sidebar p = Some sb ->
  Dom.contains "show" sb = false ->
  (forall q, Sidebar.dispatch (Sidebar.Keydown key) q = (q, Ret tt))
  ∧ Sidebar.dispatch (Sidebar.Keydown "Escape") p = (p, Ret tt)
  ∧ Sidebar.dispatch Sidebar.ClickSidebarLink p = (p, Ret tt).
Proof.
  intros Hkey Hsb Hhidden. split; [|split].
  - intros q. unfold Sidebar.dispatch, Sidebar.handler, Sidebar.on_keydown.
    rewrite (bool_decide_eq_false_2 _ Hkey).
    destruct (bool_decide _); reflexivity.
  - unfold Sidebar.dispatch, Sidebar.handler, Sidebar.on_keydown.
    destruct (bool_decide (Sidebar.OnKeydown ∈ _)); [|reflexivity].
    rewrite bool_decide_eq_true_2 by reflexivity.
    unfold mbind, js_mbind, js_bind, deref, js_ret. rewrite Hsb, Hhidden.
    reflexivity.
  - unfold Sidebar.dispatch, Sidebar.handler, Sidebar.on_link_click.
    destruct (bool_decide (Sidebar.OnSidebarLinkClick ∈ _)); [|reflexivity].
    unfold mbind, js_mbind, js_bind, deref, js_ret. rewrite Hsb, Hhidden.
    reflexivity.
Qed.

Lemma sidebar_idle_events_change_nothing_witness :
  let p := Sidebar.Page None (Some (Samples.plain ["sidebar"])) None
             (Samples.plain []) [Sidebar.OnKeydown] false in
  (forall q, Sidebar.dispatch (Sidebar.Keydown "Enter") q = (q, Ret tt))
  ∧ Sidebar.dispatch (Sidebar.Keydown "Escape") p = (p, Ret tt)
  ∧ Sidebar.dispatch Sidebar.ClickSidebarLink p = (p, Ret tt).
Proof.
  intros p.
  apply (sidebar_idle_events_change_nothing p (Samples.plain ["sidebar"]) "Enter").
  - discriminate.
  - reflexivity.
  - vm_compute. reflexivity.
Defined.

(** ** Scroll-spy batches *)

Section ScrollSpyBatchFacts.
Import Dom ScrollSpy ScrollSpyBatch.

Lemma classList_remove_add c el :
  classList_remove c (classList_add c el) = classList_remove c el.
Proof.
  unfold classList_add. destruct (contains c el); [reflexivity|].
  unfold classList_remove, with_classes. cbn. f_equal.
  rewrite filter_app, filter_cons_False, filter_nil, app_nil_r; [reflexivity|].
  intros Hne. apply Hne. reflexivity.
Qed.

Lemma mark_unfold id link :
  mark id link
  = if bool_decide (getAttribute "href" link = Some ("#" +:+ template_string id))
    then classList_add "active" (classList_remove "active" link)
    else classList_remove "active" link.
Proof. reflexivity. Qed.

Lemma href_mark id link :
  getAttribute "href" (mark id link) = getAttribute "href" link.
Proof.
  rewrite mark_unfold. case_bool_decide; [|reflexivity].
  unfold classList_add. destruct (contains _ _); reflexivity.
Qed.

Lemma remove_mark id link :
  classList_remove "active" (mark id link) = classList_remove "active" link.
Proof.
  rewrite mark_unfold. case_bool_decide.
  - rewrite classList_remove_add. apply classList_remove_twice.
  - apply classList_remove_twice.
Qed.

(** Marking for one section wipes out an earlier marking. *)
Lemma mark_mark id1 id2 link : mark id2 (mark id1 link) = mark id2 link.
Proof.
  rewrite (mark_unfold id2 (mark id1 link)), (mark_unfold id2 link).
  rewrite href_mark, remove_mark. reflexivity.
Qed.

Lemma hrefs_same links links' :
  Forall2 same_but_active links links' -> hrefs links' = hrefs links.
Proof.
  induction 1 as [|l l' ls ls' (Hattr & _) _ IH]; [reflexivity|].
  unfold hrefs in *. cbn [omap list_omap].
  assert (getAttribute "href" l' = getAttribute "href" l) as ->
    by (unfold getAttribute; rewrite Hattr; reflexivity).
  rewrite IH. reflexivity.
Qed.

(** With distinct [href]s at most one link is marked. *)
Lemma active_count_mark id links :
  NoDup (hrefs links) -> (active_count (mark id <$> links) ≤ 1)%nat.
Proof.
  unfold active_count.
  assert (Hnone : forall ls,
             "#" +:+ template_string id ∉ hrefs ls ->
             filter (fun link => active link = true) (mark id <$> ls) = []).
  { induction ls as [|l ls IH]; intros Hnot; [reflexivity|].
    cbn [fmap list_fmap]. unfold hrefs in Hnot. cbn in Hnot.
    rewrite filter_cons_False.
    - apply IH. destruct (getAttribute "href" l); [|exact Hnot].
      intros Hin. apply Hnot. apply elem_of_cons. auto.
    - rewrite active_mark. intros Hact. apply bool_decide_eq_true in Hact.
      rewrite Hact in Hnot. apply Hnot. apply list_elem_of_here. }
  induction links as [|l links IH]; intros Hdup; [cbn; lia|].
  cbn [fmap list_fmap]. unfold hrefs in Hdup. cbn in Hdup.
  destruct (decide (active (mark id l) = true)) as [Hact|Hact].
  - rewrite filter_cons_True by exact Hact.
    rewrite active_mark in Hact. apply bool_decide_eq_true in Hact.
    rewrite Hact in Hdup. apply NoDup_cons in Hdup as [Hfresh _].
    rewrite (Hnone links Hfresh). cbn. lia.
  - rewrite filter_cons_False by exact Hact. apply IH.
    destruct (getAttribute "href" l); [|exact Hdup].
    apply NoDup_cons in Hdup as [_ Hdup]. exact Hdup.
Qed.
End ScrollSpyBatchFacts.

(** X6.  A batch of entries has the effect of its last intersecting entry
    alone: the links end up exactly as if only that entry had been
    processed, and a batch without an intersecting entry leaves every link
    exactly as it was. *)
Theorem sectionObserver_last_entry_wins
    (es : list ScrollSpy.entry) (links : list Dom.element) :
  ScrollSpy.sectionObserver es links
  = match ScrollSpyBatch.last_intersecting es with
    | Some e =>
        ScrollSpy.mark (Dom.getAttribute "id" (ScrollSpy.target e)) <$> links
    | None => links
    end.
Proof.
  induction es as [|e es IH] using rev_ind; [reflexivity|].
  rewrite sectionObserver_snoc. unfold ScrollSpyBatch.last_intersecting in *.
  rewrite filter_app. unfold ScrollSpy.on_entry.
  destruct (ScrollSpy.isIntersecting e) eqn:Hint.
  - rewrite filter_cons_True, filter_nil, last_snoc by exact Hint.
    rewrite IH. destruct (last _); [|reflexivity].
    rewrite <- list_fmap_compose. apply list_fmap_ext.
    intros i l _. apply mark_mark.
  - rewrite filter_cons_False, filter_nil, app_nil_r by congruence.
    exact IH.
Qed.

(** X7.  When the links that have an [href] have pairwise different ones,
    at most one link carries [active] after a batch that ends with an
    intersecting entry, however many links were active before. *)
Theorem sectionObserver_marks_at_most_one
    (es : list ScrollSpy.entry) (e : ScrollSpy.entry)
    (links : list Dom.element) :
  NoDup (ScrollSpyBatch.hrefs links) ->
  ScrollSpy.isIntersecting e = true ->
  (ScrollSpyBatch.active_count (ScrollSpy.sectionObserver (es ++ [e]) links)
   ≤ 1)%nat.
Proof.
  intros Hdup Hint. rewrite sectionObserver_snoc.
  unfold ScrollSpy.on_entry. rewrite Hint.
  apply active_count_mark.
  rewrite (hrefs_same links _ (sectionObserver_same es links)). exact Hdup.
Qed.

Lemma sectionObserver_marks_at_most_one_witness :
  (ScrollSpyBatch.active_count
     (ScrollSpy.sectionObserver
        ([ScrollSpy.Entry true (Samples.section_with_id "about")]
         ++ [ScrollSpy.Entry true (Samples.section_with_id "projects")])
        [Samples.anchor "#about" ["active"];
         Samples.anchor "#projects" ["active"];
         Samples.plain ["active"]])
   ≤ 1)%nat.
Proof.
  apply (sectionObserver_marks_at_most_one
           [ScrollSpy.Entry true (Samples.section_with_id "about")]
           (ScrollSpy.Entry true (Samples.section_with_id "projects"))
           [Samples.anchor "#about" ["active"];
            Samples.anchor "#projects" ["active"];
            Samples.plain ["active"]]).
  - apply (bool_decide_unpack _). vm_compute. exact I.
  - reflexivity.
Defined.

(** ** Typing animation over whole phrases *)

Section TypingCycleFacts.
Import Typing TypingCycle.
Variable phrases : list string.

Lemma run_add n m : forall a,
  run false phrases (n + m) a = run false phrases m (run false phrases n a).
Proof.
  induction n as [|n IH]; intros a; [reflexivity|]. cbn. apply IH.
Qed.

Lemma displayed_add n m : forall a,
  displayed false phrases (n + m) a
  = (displayed false phrases n a
     ++ displayed false phrases m (run false phrases n a))%list.
Proof.
  induction n as [|n IH]; intros a; [reflexivity|].
  cbn. rewrite IH. reflexivity.
Qed.

Lemma animateTyping_grow a p c :
  phrases !! phraseIndex a = Some p ->
  isDeleting a = false ->
  charIndex a = Z.of_nat c ->
  let a' := (animateTyping false phrases a).1 in
  phraseIndex a' = phraseIndex a
  ∧ charIndex a' = Z.of_nat (S c)
  ∧ isDeleting a' = bool_decide (S c = String.length p)
  ∧ textContent a' = prefix p (S c).
Proof.
  intros Hp Hdel Hc. unfold animateTyping. rewrite Hp, Hdel, Hc.
  cbn [negb andb].
  assert (Htext : substring0 p (Z.of_nat c + 1) = prefix p (S c)).
  { unfold substring0, prefix. f_equal. lia. }
  destruct (Z.of_nat c + 1 =? Z.of_nat (String.length p))%Z eqn:Hfull; cbn.
  - apply Z.eqb_eq in Hfull.
    rewrite bool_decide_eq_true_2 by lia. repeat split; [lia|exact Htext].
  - apply Z.eqb_neq in Hfull.
    rewrite bool_decide_eq_false_2 by lia. repeat split; [lia|exact Htext].
Qed.

Lemma animateTyping_shrink a p c :
  phrases !! phraseIndex a = Some p ->
  isDeleting a = true ->
  charIndex a = Z.of_nat (S c) ->
  let a' := (animateTyping false phrases a).1 in
  phraseIndex a'
  = (if bool_decide (c = 0)%nat
     then (phraseIndex a + 1) `mod` length phrases else phraseIndex a)
  ∧ charIndex a' = Z.of_nat c
  ∧ isDeleting a' = negb (bool_decide (c = 0)%nat)
  ∧ textContent a' = prefix p c.
Proof.
  intros Hp Hdel Hc. unfold animateTyping. rewrite Hp, Hdel, Hc.
  cbn [negb andb].
  assert (Htext : substring0 p (Z.of_nat (S c) - 1) = prefix p c).
  { unfold substring0, prefix. f_equal. lia. }
  destruct (Z.of_nat (S c) - 1 =? 0)%Z eqn:Hzero; cbn.
  - apply Z.eqb_eq in Hzero.
    rewrite bool_decide_eq_true_2 by lia. repeat split; [lia|exact Htext].
  - apply Z.eqb_neq in Hzero.
    rewrite bool_decide_eq_false_2 by lia. repeat split; [lia|exact Htext].
Qed.

(** Growing from [c] characters to the full phrase. *)
Lemma grow_to_full p m : forall a c,
  phrases !! phraseIndex a = Some p ->
  isDeleting a = false ->
  charIndex a = Z.of_nat c ->
  (c + S m = String.length p)%nat ->
  displayed false phrases (S m) a = prefix p <$> seq (S c) (S m)
  ∧ phraseIndex (run false phrases (S m) a) = phraseIndex a
  ∧ charIndex (run false phrases (S m) a) = Z.of_nat (String.length p)
  ∧ isDeleting (run false phrases (S m) a) = true.
Proof.
  induction m as [|m IH]; intros a c Hp Hdel Hc Hlen;
    destruct (animateTyping_grow a p c Hp Hdel Hc) as (Hi & Hc' & Hd' & Ht').
  - cbn. rewrite Ht', Hi, Hc', Hd'.
    rewrite bool_decide_eq_true_2 by lia.
    repeat split. f_equal. lia.
  - rewrite bool_decide_eq_false_2 in Hd' by lia.
    destruct (IH (animateTyping false phrases a).1 (S c))
      as (Hshown & Hi2 & Hc2 & Hd2); [congruence|exact Hd'|exact Hc'|lia|].
    change (displayed false phrases (S (S m)) a)
      with (textContent (animateTyping false phrases a).1
            :: displayed false phrases (S m) (animateTyping false phrases a).1).
    change (run false phrases (S (S m)) a)
      with (run false phrases (S m) (animateTyping false phrases a).1).
    rewrite Hshown, Ht', Hi2, Hc2, Hd2, Hi. repeat split.
Qed.

(** Shrinking from [S c] characters to none, and on to the next phrase. *)
Lemma shrink_to_empty p c : forall a,
  phrases !! phraseIndex a = Some p ->
  isDeleting a = true ->
  charIndex a = Z.of_nat (S c) ->
  displayed false phrases (S c) a = prefix p <$> rev (seq 0 (S c))
  ∧ at_phrase ((phraseIndex a + 1) `mod` length phrases)
      (run false phrases (S c) a).
Proof.
  induction c as [|c IH]; intros a Hp Hdel Hc;
    destruct (animateTyping_shrink a p _ Hp Hdel Hc) as (Hi & Hc' & Hd' & Ht').
  - cbn. rewrite Ht'. split; [reflexivity|].
    rewrite bool_decide_eq_true_2 in Hi, Hd' by reflexivity.
    split; [exact Hi|]. split; [exact Hc'|exact Hd'].
  - rewrite bool_decide_eq_false_2 in Hi, Hd' by lia.
    destruct (IH (animateTyping false phrases a).1)
      as (Hshown & Hnext); [congruence|exact Hd'|exact Hc'|].
    change (displayed false phrases (S (S c)) a)
      with (textContent (animateTyping false phrases a).1
            :: displayed false phrases (S c) (animateTyping false phrases a).1).
    change (run false phrases (S (S c)) a)
      with (run false phrases (S c) (animateTyping false phrases a).1).
    rewrite Hshown, Ht'. rewrite Hi in Hnext. split; [|exact Hnext].
    rewrite (seq_S (S c) 0), rev_app_distr. reflexivity.
Qed.

(** One phrase, from its start to the start of the next. *)
Lemma phrase_cycle a p :
  phrases !! phraseIndex a = Some p ->
  (0 < String.length p)%nat ->
  charIndex a = 0%Z ->
  isDeleting a = false ->
  displayed false phrases (2 * String.length p) a = cycle_display p
  ∧ at_phrase ((phraseIndex a + 1) `mod` length phrases)
      (run false phrases (2 * String.length p) a).
Proof.
  intros Hp Hlen Hc Hdel.
  destruct (String.length p) as [|m] eqn:Hn; [lia|].
  replace (2 * S m)%nat with (S m + S m)%nat by lia.
  destruct (grow_to_full p m a 0 Hp Hdel) as (Hup & Hi & Hfull & Hd);
    [exact Hc|lia|].
  destruct (shrink_to_empty p m (run false phrases (S m) a))
    as (Hdown & Hnext); [congruence|exact Hd|rewrite Hfull, Hn; reflexivity|].
  rewrite displayed_add, run_add, Hup, Hdown.
  unfold cycle_display. rewrite Hn. rewrite Hi in Hnext. split; [reflexivity|].
  exact Hnext.
Qed.

Hypothesis phrases_nonempty :
  Forall (fun p => (0 < String.length p)%nat) phrases.

(** From the start of phrase [i] through the rest of the list and back to
    the first phrase. *)
Lemma rest_of_pass suffix : forall i a,
  drop i phrases = suffix ->
  suffix ≠ [] ->
  at_phrase i a ->
  displayed false phrases (total_runs suffix) a = mjoin (cycle_display <$> suffix)
  ∧ at_phrase 0 (run false phrases (total_runs suffix) a).
Proof.
  induction suffix as [|p rest IH]; intros i a Hdrop Hne (Hi & Hc & Hd);
    [congruence|].
  assert (Hp : phrases !! i = Some p).
  { rewrite <- (Nat.add_0_r i), <- lookup_drop, Hdrop. reflexivity. }
  assert (Hrest : drop (S i) phrases = rest).
  { replace (S i) with (i + 1)%nat by lia.
    rewrite <- drop_drop, Hdrop. reflexivity. }
  assert (Hlen : (0 < String.length p)%nat).
  { rewrite Forall_forall in phrases_nonempty.
    apply phrases_nonempty. eapply list_elem_of_lookup_2. exact Hp. }
  destruct (phrase_cycle a p) as (Hshown & Hnext);
    [rewrite Hi; exact Hp|exact Hlen|exact Hc|exact Hd|].
  cbn [total_runs foldr fmap list_fmap mjoin list_join].
  rewrite displayed_add, run_add, Hshown. rewrite Hi in Hnext.
  destruct rest as [|q rest'].
  - assert (Hend : length phrases = S i).
    { apply (f_equal length) in Hdrop. rewrite length_drop in Hdrop.
      cbn in Hdrop. apply lookup_lt_Some in Hp. lia. }
    cbn. rewrite app_nil_r. split; [reflexivity|].
    replace ((i + 1) `mod` length phrases) with 0%nat in Hnext; [exact Hnext|].
    rewrite Hend. replace (i + 1)%nat with (S i) by lia.
    symmetry. apply Nat.Div0.mod_same.
  - assert (Hmore : (S i < length phrases)%nat).
    { apply (f_equal length) in Hrest. rewrite length_drop in Hrest.
      cbn in Hrest. lia. }
    replace ((i + 1) `mod` length phrases) with (S i) in Hnext
      by (rewrite Nat.mod_small; lia).
    destruct (IH (S i) (run false phrases (2 * String.length p) a))
      as (Hshown' & Hnext'); [exact Hrest|discriminate|exact Hnext|].
    fold (total_runs (q :: rest')).
    rewrite Hshown'. split; [reflexivity|exact Hnext'].
Qed.

Lemma passes k : forall a,
  phrases ≠ [] ->
  at_phrase 0 a ->
  displayed false phrases (k * total_runs phrases) a
  = mjoin (replicate k (mjoin (cycle_display <$> phrases)))
  ∧ at_phrase 0 (run false phrases (k * total_runs phrases) a).
Proof.
  induction k as [|k IH]; intros a Hne Ha; [split; [reflexivity|exact Ha]|].
  destruct (rest_of_pass phrases 0 a) as (Hshown & Hnext);
    [reflexivity|exact Hne|exact Ha|].
  destruct (IH _ Hne Hnext) as (Hshown' & Hnext').
  cbn [Nat.mul replicate mjoin list_join].
  rewrite displayed_add, run_add, Hshown, Hshown'. split; [reflexivity|].
  exact Hnext'.
Qed.
End TypingCycleFacts.

Lemma typable_nonempty phrases :
  TypingCycle.typable phrases ->
  Forall (fun p => (0 < String.length p)%nat) phrases.
Proof.
  intros Htyp. eapply Forall_impl; [exact Htyp|].
  intros p [_ Hlen]. exact Hlen.
Qed.

Lemma site_phrases_typable : TypingCycle.typable Typing.site_phrases.
Proof. repeat constructor; cbn; lia. Qed.

(** X8.  With motion allowed and a non-empty list of non-empty ASCII
    phrases, the element shows, run after run and for ever, each phrase in
    turn typed out one character at a time to its full length and then
    deleted one character at a time down to the empty string, the first
    phrase following the last; after each pass the animation is back at the
    start of the first phrase. *)
Theorem typing_shows_phrases_in_turn
    (phrases : list string) (text0 : string) (k : nat) :
  phrases ≠ [] ->
  TypingCycle.typable phrases ->
  let n := (k * TypingCycle.total_runs phrases)%nat in
  Typing.displayed false phrases n (Typing.start text0)
  = mjoin (replicate k (mjoin (TypingCycle.cycle_display <$> phrases)))
  ∧ TypingCycle.at_phrase 0 (Typing.run false phrases n (Typing.start text0)).
Proof.
  intros Hne Htyp n. subst n.
  apply passes; [exact (typable_nonempty phrases Htyp)|exact Hne|].
  repeat split.
Qed.

Lemma typing_shows_phrases_in_turn_witness :
  Typing.site_phrases ≠ []
  ∧ TypingCycle.typable Typing.site_phrases
  ∧ let n := (2 * TypingCycle.total_runs Typing.site_phrases)%nat in
    Typing.displayed false Typing.site_phrases n (Typing.start "")
    = mjoin (replicate 2
               (mjoin (TypingCycle.cycle_display <$> Typing.site_phrases)))
    ∧ TypingCycle.at_phrase 0
        (Typing.run false Typing.site_phrases n (Typing.start "")).
Proof.
  assert (Hne : Typing.site_phrases ≠ []) by discriminate.
  split; [exact Hne|]. split; [exact site_phrases_typable|].
  exact (typing_shows_phrases_in_turn Typing.site_phrases "" 2 Hne
           site_phrases_typable).
Defined.

(** X9.  An empty phrase is never left: with motion allowed, once the
    animation stands at an empty phrase and is not deleting, every later run
    displays the empty string, the character count grows by one per run
    without bound, and neither the deleting flag nor the phrase index ever
    changes. *)
Theorem typing_stuck_on_empty_phrase
    (phrases : list string) (a : Typing.animator) (n : nat) :
  phrases !! Typing.phraseIndex a = Some "" ->
  Typing.isDeleting a = false ->
  (0 ≤ Typing.charIndex a)%Z ->
  Typing.displayed false phrases n a = replicate n ""
  ∧ Typing.phraseIndex (Typing.run false phrases n a) = Typing.phraseIndex a
  ∧ Typing.charIndex (Typing.run false phrases n a)
    = (Typing.charIndex a + Z.of_nat n)%Z
  ∧ Typing.isDeleting (Typing.run false phrases n a) = false.
Proof.
  revert a. induction n as [|n IH]; intros a Hp Hdel Hc.
  - cbn. repeat split; [lia|exact Hdel].
  - assert (Hstep :
      let a' := (Typing.animateTyping false phrases a).1 in
      Typing.phraseIndex a' = Typing.phraseIndex a
      ∧ Typing.charIndex a' = (Typing.charIndex a + 1)%Z
      ∧ Typing.isDeleting a' = false
      ∧ Typing.textContent a' = "").
    { unfold Typing.animateTyping. rewrite Hp, Hdel. cbn [negb andb].
      change (Z.of_nat (String.length "")) with 0%Z.
      rewrite (proj2 (Z.eqb_neq _ _)) by lia. cbn.
      repeat split. unfold Typing.substring0.
      destruct (Z.to_nat _); reflexivity. }
    destruct Hstep as (Hi & Hc' & Hd' & Ht').
    destruct (IH (Typing.animateTyping false phrases a).1)
      as (Hshown & Hi2 & Hc2 & Hd2); [congruence|exact Hd'|lia|].
    change (Typing.displayed false phrases (S n) a)
      with (Typing.textContent (Typing.animateTyping false phrases a).1
            :: Typing.displayed false phrases n
                 (Typing.animateTyping false phrases a).1).
    change (Typing.run false phrases (S n) a)
      with (Typing.run false phrases n (Typing.animateTyping false phrases a).1).
    rewrite Hshown, Ht', Hi2, Hc2, Hd2, Hi, Hc'.
    repeat split. lia.
Qed.

Lemma typing_stuck_on_empty_phrase_witness :
  Typing.displayed false [""; "next"] 7 (Typing.start "") = replicate 7 ""
  ∧ Typing.phraseIndex (Typing.run false [""; "next"] 7 (Typing.start ""))
    = Typing.phraseIndex (Typing.start "")
  ∧ Typing.charIndex (Typing.run false [""; "next"] 7 (Typing.start ""))
    = (Typing.charIndex (Typing.start "") + Z.of_nat 7)%Z
  ∧ Typing.isDeleting (Typing.run false [""; "next"] 7 (Typing.start ""))
    = false.
Proof.
  apply (typing_stuck_on_empty_phrase [""; "next"] (Typing.start "") 7).
  - reflexivity.
  - reflexivity.
  - vm_compute. discriminate.
Defined.

(** ** The timer loop between and at its ticks *)

Section LoopPhases.
Import Timers.
Context {A S : Type}.
Variable get : S -> host A.
Variable set : host A -> S -> S.
Variable run : A -> S -> S.
Variable P Q : S -> Prop.
Hypothesis P_settled : forall s, P s -> next_due (get s) = None.
Hypothesis P_clock : forall s, P s -> Q (set (elapse (get s)) s).
Hypothesis Q_quiet : forall s, Q s -> next_due (get s) = None -> P s.
Hypothesis Q_fire : forall s t,
  Q s -> next_due (get s) = Some t ->
  P (run (payload t) (set (take t (get s)) s)).

Lemma fire_due_settled fuel s : P s -> fire_due get set run fuel s = s.
Proof. intros Hs. destruct fuel; cbn; [|rewrite (P_settled s Hs)]; reflexivity. Qed.

Lemma settle_phase s : Q s -> P (settle get set run s).
Proof.
  intros Hs. unfold settle.
  destruct (next_due (get s)) as [t|] eqn:Hdue.
  - destruct (pending (get s)) as [|t0 rest] eqn:Hpending.
    + unfold next_due in Hdue. rewrite Hpending in Hdue. discriminate.
    + cbn. rewrite Hdue. rewrite fire_due_settled; apply Q_fire; assumption.
  - assert (fire_due get set run (length (pending (get s))) s = s) as ->
      by (destruct (length _); cbn; [|rewrite Hdue]; reflexivity).
    apply Q_quiet; assumption.
Qed.

Lemma ticks_phase n : forall s, P s -> P (ticks get set run n s).
Proof.
  induction n as [|n IH]; intros s Hs; [exact Hs|].
  cbn. apply IH. unfold tick. apply settle_phase, P_clock, Hs.
Qed.

(** A property of the states in which no callback is due, re-established
    by every callback that becomes due, holds whenever one looks. *)
Lemma advance_phase n s : P s -> P (advance get set run n s).
Proof.
  intros Hs. unfold advance, settle. rewrite fire_due_settled by exact Hs.
  apply ticks_phase, Hs.
Qed.
End LoopPhases.

Section TypingTimerFacts.
Import Timers Typing TypingCycle.
Variable phrases : list string.
Hypothesis phrases_nonempty :
  Forall (fun p => (0 < String.length p)%nat) phrases.

Lemma animateTyping_same_closure r a b :
  same_closure a b ->
  same_closure (animateTyping r phrases a).1 (animateTyping r phrases b).1.
Proof.
  destruct a as [pi ci del txt ha], b as [pi' ci' del' txt' hb].
  unfold same_closure. cbn. intros (-> & -> & -> & ->).
  unfold animateTyping. cbn.
  destruct (phrases !! pi') as [p|]; [|repeat split].
  destruct del'; cbn [negb andb];
    repeat match goal with
           | |- context [if ?c then _ else _] => destruct c
           end; repeat split.
Qed.

(** With motion allowed a run sets exactly one timer, for later. *)
Lemma animateTyping_timers a p :
  phrases !! phraseIndex a = Some p ->
  exists d, (0 < delay_of d)%nat
    ∧ timers (animateTyping false phrases a).1
      = (setTimeout tt d (timers a)).2.
Proof.
  intros Hp. unfold animateTyping. rewrite Hp.
  destruct (isDeleting a); cbn [negb andb].
  - destruct (_ =? _)%Z; cbn [fst timers]; eexists; (split; [|reflexivity]);
      vm_compute; lia.
  - destruct (_ =? _)%Z; cbn [fst timers]; eexists; (split; [|reflexivity]);
      vm_compute; lia.
Qed.

Lemma run_snoc_any r n a :
  run r phrases (S n) a = (animateTyping r phrases (run r phrases n a)).1.
Proof.
  revert a. induction n as [|n IH]; intros a; [reflexivity|].
  change (run r phrases (S (S n)) a)
    with (run r phrases (S n) (animateTyping r phrases a).1).
  rewrite IH. reflexivity.
Qed.

Variable a0 : animator.

Lemma typing_advance_between_ticks T a :
  between_ticks phrases a0 a ->
  between_ticks phrases a0 (Typing.advance false phrases T a).
Proof.
  apply (advance_phase timers set_timers
           (fun (_ : unit) a => (animateTyping false phrases a).1)
           (between_ticks phrases a0) (at_tick phrases a0)).
  - intros s (_ & (t & Hone & Hlate) & _).
    unfold next_due, is_due. rewrite Hone. cbn.
    rewrite bool_decide_eq_false_2 by lia. reflexivity.
  - intros s (Hwf & (t & Hone & Hlate) & Hrun).
    split; [exact Hwf|]. split; [|exact Hrun].
    exists t. cbn. split; [exact Hone|lia].
  - intros s (Hwf & (t & Hone & Hle) & Hrun) Hdue.
    split; [exact Hwf|]. split; [|exact Hrun].
    exists t. split; [exact Hone|].
    unfold next_due, is_due in Hdue. rewrite Hone in Hdue. cbn in Hdue.
    case_bool_decide; [discriminate|lia].
  - intros s t (Hwf & (t0 & Hone & Hle) & (n & Hrun)) Hdue.
    assert (t = t0) as ->.
    { unfold next_due in Hdue. apply List.find_some in Hdue as [Hin _].
      rewrite Hone in Hin. destruct Hin as [<-|[]]. reflexivity. }
    pose (s1 := set_timers (take t0 (timers s)) s).
    assert (Hwf1 : well_formed phrases s1) by exact Hwf.
    assert (Hsame1 : same_closure s1 s) by (repeat split).
    destruct Hwf1 as (p & Hp & Hrange).
    destruct (animateTyping_timers s1 p Hp) as (d & Hd & Htimers).
    destruct (animateTyping_step phrases phrases_nonempty s1
                (ex_intro _ p (conj Hp Hrange))) as (Hwf' & _).
    split; [exact Hwf'|]. split.
    + fold s1. unfold ticking. rewrite Htimers.
      unfold s1, setTimeout, take, set_timers. cbn. rewrite Hone. cbn.
      rewrite decide_False by (intros Hn; apply Hn; reflexivity). cbn.
      eexists. split; [reflexivity|]. cbn. lia.
    + exists (S n). rewrite run_snoc_any. fold s1.
      apply animateTyping_same_closure.
      destruct Hsame1 as (H1 & H2 & H3 & H4), Hrun as (H5 & H6 & H7 & H8).
      repeat split; congruence.
Qed.
End TypingTimerFacts.

(** X10.  With motion allowed and a non-empty list of non-empty phrases, at
    every millisecond after the start exactly one timer is pending, so the
    animation neither stops nor runs two chains of timers, and the closure
    variables and the text of the element are those reached by some number
    of runs of [animateTyping] from the start. *)
Theorem typing_keeps_one_timer
    (phrases : list string) (text0 : string) (T : nat) :
  phrases ≠ [] ->
  Forall (fun p => (0 < String.length p)%nat) phrases ->
  let a := Typing.advance false phrases T (Typing.start text0) in
  length (Timers.pending (Typing.timers a)) = 1%nat
  ∧ ∃ n, TypingCycle.same_closure a
           (Typing.run false phrases n (Typing.start text0)).
Proof.
  intros Hne Hlen a.
  assert (Hstart : TypingCycle.between_ticks phrases (Typing.start text0)
                      (Typing.start text0)).
  { split; [|split].
    - destruct phrases as [|p0 ps]; [congruence|].
      eapply start_well_formed; [exact Hlen|reflexivity].
    - eexists. split; [reflexivity|]. vm_compute. lia.
    - exists 0%nat. repeat split. }
  destruct (typing_advance_between_ticks phrases Hlen (Typing.start text0) T _ Hstart)
    as (_ & (t & Hone & _) & Hrun).
  fold a in Hone, Hrun. rewrite Hone. split; [reflexivity|exact Hrun].
Qed.

Lemma typing_keeps_one_timer_witness :
  Typing.site_phrases ≠ []
  ∧ Forall (fun p => (0 < String.length p)%nat) Typing.site_phrases
  ∧ let a := Typing.advance false Typing.site_phrases 4321
               (Typing.start "") in
    length (Timers.pending (Typing.timers a)) = 1%nat
    ∧ ∃ n, TypingCycle.same_closure a
             (Typing.run false Typing.site_phrases n (Typing.start "")).
Proof.
  assert (Hne : Typing.site_phrases ≠ []) by discriminate.
  assert (Hlen : Forall (fun p => (0 < String.length p)%nat) Typing.site_phrases)
    by (repeat constructor; cbn; lia).
  split; [exact Hne|]. split; [exact Hlen|].
  exact (typing_keeps_one_timer Typing.site_phrases "" 4321 Hne Hlen).
Defined.

(** X11.  On a page that is visible when the particle field is set up, and
    whatever frames and visibility changes follow: the host holds exactly
    one frame request while the page is visible and none while it is
    hidden; and an event draws exactly one frame when it leaves the page
    visible and none when it leaves it hidden. *)
Theorem visible_start_draws_only_when_visible
    (evs : list Particles.event) (ev : Particles.event) :
  let r := Particles.run evs (Particles.start false) in
  let r' := Particles.step r ev in
  length (Particles.requests r) = (if Particles.hidden r then 0 else 1)%nat
  ∧ Particles.rendered r'
    = (Particles.rendered r + if Particles.hidden r' then 0 else 1)%nat.
Proof.
  intros r r'.
  assert (Hinv : Particles.single_loop r).
  { apply run_single_loop. unfold Particles.single_loop. cbn.
    exists 1%nat. split; reflexivity. }
  subst r'. revert Hinv. generalize r. clear r.
  intros [hid id reqs next drawn]. unfold Particles.single_loop. cbn.
  destruct hid; intros Hinv.
  - subst reqs. split; [reflexivity|]. destruct ev; cbn; lia.
  - destruct Hinv as (i & -> & ->). split; [reflexivity|].
    destruct ev; cbn; lia.
Qed.

(** ** Lazy images: fallback and load event *)

Section LazyFallbackFacts.
Import Dom LazyImages LazyLoad.

Lemma writes_imap (f : element -> string) (t : nat) l : forall k,
  filter (fun w : nat * string => w.1 = t)
         (imap (fun j x => ((k + j)%nat, f x)) l)
  = if bool_decide (k ≤ t)%nat
    then match l !! (t - k)%nat with
         | Some x => [(t, f x)]
         | None => []
         end
    else [].
Proof.
  induction l as [|x l IH]; intros k.
  - cbn. case_bool_decide; [destruct (t - k)%nat|]; reflexivity.
  - rewrite imap_cons.
    rewrite (imap_ext _ (fun j y => ((S k + j)%nat, f y)))
      by (intros; cbn; f_equal; lia).
    destruct (decide (k = t)) as [->|Hne].
    + rewrite filter_cons_True by (cbn; lia). rewrite IH.
      rewrite bool_decide_eq_false_2 by lia.
      rewrite bool_decide_eq_true_2 by lia.
      replace (t - t)%nat with 0%nat by lia. cbn.
      replace (t + 0)%nat with t by lia. reflexivity.
    + rewrite filter_cons_False by (cbn; lia). rewrite IH.
      case_bool_decide as Hle.
      * rewrite bool_decide_eq_true_2 by lia.
        replace (t - k)%nat with (S (t - S k)) by lia. reflexivity.
      * case_bool_decide; [|reflexivity].
        assert (k = t) by lia. contradiction.
Qed.

Lemma writes_imap0 (f : element -> string) (t : nat) l :
  filter (fun w : nat * string => w.1 = t) (imap (fun j x => (j, f x)) l)
  = match l !! t with
    | Some x => [(t, f x)]
    | None => []
    end.
Proof.
  pose proof (writes_imap f t l 0) as H.
  rewrite bool_decide_eq_true_2 in H by lia.
  replace (t - 0)%nat with t in H by lia. exact H.
Qed.

(** Every image with a handler had its [src] assigned, and conversely. *)
Lemma onload_tracks_writes batches : forall st,
  onload st = (src_writes st).*1 ->
  onload (deliver batches st) = (src_writes (deliver batches st)).*1.
Proof.
  assert (Hentry : forall st e,
             onload st = (src_writes st).*1 ->
             onload (on_entry st e) = (src_writes (on_entry st e)).*1).
  { intros st e Hst. unfold on_entry.
    destruct (isIntersecting e); [|exact Hst].
    destruct (images st !! target e); [|exact Hst].
    cbn. rewrite fmap_app, Hst. reflexivity. }
  assert (Hbatch : forall batch st,
             onload st = (src_writes st).*1 ->
             onload (imageObserver batch st)
             = (src_writes (imageObserver batch st)).*1).
  { induction batch as [|e batch IH]; intros st Hst; [exact Hst|].
    apply (IH (on_entry st e)), Hentry, Hst. }
  induction batches as [|b bs IH]; intros st Hst; [exact Hst|].
  apply (IH (imageObserver b st)), Hbatch, Hst.
Qed.

Lemma has_handler_iff_written i st :
  onload st = (src_writes st).*1 ->
  i ∈ onload st <-> writes_to i st ≠ [].
Proof.
  intros ->. unfold writes_to. split.
  - intros Hin Hnone. apply list_elem_of_fmap in Hin as ([j v] & -> & Hw).
    apply fmap_nil_inv in Hnone.
    assert (Hfil : (j, v) ∈ filter (fun w : nat * string => w.1 = j)
                                (src_writes st))
      by (apply list_elem_of_filter; split; [reflexivity|exact Hw]).
    cbn in Hnone. rewrite Hnone in Hfil. inversion Hfil.
  - intros Hsome.
    destruct (filter (fun w : nat * string => w.1 = i) (src_writes st))
      as [|[j v] rest] eqn:Hfil; [contradiction|].
    assert (Hin : (j, v) ∈ filter (fun w : nat * string => w.1 = i)
                               (src_writes st))
      by (rewrite Hfil; apply list_elem_of_here).
    apply list_elem_of_filter in Hin as [Hj Hin]. cbn in Hj. subst j.
    apply list_elem_of_fmap. exists (i, v). split; [reflexivity|exact Hin].
Qed.
End LazyFallbackFacts.

(** X12.  Without intersection observation every image carrying
    [data-src] is loaded at once: its [src] is the former [data-src],
    [data-src] is gone, exactly one assignment to its [src] was made, its
    inline style is as the markup gave it, no [onload] handler is set and
    nothing is observed. *)
Theorem lazy_fallback_loads_everything
    (imgs : list Dom.element) (i : nat) (img : Dom.element) :
  LazyImages.lazyImages imgs !! i = Some img ->
  let st := LazyImages.init false imgs in
  exists u,
    Dom.getAttribute "data-src" img = Some u
    ∧ LazyImages.src_of st i = Some u
    ∧ LazyImages.data_src_of st i = None
    ∧ LazyImages.writes_to i st = [u]
    ∧ LazyLoad.style_of st i = Some (Dom.style img)
    ∧ LazyImages.observed st = []
    ∧ LazyImages.onload st = [].
Proof.
  intros Hi st.
  assert (Hmarked : is_Some (Dom.getAttribute "data-src" img)).
  { apply list_elem_of_lookup_2 in Hi. unfold LazyImages.lazyImages in Hi.
    apply list_elem_of_filter in Hi. tauto. }
  destruct Hmarked as [u Hu]. exists u. split; [exact Hu|].
  subst st. unfold LazyImages.init. cbn [andb].
  unfold LazyImages.src_of, LazyImages.data_src_of, LazyImages.writes_to,
    LazyLoad.style_of. cbn.
  rewrite list_lookup_fmap, Hi. cbn.
  rewrite (writes_imap0 LazyImages.dataset_src i (LazyImages.lazyImages imgs)).
  rewrite Hi. cbn.
  unfold LazyImages.load, LazyImages.dataset_src. cbn. rewrite Hu. cbn.
  unfold Dom.getAttribute. cbn.
  rewrite lookup_delete_ne by discriminate.
  rewrite lookup_insert_eq, lookup_delete_eq. repeat split.
Qed.

Lemma lazy_fallback_loads_everything_witness :
  let imgs := [Samples.eager_img "logo.png"; Samples.lazy_img "a.jpg";
               Samples.lazy_img "b.jpg"] in
  let st := LazyImages.init false imgs in
  exists u,
    Dom.getAttribute "data-src" (Samples.lazy_img "b.jpg") = Some u
    ∧ LazyImages.src_of st 1 = Some u
    ∧ LazyImages.data_src_of st 1 = None
    ∧ LazyImages.writes_to 1 st = [u]
    ∧ LazyLoad.style_of st 1 = Some (Dom.style (Samples.lazy_img "b.jpg"))
    ∧ LazyImages.observed st = []
    ∧ LazyImages.onload st = [].
Proof.
  intros imgs.
  apply (lazy_fallback_loads_everything imgs 1 (Samples.lazy_img "b.jpg")).
  vm_compute. reflexivity.
Defined.

(** X13.  With intersection observation available and for any run of
    batches the observer can deliver, an image of [lazyImages] has opacity
    "0" from the setup on; once an entry has reported it, its load event
    sets the opacity to "1" and leaves [src] as assigned; before that a
    load event finds no handler and changes nothing. *)
Theorem lazy_image_fades_in_after_load
    (imgs : list Dom.element) (batches : list (list LazyImages.entry))
    (i : nat) (img : Dom.element) :
  LazyImages.lazyImages imgs !! i = Some img ->
  LazyImages.deliverable_run (LazyImages.init true imgs) batches ->
  let st := LazyImages.deliver batches (LazyImages.init true imgs) in
  LazyLoad.opacity_of st i = Some "0"
  ∧ if LazyImages.reported i batches
    then LazyLoad.opacity_of (LazyLoad.on_load i st) i = Some "1"
         ∧ LazyImages.src_of (LazyLoad.on_load i st) i = LazyImages.src_of st i
    else LazyLoad.on_load i st = st.
Proof.
  intros Hi Hrun st.
  assert (Hmarked : is_Some (Dom.getAttribute "data-src" img)).
  { apply list_elem_of_lookup_2 in Hi. unfold LazyImages.lazyImages in Hi.
    apply list_elem_of_filter in Hi. tauto. }
  destruct Hmarked as [u Hu].
  destruct (deliver_image i img u Hu batches _ Hrun) as [Hfrom _].
  specialize (Hfrom (init_untouched i img imgs Hi)). fold st in Hfrom.
  assert (Htrack : LazyImages.onload st = (LazyImages.src_writes st).*1).
  { apply onload_tracks_writes. unfold LazyImages.init.
    rewrite bool_decide_eq_true_2; [reflexivity|].
    apply lookup_lt_Some in Hi. lia. }
  pose proof (has_handler_iff_written i st Htrack) as Hhandler.
  unfold LazyLoad.opacity_of, LazyLoad.on_load, LazyImages.src_of.
  destruct (LazyImages.reported i batches).
  - destruct Hfrom as (Himg & _ & Hw).
    rewrite bool_decide_eq_true_2
      by (apply Hhandler; rewrite Hw; discriminate).
    rewrite Himg. cbn.
    rewrite list_lookup_insert_eq by (eapply lookup_lt_Some; exact Himg).
    cbn. rewrite lookup_insert_eq. repeat split.
    rewrite lookup_insert_ne by discriminate. apply lookup_insert_eq.
  - destruct Hfrom as (Himg & _ & Hw).
    rewrite bool_decide_eq_false_2
      by (intros Hin; apply Hhandler in Hin; contradiction).
    rewrite Himg. cbn. split; [|reflexivity].
    rewrite lookup_insert_ne by discriminate. apply lookup_insert_eq.
Qed.

Lemma lazy_image_fades_in_after_load_witness :
  let imgs := [Samples.lazy_img "a.jpg"; Samples.lazy_img "b.jpg"] in
  let batches :=
    [[LazyImages.entry_at 900 0; LazyImages.entry_at 1500 1];
     [LazyImages.entry_at 40 0]] in
  let st := LazyImages.deliver batches (LazyImages.init true imgs) in
  LazyLoad.opacity_of st 0 = Some "0"
  ∧ if LazyImages.reported 0 batches
    then LazyLoad.opacity_of (LazyLoad.on_load 0 st) 0 = Some "1"
         ∧ LazyImages.src_of (LazyLoad.on_load 0 st) 0 = LazyImages.src_of st 0
    else LazyLoad.on_load 0 st = st.
Proof.
  intros imgs batches.
  apply (lazy_image_fades_in_after_load imgs batches 0 (Samples.lazy_img "a.jpg")).
  - vm_compute. reflexivity.
  - repeat split; apply (bool_decide_unpack _); vm_compute; exact I.
Defined.

(** ** Smooth scroll for anchor links *)

Section SmoothScrollFacts.
Import SmoothScroll.
Variable querySelector : string -> outcome (option Dom.element).
Variable has_pushState : bool.
Variable prefersReducedMotion : bool.

Lemma on_click_resolved targetId v :
  (on_click querySelector has_pushState prefersReducedMotion targetId v).1
  = match resolves querySelector targetId with
    | Some el =>
        let v' := scrollIntoView el
                    (if prefersReducedMotion then Auto else Smooth)
                    (preventDefault v) in
        if has_pushState then pushState targetId v' else v'
    | None => v
    end.
Proof.
  unfold on_click, resolves. case_bool_decide; [reflexivity|].
  unfold mbind, js_mbind, js_bind.
  destruct (querySelector targetId) as [[el|]|e]; [|reflexivity|reflexivity].
  unfold modify. destruct has_pushState; reflexivity.
Qed.

Lemma click_all_resolved hrefs : forall v,
  let v' := click_all querySelector has_pushState prefersReducedMotion hrefs v in
  scrolls v'
  = (scrolls v
     ++ ((fun el => (el, if prefersReducedMotion then Auto else Smooth))
           <$> omap (resolves querySelector) hrefs))%list
  ∧ history v'
    = (history v
       ++ (if has_pushState
           then filter (fun h => is_Some (resolves querySelector h)) hrefs
           else []))%list
  ∧ prevented v' = (prevented v + length (omap (resolves querySelector) hrefs))%nat.
Proof.
  induction hrefs as [|h hs IH]; intros v.
  - cbn. rewrite app_nil_r, Nat.add_0_r.
    destruct has_pushState; rewrite app_nil_r; auto.
  - cbn zeta.
    change (click_all querySelector has_pushState prefersReducedMotion
              (h :: hs) v)
      with (click_all querySelector has_pushState prefersReducedMotion hs
              (on_click querySelector has_pushState prefersReducedMotion h v).1).
    destruct (IH (on_click querySelector has_pushState prefersReducedMotion
                    h v).1) as (Hs & Hh & Hp).
    rewrite Hs, Hh, Hp, on_click_resolved. clear Hs Hh Hp.
    cbn [omap list_omap].
    destruct (resolves querySelector h) as [el|] eqn:Hres.
    + rewrite (filter_cons_True (fun h => is_Some (resolves querySelector h)))
        by (rewrite Hres; eexists; reflexivity).
      destruct has_pushState; cbn; rewrite <- ?app_assoc;
        (split; [reflexivity|]); (split; [reflexivity|]); lia.
    + rewrite (filter_cons_False (fun h => is_Some (resolves querySelector h)))
        by (rewrite Hres; intros [x Hx]; discriminate).
      destruct has_pushState; cbn; auto.
Qed.
End SmoothScrollFacts.

(** X14.  Whatever anchors are clicked, in whatever order: exactly the
    clicks whose [href] is not the bare "#" and is resolved by
    [querySelector] to an element have their default action prevented and
    scroll to that element, smoothly unless motion is reduced; each of them,
    and no other click, adds its [href] to the history when [pushState]
    exists; a bare "#" is never looked up; and a click whose selector makes
    [querySelector] throw rethrows and changes nothing. *)
Theorem anchor_clicks_scroll_to_resolved_targets
    (querySelector : string -> outcome (option Dom.element))
    (has_pushState prefersReducedMotion : bool)
    (hrefs : list string) (v : SmoothScroll.viewport) :
  let resolves := SmoothScroll.resolves querySelector in
  let v' := SmoothScroll.click_all querySelector has_pushState
              prefersReducedMotion hrefs v in
  SmoothScroll.scrolls v'
  = (SmoothScroll.scrolls v
     ++ ((fun el => (el, if prefersReducedMotion
                         then SmoothScroll.Auto else SmoothScroll.Smooth))
           <$> omap resolves hrefs))%list
  ∧ SmoothScroll.history v'
    = (SmoothScroll.history v
       ++ (if has_pushState
           then filter (fun h => is_Some (resolves h)) hrefs else []))%list
  ∧ SmoothScroll.prevented v'
    = (SmoothScroll.prevented v + length (omap resolves hrefs))%nat
  ∧ resolves "#" = None
  ∧ (forall h e,
        h ≠ "#" -> querySelector h = Thrown e ->
        SmoothScroll.on_click querySelector has_pushState
          prefersReducedMotion h v = (v, Thrown e)).
Proof.
  intros resolves v'. subst v' resolves.
  destruct (click_all_resolved querySelector has_pushState
              prefersReducedMotion hrefs v) as (Hs & Hh & Hp).
  split; [exact Hs|]. split; [exact Hh|]. split; [exact Hp|]. split.
  - unfold SmoothScroll.resolves.
    rewrite bool_decide_eq_true_2 by reflexivity. reflexivity.
  - intros h e Hh' He. unfold SmoothScroll.on_click.
    rewrite bool_decide_eq_false_2 by exact Hh'.
    unfold mbind, js_mbind, js_bind. rewrite He. reflexivity.
Qed.

(** ** The handler as a whole *)

Section PageOutcomeFacts.
Import Page PageOutcome.
Variable h : host.
Variable d : document.

(** The components before the particle field: they stop with a
    ReferenceError exactly when the observer is missing, and write neither
    the canvas, the loop, the window listeners nor the console. *)
Lemma before_particles_outcome w :
  exists w1,
    before_particles h d w
    = (w1, if observer_missing h d
           then Thrown (ReferenceError "IntersectionObserver") else Ret tt)
    ∧ canvas w1 = canvas w
    ∧ loop w1 = loop w
    ∧ window_listeners w1 = window_listeners w
    ∧ console w1 = console w
    ∧ lazy w1 = lazy w
    ∧ anchor_listeners w1 = anchor_listeners w
    ∧ page w1 = (Sidebar.wire_clicks (page w)).1
    ∧ typing w1
      = (if observer_missing h d then typing w
         else match typewriterElement d with
              | Some text0 => Some (Typing.start text0)
              | None => typing w
              end).
Proof.
  unfold before_particles, init_sidebar, init_scrollspy, init_typing,
    observer_missing, on_page, mbind, js_mbind, js_bind, modify, throw.
  assert (Hclicks : (Sidebar.wire_clicks (page w)).2 = Ret tt)
    by (unfold Sidebar.wire_clicks; destruct (_ && _); reflexivity).
  destruct (Sidebar.wire_clicks (page w)) as [p r]. cbn in Hclicks. subst r.
  destruct (bool_decide (0 < length (navLinks d))%nat);
    destruct (bool_decide (0 < length (sections d))%nat);
    destruct (has_IntersectionObserver h);
    destruct (typewriterElement d);
    cbn; eexists; (split; [reflexivity|]); cbn; repeat split.
Qed.

(** The particle field never makes the handler throw, and touches neither
    the page nor the other components. *)
Lemma init_particles_outcome w :
  exists w2,
    init_particles h w = (w2, Ret tt)
    ∧ page w2 = page w
    ∧ typing w2 = typing w
    ∧ lazy w2 = lazy w
    ∧ anchor_listeners w2 = anchor_listeners w
    ∧ (if particles_wanted h w
       then True
       else w2 = w).
Proof.
  unfold init_particles, particles_wanted.
  destruct (_ && _ && _).
  - unfold try_catch. destruct (setup h w) as [w' [[]|e]] eqn:Hsetup.
    + destruct (keeps_setup h w w' _ Hsetup)
        as (Hp & _ & Ht & _ & Hl & Ha & _).
      exists w'. repeat split; assumption.
    + destruct (keeps_setup h w w' _ Hsetup)
        as (Hp & _ & Ht & _ & Hl & Ha & _).
      eexists. split; [reflexivity|]. cbn. repeat split; assumption.
  - exists w. repeat split.
Qed.
End PageOutcomeFacts.

(** X15.  The handler throws exactly when the page has navigation links and
    sections and the host has no IntersectionObserver: the scroll-spy then
    stops it with a ReferenceError after the sidebar click listeners, so no
    typing animation starts, no image is loaded (the fallback of the lazy
    loader is never reached), no anchor or keydown listener is attached and
    nothing is logged.  In every other case the handler returns normally,
    whatever the rendering library does, with the lazy loader, the anchor
    listeners and the keydown listener set up and the log line written
    last. *)
Theorem handler_throws_only_without_observer
    (h : Page.host) (d : Page.document) (w : Page.world) :
  exists w',
    Page.DOMContentLoaded h d w
    = (w', if PageOutcome.observer_missing h d
           then Thrown (ReferenceError "IntersectionObserver") else Ret tt)
    ∧ if PageOutcome.observer_missing h d
      then Page.typing w' = Page.typing w
           ∧ Page.lazy w' = Page.lazy w
           ∧ Page.anchor_listeners w' = Page.anchor_listeners w
           ∧ Page.console w' = Page.console w
           ∧ Page.page w' = (Sidebar.wire_clicks (Page.page w)).1
      else Page.lazy w'
           = Some (LazyImages.init (Page.has_IntersectionObserver h)
                     (Page.imgs d))
           ∧ Page.anchor_listeners w' = Page.anchors d
           ∧ Page.page w' = (SidebarEvents.init (Page.page w)).1
           ∧ last (Page.console w')
             = Some (Page.Log "✨ Portfolio initialized successfully!")
           ∧ Page.typing w'
             = match Page.typewriterElement d with
               | Some text0 => Some (Typing.start text0)
               | None => Page.typing w
               end.
Proof.
  destruct (before_particles_outcome h d w)
    as (w1 & Hbefore & Hc1 & Hl1 & Hw1 & Hk1 & Hz1 & Ha1 & Hp1 & Ht1).
  unfold Page.DOMContentLoaded, mbind, js_mbind, js_bind. rewrite Hbefore.
  destruct (PageOutcome.observer_missing h d).
  - exists w1. split; [reflexivity|]. repeat split; assumption.
  - destruct (init_particles_outcome h w1) as (w2 & -> & Hp2 & Ht2 & _).
    eexists. split; [reflexivity|]. cbn.
    rewrite Hp2, Hp1, Ht2, Ht1, last_snoc. repeat split.
    unfold SidebarEvents.init, mbind, js_mbind, js_bind.
    assert (Hclicks : (Sidebar.wire_clicks (Page.page w)).2 = Ret tt)
      by (unfold Sidebar.wire_clicks; destruct (_ && _); reflexivity).
    destruct (Sidebar.wire_clicks (Page.page w)) as [p r].
    cbn in Hclicks. subst r. reflexivity.
Qed.

(** X16.  Without a canvas, without the rendering library or with reduced
    motion, the handler never starts the particle field: whether it returns
    or throws, the render loop, the canvas and the window listeners are as
    before, and the console got no warning. *)
Theorem particle_field_skipped
    (h : Page.host) (d : Page.document) (w : Page.world) :
  Page.canvas w = None ∨ Page.has_THREE h = false
  ∨ Page.prefersReducedMotion h = true ->
  let w' := (Page.DOMContentLoaded h d w).1 in
  Page.loop w' = Page.loop w
  ∧ Page.canvas w' = Page.canvas w
  ∧ Page.window_listeners w' = Page.window_listeners w
  ∧ filter (fun e => PageOutcome.is_warning e = true) (Page.console w')
    = filter (fun e => PageOutcome.is_warning e = true) (Page.console w).
Proof.
  intros Hskip w'. subst w'.
  destruct (before_particles_outcome h d w)
    as (w1 & Hbefore & Hc1 & Hl1 & Hw1 & Hk1 & _).
  unfold Page.DOMContentLoaded, mbind, js_mbind, js_bind. rewrite Hbefore.
  destruct (PageOutcome.observer_missing h d).
  - cbv beta iota delta [fst]. rewrite Hl1, Hc1, Hw1, Hk1. repeat split.
  - assert (Hnot : PageOutcome.particles_wanted h w1 = false).
    { unfold PageOutcome.particles_wanted. rewrite Hc1.
      destruct Hskip as [->|[->| ->]].
      - rewrite (bool_decide_eq_false_2 (is_Some None))
          by (intros [x Hx]; discriminate).
        reflexivity.
      - rewrite andb_false_r. reflexivity.
      - rewrite andb_false_r. reflexivity. }
    destruct (init_particles_outcome h w1) as (w2 & -> & _ & _ & _ & _ & Hsame).
    rewrite Hnot in Hsame. subst w2.
    unfold Page.after_particles, Page.init_lazy, Page.init_anchors,
      Page.init_keydown, Page.on_page, Sidebar.wire_keydown,
      mbind, js_mbind, js_bind, modify.
    cbn.
    rewrite Hl1, Hc1, Hw1, Hk1, filter_app.
    rewrite (filter_cons_False _ (Page.Log _)), filter_nil, app_nil_r
      by (cbn; discriminate).
    repeat split.
Qed.

Lemma particle_field_skipped_witness :
  let h := {| Page.has_IntersectionObserver := true;
              Page.has_THREE := true;
              Page.faults := fun _ => Some (HostError "no WebGL");
              Page.prefersReducedMotion := true;
              Page.document_hidden := false |} in
  let w' := (Page.DOMContentLoaded h Samples.portfolio Samples.blank).1 in
  Page.loop w' = Page.loop Samples.blank
  ∧ Page.canvas w' = Page.canvas Samples.blank
  ∧ Page.window_listeners w' = Page.window_listeners Samples.blank
  ∧ filter (fun e => PageOutcome.is_warning e = true) (Page.console w')
    = filter (fun e => PageOutcome.is_warning e = true)
             (Page.console Samples.blank).
Proof.
  intros h.
  apply (particle_field_skipped h Samples.portfolio Samples.blank).
  right. right. reflexivity.
Defined.

(** ** Canvas size and debounced resize *)

Section LoopProjection.
Import Timers.
Context {A S1 S2 : Type}.
Variable get1 : S1 -> host A.
Variable set1 : host A -> S1 -> S1.
Variable run1 : A -> S1 -> S1.
Variable get2 : S2 -> host A.
Variable set2 : host A -> S2 -> S2.
Variable run2 : A -> S2 -> S2.
Variable part : S1 -> S2.
Hypothesis part_get : forall s, get2 (part s) = get1 s.
Hypothesis part_set : forall h s, part (set1 h s) = set2 h (part s).
Hypothesis part_run : forall a s, part (run1 a s) = run2 a (part s).

Lemma fire_due_part fuel : forall s,
  part (fire_due get1 set1 run1 fuel s) = fire_due get2 set2 run2 fuel (part s).
Proof.
  induction fuel as [|fuel IH]; intros s; [reflexivity|].
  cbn. rewrite part_get. destruct (next_due (get1 s)); [|reflexivity].
  rewrite IH, part_run, part_set. reflexivity.
Qed.

Lemma ticks_part n : forall s,
  part (ticks get1 set1 run1 n s) = ticks get2 set2 run2 n (part s).
Proof.
  induction n as [|n IH]; intros s; [reflexivity|].
  cbn. rewrite IH. f_equal. unfold tick, settle.
  rewrite fire_due_part.
  rewrite <- (part_get (set1 (elapse (get1 s)) s)).
  rewrite part_set, part_get. reflexivity.
Qed.

(** A part of the state that carries the timers and is run by the same
    callbacks evolves on its own. *)
Lemma advance_part n s :
  part (advance get1 set1 run1 n s) = advance get2 set2 run2 n (part s).
Proof.
  unfold advance, settle. rewrite ticks_part, fire_due_part, part_get.
  reflexivity.
Qed.
End LoopProjection.

Section CanvasFacts.
Import Canvas.

Lemma advance_resize n v :
  resize (advance n v) = Debounce.advance n (resize v).
Proof.
  apply (advance_part view_timers set_view_timers later_resize
           Debounce.timers Debounce.set_timers Debounce.later resize);
    reflexivity.
Qed.

Lemma advance_updated n v :
  updated_since (win v) (length (Debounce.calls (resize v)))
    (size v) (aspect v) (projections v) (advance n v).
Proof.
  apply (advance_invariant view_timers set_view_timers later_resize).
  - intros s Hs. exact Hs.
  - intros s t (Hwin & k & Hlen & Hproj & Hsize) _.
    split; [exact Hwin|]. exists (S k). cbn.
    rewrite length_app, Hlen, Hproj, Hwin. cbn. repeat split; lia.
  - split; [reflexivity|]. exists 0%nat. repeat split; lia.
Qed.

(** As long as no call of [updateCanvasSize] is logged the canvas is as it
    was; with one more the canvas is that of the window. *)
Lemma advance_canvas n v :
  win (advance n v) = win v
  ∧ (length (Debounce.calls (resize (advance n v)))
     = length (Debounce.calls (resize v)) ->
     size (advance n v) = size v ∧ aspect (advance n v) = aspect v
     ∧ projections (advance n v) = projections v)
  ∧ (length (Debounce.calls (resize (advance n v)))
     = S (length (Debounce.calls (resize v))) ->
     size (advance n v) = canvas_size (win v)
     ∧ aspect (advance n v) = canvas_size (win v)
     ∧ projections (advance n v) = S (projections v)).
Proof.
  destruct (advance_updated n v) as (Hwin & k & Hlen & Hproj & Hsize).
  split; [exact Hwin|]. split; intros Hcalls.
  - assert (k = 0)%nat as -> by lia. destruct Hsize as [-> ->].
    repeat split. lia.
  - assert (k = 1)%nat as -> by lia. destruct Hsize as [-> ->].
    repeat split. lia.
Qed.

(** During a burst of resize events the canvas is not touched. *)
Lemma resizes_quiet (evs : list (nat * window)) : forall v k nid t f,
  resize v = Debounce.armed k nid t (t + resizeDelay) f tt ->
  Forall (fun e => (e.1 < resizeDelay)%nat) evs ->
  exists k' nid' t',
    resize (resizes evs v)
    = Debounce.armed k' nid' t' (t' + resizeDelay) f tt
    ∧ size (resizes evs v) = size v
    ∧ aspect (resizes evs v) = aspect v
    ∧ projections (resizes evs v) = projections v
    ∧ win (resizes evs v) = List.last (snd <$> evs) (win v).
Proof.
  induction evs as [|[g w] evs IH]; intros v k nid t f Hv Hgaps.
  - exists k, nid, t. repeat split. exact Hv.
  - inversion Hgaps as [|? ? Hg Hrest]; subst. cbn in Hg.
    cbn [resizes].
    assert (Hadv : resize (advance g v)
                   = Debounce.armed k nid (g + t) (t + resizeDelay) f tt).
    { rewrite advance_resize, Hv. apply advance_armed_early. lia. }
    destruct (advance_canvas g v) as (_ & Hsame & _).
    destruct Hsame as (Hs & Ha & Hp); [rewrite Hadv, Hv; reflexivity|].
    destruct (IH (on_resize w (advance g v)) nid (S nid) (g + t)%nat f)
      as (k' & nid' & t' & Hr & Hs' & Ha' & Hp' & Hw'); [|exact Hrest|].
    { unfold on_resize, handleResize. cbn. rewrite Hadv.
      apply executedFunction_armed. }
    exists k', nid', t'. rewrite Hr, Hs', Ha', Hp', Hw'.
    repeat split; try assumption.
    cbn [fmap list_fmap snd]. destruct evs as [|e evs']; [reflexivity|].
    change (List.last (snd <$> e :: evs') w
            = List.last (w :: (snd <$> e :: evs')) (win v)).
    cbn [List.last]. apply last_nonempty_default.
Qed.
End CanvasFacts.

(** X17.  After a burst of at least one resize event in which every event
    comes less than 250 ms after the one before, the canvas is still as the
    setup sized it, and it stays so for 250 ms; from then on it has been
    resized exactly once, to the size the window had at the last event (its
    width less 80 when wider than 768), with the camera's aspect set from
    the same pair. *)
Theorem resize_burst_updates_canvas_once
    (w0 : Canvas.window) (size0 : Z * Z) (g0 : nat) (w1 : Canvas.window)
    (evs : list (nat * Canvas.window)) (T : nat) :
  Forall (fun e => (e.1 < 250)%nat) evs ->
  let quiet := Canvas.resizes ((g0, w1) :: evs) (Canvas.setup w0 size0) in
  let final := Canvas.advance T quiet in
  let last_window := List.last (snd <$> evs) w1 in
  Canvas.size quiet = Canvas.canvas_size w0
  ∧ Canvas.projections quiet = 1%nat
  ∧ if bool_decide (T < 250)%nat
    then Canvas.size final = Canvas.canvas_size w0
         ∧ Canvas.projections final = 1%nat
    else Canvas.size final = Canvas.canvas_size last_window
         ∧ Canvas.aspect final = Canvas.canvas_size last_window
         ∧ Canvas.projections final = 2%nat.
Proof.
  intros Hgaps. cbv zeta. cbn [Canvas.resizes].
  set (v0 := Canvas.setup w0 size0).
  set (v1 := Canvas.on_resize w1 (Canvas.advance g0 v0)).
  assert (Hidle : Canvas.resize (Canvas.advance g0 v0)
                  = Debounce.idle None 1 (g0 + 0) 0 []).
  { rewrite advance_resize. apply (advance_idle g0 None 1 0 0 []). }
  destruct (advance_canvas g0 v0) as (_ & Hsame0 & _).
  destruct Hsame0 as (Hs0 & _ & Hp0); [rewrite Hidle; reflexivity|].
  assert (Hv1 : Canvas.resize v1
                = Debounce.armed 1 2 (g0 + 0)
                    (g0 + 0 + Canvas.resizeDelay) 0 tt).
  { unfold v1, Canvas.on_resize, Canvas.handleResize. cbn. rewrite Hidle.
    apply executedFunction_fresh. }
  assert (Hsize1 : Canvas.size v1 = Canvas.canvas_size w0) by exact Hs0.
  assert (Hproj1 : Canvas.projections v1 = 1%nat) by exact Hp0.
  assert (Hwin1 : Canvas.win v1 = w1) by reflexivity.
  destruct (resizes_quiet evs v1 1 2 (g0 + 0)%nat 0 Hv1 Hgaps)
    as (k & nid & t & Hr & Hs & _ & Hp & Hw).
  set (quiet := Canvas.resizes evs v1) in *.
  rewrite Hsize1 in Hs. rewrite Hproj1 in Hp. rewrite Hwin1 in Hw.
  split; [exact Hs|]. split; [exact Hp|].
  destruct (advance_canvas T quiet) as (_ & Hsame & Honce).
  case_bool_decide as HT.
  - destruct Hsame as (Hs' & _ & Hp').
    { rewrite advance_resize, Hr.
      unfold Canvas.resizeDelay. rewrite advance_armed_early by lia.
      reflexivity. }
    rewrite Hs', Hp'. split; assumption.
  - destruct Honce as (Hs' & Ha' & Hp').
    { rewrite advance_resize, Hr.
      unfold Canvas.resizeDelay. rewrite advance_armed_due by lia.
      reflexivity. }
    rewrite Hs', Ha', Hp', Hw, Hp. repeat split.
Qed.

Lemma resize_burst_updates_canvas_once_witness :
  let evs := [(100%nat, Canvas.Window 900 700);
              (249%nat, Canvas.Window 700 650)] in
  let quiet := Canvas.resizes ((10%nat, Canvas.Window 1000 800) :: evs)
                 (Canvas.setup (Canvas.Window 1200 800) (300, 150)%Z) in
  let final := Canvas.advance 250 quiet in
  let last_window := List.last (snd <$> evs) (Canvas.Window 1000 800) in
  Canvas.size quiet = Canvas.canvas_size (Canvas.Window 1200 800)
  ∧ Canvas.projections quiet = 1%nat
  ∧ if bool_decide (250 < 250)%nat
    then Canvas.size final = Canvas.canvas_size (Canvas.Window 1200 800)
         ∧ Canvas.projections final = 1%nat
    else Canvas.size final = Canvas.canvas_size last_window
         ∧ Canvas.aspect final = Canvas.canvas_size last_window
         ∧ Canvas.projections final = 2%nat.
Proof.
  intros evs.
  apply (resize_burst_updates_canvas_once
           (Canvas.Window 1200 800) (300, 150)%Z 10 (Canvas.Window 1000 800)
           evs 250).
  repeat constructor; cbn; lia.
Defined.

(** ** Typing animation on the clock *)

Section TypingDurationFacts.
Import Typing TypingCycle TypingSchedule.
Variable phrases : list string.

Lemma duration_add n m : forall a,
  duration phrases (n + m) a
  = (duration phrases n a + duration phrases m (run false phrases n a))%nat.
Proof.
  induction n as [|n IH]; intros a; [reflexivity|].
  cbn [Nat.add duration run]. rewrite IH. lia.
Qed.

Lemma duration_snoc k a :
  duration phrases (S k) a
  = (duration phrases k a + timeout_of phrases (run false phrases k a))%nat.
Proof.
  replace (S k) with (k + 1)%nat by lia. rewrite duration_add.
  cbn [duration]. lia.
Qed.

Lemma timeout_of_same_closure a b :
  same_closure a b -> timeout_of phrases a = timeout_of phrases b.
Proof.
  intros (Hi & Hc & Hd & _). unfold timeout_of. rewrite Hi, Hc, Hd.
  reflexivity.
Qed.

Lemma timeout_of_positive a :
  well_formed phrases a -> (0 < timeout_of phrases a)%nat.
Proof.
  intros (p & Hp & _). unfold timeout_of. rewrite Hp.
  destruct (isDeleting a); [unfold deleteSpeed; lia|].
  destruct (_ =? _)%Z; unfold delayBetweenPhrases, typeSpeed; lia.
Qed.

(** Typing from [c] characters to the full phrase: [typeSpeed] after each
    run but the last, the pause after the last. *)
Lemma grow_time p m : forall a c,
  phrases !! phraseIndex a = Some p ->
  isDeleting a = false ->
  charIndex a = Z.of_nat c ->
  (c + S m = String.length p)%nat ->
  duration phrases (S m) a = (m * typeSpeed + delayBetweenPhrases)%nat.
Proof.
  induction m as [|m IH]; intros a c Hp Hdel Hc Hlen;
    destruct (animateTyping_grow phrases a p c Hp Hdel Hc)
      as (Hi & Hc' & Hd' & _).
  - cbn [duration]. unfold timeout_of. rewrite Hp, Hdel, Hc.
    rewrite (proj2 (Z.eqb_eq _ _)) by lia. lia.
  - rewrite bool_decide_eq_false_2 in Hd' by lia.
    change (duration phrases (S (S m)) a)
      with (timeout_of phrases a
            + duration phrases (S m) (animateTyping false phrases a).1)%nat.
    rewrite (IH (animateTyping false phrases a).1 (S c));
      [|congruence|exact Hd'|exact Hc'|lia].
    unfold timeout_of. rewrite Hp, Hdel, Hc.
    rewrite (proj2 (Z.eqb_neq _ _)) by lia. lia.
Qed.

(** Deleting [S c] characters: [deleteSpeed] after each run, the one that
    empties the element included. *)
Lemma shrink_time p c : forall a,
  phrases !! phraseIndex a = Some p ->
  isDeleting a = true ->
  charIndex a = Z.of_nat (S c) ->
  duration phrases (S c) a = (S c * deleteSpeed)%nat.
Proof.
  induction c as [|c IH]; intros a Hp Hdel Hc;
    destruct (animateTyping_shrink phrases a p _ Hp Hdel Hc)
      as (Hi & Hc' & Hd' & _).
  - cbn [duration]. unfold timeout_of. rewrite Hp, Hdel. lia.
  - rewrite bool_decide_eq_false_2 in Hi, Hd' by lia.
    change (duration phrases (S (S c)) a)
      with (timeout_of phrases a
            + duration phrases (S c) (animateTyping false phrases a).1)%nat.
    rewrite (IH (animateTyping false phrases a).1);
      [|congruence|exact Hd'|exact Hc'].
    unfold timeout_of. rewrite Hp, Hdel. lia.
Qed.

Lemma phrase_cycle_time a p :
  phrases !! phraseIndex a = Some p ->
  (0 < String.length p)%nat ->
  charIndex a = 0%Z ->
  isDeleting a = false ->
  duration phrases (2 * String.length p) a = phrase_time p.
Proof.
  intros Hp Hlen Hc Hdel. unfold phrase_time.
  destruct (String.length p) as [|m] eqn:Hn; [lia|].
  replace (2 * S m)%nat with (S m + S m)%nat by lia.
  destruct (grow_to_full phrases p m a 0 Hp Hdel) as (_ & Hi & Hfull & Hd);
    [exact Hc|lia|].
  rewrite duration_add.
  rewrite (grow_time p m a 0 Hp Hdel) by (try exact Hc; lia).
  rewrite (shrink_time p m (run false phrases (S m) a));
    [|congruence|exact Hd|rewrite Hfull, Hn; reflexivity].
  replace (S m - 1)%nat with m by lia. reflexivity.
Qed.

Hypothesis phrases_nonempty :
  Forall (fun p => (0 < String.length p)%nat) phrases.

Lemma rest_of_pass_time suffix : forall i a,
  drop i phrases = suffix ->
  suffix ≠ [] ->
  at_phrase i a ->
  duration phrases (total_runs suffix) a = pass_time suffix.
Proof.
  induction suffix as [|p rest IH]; intros i a Hdrop Hne (Hi & Hc & Hd);
    [congruence|].
  assert (Hp : phrases !! i = Some p).
  { rewrite <- (Nat.add_0_r i), <- lookup_drop, Hdrop. reflexivity. }
  assert (Hrest : drop (S i) phrases = rest).
  { replace (S i) with (i + 1)%nat by lia.
    rewrite <- drop_drop, Hdrop. reflexivity. }
  assert (Hlen : (0 < String.length p)%nat).
  { rewrite Forall_forall in phrases_nonempty.
    apply phrases_nonempty. eapply list_elem_of_lookup_2. exact Hp. }
  destruct (phrase_cycle phrases a p) as (_ & Hnext);
    [rewrite Hi; exact Hp|exact Hlen|exact Hc|exact Hd|].
  cbn [total_runs pass_time foldr].
  rewrite duration_add.
  rewrite (phrase_cycle_time a p) by (try assumption; rewrite Hi; exact Hp).
  rewrite Hi in Hnext.
  destruct rest as [|q rest'].
  - cbn. lia.
  - assert (Hmore : (S i < length phrases)%nat).
    { apply (f_equal length) in Hrest. rewrite length_drop in Hrest.
      cbn in Hrest. lia. }
    replace ((i + 1) `mod` length phrases) with (S i) in Hnext
      by (rewrite Nat.mod_small; lia).
    fold (total_runs (q :: rest')). fold (pass_time (q :: rest')).
    rewrite (IH (S i) (run false phrases (2 * String.length p) a));
      [reflexivity|exact Hrest|discriminate|exact Hnext].
Qed.

Lemma passes_time k : forall a,
  phrases ≠ [] ->
  at_phrase 0 a ->
  duration phrases (k * total_runs phrases) a = (k * pass_time phrases)%nat.
Proof.
  induction k as [|k IH]; intros a Hne Ha; [reflexivity|].
  destruct (rest_of_pass phrases phrases_nonempty phrases 0 a)
    as (_ & Hnext); [reflexivity|exact Hne|exact Ha|].
  cbn [Nat.mul]. rewrite duration_add.
  rewrite (rest_of_pass_time phrases 0 a) by (try assumption; reflexivity).
  rewrite (IH _ Hne Hnext). reflexivity.
Qed.
End TypingDurationFacts.

Section TypingScheduleFacts.
Import Timers Typing TypingCycle TypingSchedule.
Variable phrases : list string.
Hypothesis phrases_nonempty :
  Forall (fun p => (0 < String.length p)%nat) phrases.

Local Abbreviation loop_ticks :=
  (ticks timers set_timers
     (fun (_ : unit) a => (animateTyping false phrases a).1)).

(** The tick at which the pending timer is due runs [animateTyping] once
    and leaves one timer, due [timeout_of] later. *)
Lemma next_run_fires a t k p :
  phrases !! phraseIndex a = Some p ->
  pending (timers a) = [t] ->
  (now (timers a) + S k = due t)%nat ->
  let a' := next_run false phrases k a in
  same_closure a' (animateTyping false phrases a).1
  ∧ now (timers a') = due t
  ∧ exists t', pending (timers a') = [t']
               ∧ due t' = (due t + timeout_of phrases a)%nat.
Proof.
  destruct a as [pi ci del txt [nw nid pend f]]. cbn [phraseIndex timers pending now].
  intros Hp -> Hdue.
  unfold next_run, tick, settle, later_by, set_timers, elapse.
  cbn [timers pending now next_id fired length fire_due].
  unfold next_due, is_due. cbn [pending now List.find].
  rewrite bool_decide_eq_true_2 by lia.
  cbn [payload]. unfold take. cbn [pending now next_id fired tid].
  rewrite filter_cons_False, filter_nil by (intros Hn; apply Hn; reflexivity).
  unfold timeout_of, animateTyping, same_closure.
  cbn [phraseIndex charIndex isDeleting textContent timers]. rewrite Hp.
  assert (Hfast : delay_of deleteSpeed = deleteSpeed) by reflexivity.
  assert (Hslow : delay_of typeSpeed = typeSpeed) by reflexivity.
  assert (Hpause : delay_of delayBetweenPhrases = delayBetweenPhrases)
    by reflexivity.
  unfold setTimeout.
  destruct del; cbn [negb andb].
  - destruct (ci - 1 =? 0)%Z; cbn [fst snd timers pending now phraseIndex
      charIndex isDeleting textContent]; rewrite Hfast;
      (repeat split; [lia|]); eexists; (split; [reflexivity|]); cbn; lia.
  - destruct (ci + 1 =? Z.of_nat (String.length p))%Z;
      cbn [fst snd timers pending now phraseIndex charIndex isDeleting
           textContent]; rewrite ?Hpause, ?Hslow;
      (repeat split; [lia|]); eexists; (split; [reflexivity|]); cbn; lia.
Qed.

Variable a0 : animator.
Hypothesis a0_well_formed : well_formed phrases a0.
Hypothesis a0_timer :
  exists t, pending (timers a0) = [t] ∧ due t = startDelay
            ∧ now (timers a0) = 0%nat.

(** After the run at [run_time k] the closure is that of [S k] runs, and
    the one pending timer is due at [run_time (S k)]. *)
Lemma state_at_run_time k :
  let a := loop_ticks (run_time phrases a0 k) a0 in
  same_closure a (run false phrases (S k) a0)
  ∧ now (timers a) = run_time phrases a0 k
  ∧ exists t, pending (timers a) = [t]
              ∧ due t = run_time phrases a0 (S k).
Proof.
  induction k as [|k IH].
  - destruct a0_timer as (t & Hone & Hdue & Hnow).
    destruct a0_well_formed as (p & Hp & _).
    unfold run_time. cbn [duration]. unfold startDelay in *.
    destruct (next_run_fires a0 t 499 p Hp Hone) as (Hsame & Hnow' & Htimer);
      [lia|].
    change (500 + 0)%nat with (S 499).
    rewrite (ticks_next false phrases 499 a0 t Hone) by lia.
    split; [exact Hsame|]. split; [rewrite Hnow', Hdue; reflexivity|].
    destruct Htimer as (t' & Hone' & Hdue'). exists t'.
    split; [exact Hone'|]. rewrite Hdue', Hdue. lia.
  - destruct IH as (Hsame & Hnow & t & Hone & Hdue).
    set (a := loop_ticks (run_time phrases a0 k) a0) in *.
    assert (Hwf : well_formed phrases (run false phrases (S k) a0))
      by (apply run_well_formed; assumption).
    destruct Hwf as (p & Hp & _).
    assert (Hp' : phrases !! phraseIndex a = Some p)
      by (destruct Hsame as (-> & _); exact Hp).
    assert (Hpos : (0 < timeout_of phrases (run false phrases k a0))%nat)
      by (apply timeout_of_positive, run_well_formed; assumption).
    assert (Hstep : forall j, run_time phrases a0 (S j)
                     = (run_time phrases a0 j
                        + timeout_of phrases (run false phrases j a0))%nat).
    { intros j. unfold run_time. rewrite duration_snoc. lia. }
    rewrite (Hstep k) in Hdue.
    destruct (timeout_of phrases (run false phrases k a0)) as [|d] eqn:Hd;
      [lia|].
    destruct (next_run_fires a t d p Hp' Hone) as (Hsame' & Hnow' & Htimer);
      [rewrite Hnow, Hdue; lia|].
    cbv zeta. rewrite (Hstep (S k)), (Hstep k), Hd.
    rewrite ticks_add. fold a.
    rewrite (ticks_next false phrases d a t Hone) by (rewrite Hnow, Hdue; lia).
    split; [|split].
    + rewrite (run_snoc_any phrases false (S k) a0).
      destruct Hsame' as (H1 & H2 & H3 & H4).
      destruct (animateTyping_same_closure phrases false _ _ Hsame)
        as (H5 & H6 & H7 & H8).
      repeat split; congruence.
    + rewrite Hnow', Hdue. reflexivity.
    + destruct Htimer as (t' & Hone' & Hdue'). exists t'.
      split; [exact Hone'|]. rewrite Hdue', Hdue.
      rewrite (timeout_of_same_closure phrases _ _ Hsame). reflexivity.
Qed.

Lemma settle_start : settle timers set_timers
  (fun (_ : unit) a => (animateTyping false phrases a).1) a0 = a0.
Proof.
  destruct a0_timer as (t & Hone & Hdue & Hnow).
  destruct a0 as [pi ci del txt [nw nid pend f]]. cbn in Hone, Hnow.
  subst pend nw. unfold settle. cbn. unfold next_due, is_due. cbn.
  assert (Hnot : ¬ (due t ≤ 0)%nat) by (unfold startDelay in Hdue; lia).
  rewrite (bool_decide_eq_false_2 _ Hnot). reflexivity.
Qed.

(** Before the first run nothing has changed. *)
Lemma state_before_first_run T :
  (T < startDelay)%nat ->
  same_closure (advance false phrases T a0) a0.
Proof.
  intros Hearly. destruct a0_timer as (t & Hone & Hdue & Hnow).
  unfold advance, Timers.advance. rewrite settle_start.
  rewrite (ticks_quiet false phrases T a0 t Hone) by lia.
  repeat split.
Qed.

(** Between two runs the closure and the text are those the earlier run
    left. *)
Lemma state_between_runs k T :
  (run_time phrases a0 k ≤ T < run_time phrases a0 (S k))%nat ->
  same_closure (advance false phrases T a0) (run false phrases (S k) a0).
Proof.
  intros [Hlo Hhi].
  destruct (state_at_run_time k) as (Hsame & Hnow & t & Hone & Hdue).
  unfold advance, Timers.advance. rewrite settle_start.
  replace T with (run_time phrases a0 k + (T - run_time phrases a0 k))%nat
    by lia.
  rewrite ticks_add.
  rewrite (ticks_quiet false phrases _ _ t Hone) by lia.
  exact Hsame.
Qed.

Lemma run_time_increasing k :
  (run_time phrases a0 k < run_time phrases a0 (S k))%nat.
Proof.
  unfold run_time. rewrite duration_snoc.
  assert (0 < timeout_of phrases (run false phrases k a0))%nat
    by (apply timeout_of_positive, run_well_formed; assumption).
  lia.
Qed.

Lemma run_time_covers T :
  (startDelay ≤ T)%nat ->
  exists k, (run_time phrases a0 k ≤ T < run_time phrases a0 (S k))%nat.
Proof.
  intros Hlate.
  assert (Hgrow : forall n, (n < run_time phrases a0 n)%nat).
  { induction n as [|n IH]; [unfold run_time, startDelay; lia|].
    pose proof (run_time_increasing n). lia. }
  assert (Hfind : forall n, (T < run_time phrases a0 n)%nat ->
            exists k, (run_time phrases a0 k ≤ T < run_time phrases a0 (S k))%nat).
  { induction n as [|n IH]; intros Hn.
    - unfold run_time in Hn. cbn [duration] in Hn. lia.
    - destruct (decide (run_time phrases a0 n ≤ T)%nat) as [Hle|Hgt].
      + exists n. lia.
      + apply IH. lia. }
  apply (Hfind T), Hgrow.
Qed.
End TypingScheduleFacts.

(** X18.  With motion allowed and a non-empty list of non-empty ASCII
    phrases, the text of the element is a step function of the time since
    the handler ran: it is the markup's text before 500 ms; the runs of [animateTyping]
    happen at strictly increasing times, the first at 500 ms and each next
    one 2000 ms after a run that completed a phrase, 50 ms after a run that
    deleted a character and 100 ms after any other; every later
    millisecond lies between two consecutive runs, and there the closure
    variables and the text are those left by the earlier of the two. *)
Theorem typing_text_follows_schedule
    (phrases : list string) (text0 : string) (T : nat) :
  phrases ≠ [] ->
  TypingCycle.typable phrases ->
  let a0 := Typing.start text0 in
  let at_run := TypingSchedule.run_time phrases a0 in
  ((T < Typing.startDelay)%nat ->
   Typing.textContent (Typing.advance false phrases T a0) = text0)
  ∧ at_run 0%nat = Typing.startDelay
  ∧ (forall k, at_run (S k)
       = (at_run k
          + TypingSchedule.timeout_of phrases (Typing.run false phrases k a0))%nat
       ∧ (at_run k < at_run (S k))%nat)
  ∧ ((Typing.startDelay ≤ T)%nat ->
     exists k, (at_run k ≤ T < at_run (S k))%nat)
  ∧ (forall k, (at_run k ≤ T < at_run (S k))%nat ->
       TypingCycle.same_closure (Typing.advance false phrases T a0)
         (Typing.run false phrases (S k) a0)).
Proof.
  intros Hne Htyp a0 at_run.
  pose proof (typable_nonempty phrases Htyp) as Hlen.
  assert (Hwf : Typing.well_formed phrases a0).
  { destruct phrases as [|p0 ps]; [congruence|].
    eapply start_well_formed; [exact Hlen|reflexivity]. }
  assert (Htimer : exists t, Timers.pending (Typing.timers a0) = [t]
                     ∧ Timers.due t = Typing.startDelay
                     ∧ Timers.now (Typing.timers a0) = 0%nat)
    by (eexists; repeat split).
  split; [|split; [|split; [|split]]].
  - intros Hearly.
    destruct (state_before_first_run phrases a0 Hwf Htimer T Hearly)
      as (_ & _ & _ & ->). reflexivity.
  - unfold at_run, TypingSchedule.run_time.
    cbn [TypingSchedule.duration]. lia.
  - intros k. split.
    + unfold at_run, TypingSchedule.run_time. rewrite duration_snoc. lia.
    + apply run_time_increasing; assumption.
  - intros Hlate. apply run_time_covers; assumption.
  - intros k Hk. apply state_between_runs; assumption.
Qed.

Lemma typing_text_follows_schedule_witness :
  Typing.site_phrases ≠ []
  ∧ TypingCycle.typable Typing.site_phrases
  ∧ let a0 := Typing.start "" in
    let at_run := TypingSchedule.run_time Typing.site_phrases a0 in
    ((4321 < Typing.startDelay)%nat ->
     Typing.textContent (Typing.advance false Typing.site_phrases 4321 a0) = "")
    ∧ at_run 0%nat = Typing.startDelay
    ∧ (forall k, at_run (S k)
         = (at_run k
            + TypingSchedule.timeout_of Typing.site_phrases
                (Typing.run false Typing.site_phrases k a0))%nat
         ∧ (at_run k < at_run (S k))%nat)
    ∧ ((Typing.startDelay ≤ 4321)%nat ->
       exists k, (at_run k ≤ 4321 < at_run (S k))%nat)
    ∧ (forall k, (at_run k ≤ 4321 < at_run (S k))%nat ->
         TypingCycle.same_closure
           (Typing.advance false Typing.site_phrases 4321 a0)
           (Typing.run false Typing.site_phrases (S k) a0)).
Proof.
  assert (Hne : Typing.site_phrases ≠ []) by discriminate.
  split; [exact Hne|]. split; [exact site_phrases_typable|].
  exact (typing_text_follows_schedule Typing.site_phrases "" 4321 Hne
           site_phrases_typable).
Defined.

(** X19.  With motion allowed and a non-empty list of non-empty ASCII
    phrases, a phrase of [n] characters takes [(n - 1) * 100 + 2000 + n * 50]
    milliseconds from the run that types its first character to the run
    that types the first character of the next phrase, so the run that
    starts the pass after [k] passes through the list happens at
    [500 + k * pass_time] milliseconds, and from then until 100 ms later
    the element shows the first character of the first phrase. *)
Theorem typing_pass_takes_fixed_time
    (phrases : list string) (p0 : string) (rest : list string)
    (text0 : string) (k T : nat) :
  phrases = p0 :: rest ->
  TypingCycle.typable phrases ->
  (1 < String.length p0)%nat ->
  let a0 := Typing.start text0 in
  let t := (Typing.startDelay + k * TypingSchedule.pass_time phrases)%nat in
  TypingSchedule.run_time phrases a0 (k * TypingCycle.total_runs phrases) = t
  ∧ ((t ≤ T < t + Typing.typeSpeed)%nat ->
     Typing.textContent (Typing.advance false phrases T a0)
     = TypingCycle.prefix p0 1).
Proof.
  intros Hphrases Htyp Hlong a0 t.
  pose proof (typable_nonempty phrases Htyp) as Hlen.
  assert (Hne : phrases ≠ []) by (rewrite Hphrases; discriminate).
  assert (Hwf : Typing.well_formed phrases a0)
    by (eapply start_well_formed; [exact Hlen|exact Hphrases]).
  assert (Htimer : exists t, Timers.pending (Typing.timers a0) = [t]
                     ∧ Timers.due t = Typing.startDelay
                     ∧ Timers.now (Typing.timers a0) = 0%nat)
    by (eexists; repeat split).
  assert (Ha0 : TypingCycle.at_phrase 0 a0) by (repeat split).
  set (n := (k * TypingCycle.total_runs phrases)%nat).
  assert (Htime : TypingSchedule.run_time phrases a0 n = t).
  { unfold TypingSchedule.run_time, n.
    rewrite (passes_time phrases Hlen k a0 Hne Ha0). reflexivity. }
  split; [exact Htime|]. intros Hwindow.
  destruct (passes phrases Hlen k a0 Hne Ha0) as (_ & Hi & Hc & Hd).
  fold n in Hi, Hc, Hd.
  assert (Hp : phrases !! Typing.phraseIndex (Typing.run false phrases n a0)
               = Some p0) by (rewrite Hi, Hphrases; reflexivity).
  destruct (animateTyping_grow phrases _ p0 0 Hp Hd Hc) as (_ & _ & _ & Htext).
  assert (Hnext : TypingSchedule.run_time phrases a0 (S n)
                  = (t + Typing.typeSpeed)%nat).
  { unfold TypingSchedule.run_time in *. rewrite duration_snoc.
    unfold TypingSchedule.timeout_of. rewrite Hp, Hd, Hc.
    rewrite (proj2 (Z.eqb_neq _ _)) by lia. lia. }
  destruct (state_between_runs phrases Hlen a0 Hwf Htimer n T)
    as (_ & _ & _ & ->); [lia|].
  rewrite (run_snoc_any phrases false n a0). exact Htext.
Qed.

Lemma typing_pass_takes_fixed_time_witness :
  Typing.site_phrases = "developer." :: ["problem solver."; "computer engineer."]
  ∧ TypingCycle.typable Typing.site_phrases
  ∧ (1 < String.length "developer.")%nat
  ∧ let a0 := Typing.start "" in
    let t := (Typing.startDelay
              + 3 * TypingSchedule.pass_time Typing.site_phrases)%nat in
    TypingSchedule.run_time Typing.site_phrases a0
      (3 * TypingCycle.total_runs Typing.site_phrases) = t
    ∧ ((t ≤ t + 42 < t + Typing.typeSpeed)%nat ->
       Typing.textContent
         (Typing.advance false Typing.site_phrases (t + 42) a0)
       = TypingCycle.prefix "developer." 1).
Proof.
  assert (Hlong : (1 < String.length "developer.")%nat) by (cbn; lia).
  split; [reflexivity|]. split; [exact site_phrases_typable|].
  split; [exact Hlong|].
  exact (typing_pass_takes_fixed_time Typing.site_phrases "developer."
           ["problem solver."; "computer engineer."] "" 3
           (Typing.startDelay
            + 3 * TypingSchedule.pass_time Typing.site_phrases + 42)
           eq_refl site_phrases_typable Hlong).
Defined.

(** ** The sidebar on a page that lacks one of its elements *)

Section SidebarIncompleteFacts.
Import Dom Sidebar SidebarEvents SidebarIncomplete.

Lemma init_incomplete p :
  listeners p = [] -> incomplete p ->
  (init p).1
  = Page (hamburger p) (sidebar p) (overlay p) (body p) [OnKeydown]
      (hamburger_focused p).
Proof.
  intros Hnone Hmissing. unfold init, mbind, js_mbind, js_bind, wire_clicks.
  assert (Hguard : bool_decide (is_Some (hamburger p))
                   && bool_decide (is_Some (sidebar p))
                   && bool_decide (is_Some (overlay p)) = false).
  { destruct Hmissing as [H|[H|H]]; rewrite H;
      rewrite (bool_decide_eq_false_2 (is_Some None))
        by (intros [x Hx]; discriminate);
      rewrite ?andb_false_r; reflexivity. }
  rewrite Hguard. unfold wire_keydown, modify, addEventListener. cbn.
  rewrite Hnone. reflexivity.
Qed.

(** One event on such a page. *)
Lemma dispatch_incomplete q ev :
  listeners q = [OnKeydown] -> incomplete q ->
  let r := dispatch ev q in
  listeners r.1 = [OnKeydown]
  ∧ incomplete r.1
  ∧ late_writes r.1 = late_writes q
  ∧ overlay r.1 = overlay q
  ∧ Forall (fun e => is_TypeError e = true) (uncaught r.2)
  ∧ (length (uncaught r.2) ≤ if is_escape ev then 1 else 0)%nat
  ∧ (is_escape ev = false -> r = (q, Ret tt)).
Proof.
  destruct q as [hb sb ov bd ls fo]. cbn [listeners]. intros -> Hmissing.
  assert (Hkey : bool_decide (OnKeydown ∈ [OnKeydown]) = true)
    by (apply bool_decide_eq_true_2, list_elem_of_singleton; reflexivity).
  assert (Hidle : forall b : bool,
            let r := (Page hb sb ov bd [OnKeydown] fo, @Ret unit tt) in
            listeners r.1 = [OnKeydown]
            ∧ incomplete r.1
            ∧ late_writes r.1 = late_writes (Page hb sb ov bd [OnKeydown] fo)
            ∧ overlay r.1 = overlay (Page hb sb ov bd [OnKeydown] fo)
            ∧ Forall (fun e => is_TypeError e = true) (uncaught r.2)
            ∧ (length (uncaught r.2) ≤ if b then 1 else 0)%nat
            ∧ (b = false -> r = r)).
  { intros b. cbn. split; [reflexivity|]. split; [exact Hmissing|].
    split; [reflexivity|]. split; [reflexivity|]. split; [constructor|].
    split; [lia|reflexivity]. }
  assert (Hthrow : forall what,
            let r := (Page hb sb ov bd [OnKeydown] fo,
                      @Thrown unit (TypeError what)) in
            listeners r.1 = [OnKeydown]
            ∧ incomplete r.1
            ∧ late_writes r.1 = late_writes (Page hb sb ov bd [OnKeydown] fo)
            ∧ overlay r.1 = overlay (Page hb sb ov bd [OnKeydown] fo)
            ∧ Forall (fun e => is_TypeError e = true) (uncaught r.2)
            ∧ (length (uncaught r.2) ≤ 1)%nat
            ∧ (true = false -> r = (Page hb sb ov bd [OnKeydown] fo, Ret tt))).
  { intros what. cbn. split; [reflexivity|]. split; [exact Hmissing|].
    split; [reflexivity|]. split; [reflexivity|].
    split; [repeat constructor|]. split; [lia|discriminate]. }
  destruct ev as [| | |key]; unfold dispatch; cbn [handler is_escape listeners];
    try (rewrite bool_decide_eq_false_2
           by (intros Hin; apply list_elem_of_singleton in Hin; discriminate);
         exact (Hidle false)).
  rewrite Hkey. unfold on_keydown.
  destruct (bool_decide (key = "Escape")); [|exact (Hidle false)].
  unfold mbind, js_mbind, js_bind, deref, js_ret, throw. cbn [sidebar].
  destruct sb as [sb|]; [|exact (Hthrow _)].
  destruct (contains "show" sb); [|exact (Hidle true)].
  unfold toggleSidebar, mbind, js_mbind, js_bind, deref, js_ret, throw, modify.
  cbn [sidebar hamburger].
  destruct hb as [hb|]; [|exact (Hthrow _)].
  destruct ov as [ov|].
  { exfalso. destruct Hmissing as [H|[H|H]]; discriminate. }
  cbn. split; [reflexivity|]. split; [right; right; reflexivity|].
  split; [reflexivity|]. split; [reflexivity|].
  split; [repeat constructor|]. split; [lia|discriminate].
Qed.

Lemma run_events_incomplete evs : forall q,
  listeners q = [OnKeydown] -> incomplete q ->
  let r := run_events evs q in
  late_writes r.1 = late_writes q
  ∧ overlay r.1 = overlay q
  ∧ Forall (fun e => is_TypeError e = true) r.2
  ∧ (length r.2 ≤ length (filter (fun ev => is_escape ev = true) evs))%nat
  ∧ (Forall (fun ev => is_escape ev = false) evs -> r = (q, [])).
Proof.
  induction evs as [|ev evs IH]; intros q Hls Hmissing.
  - cbn. repeat split; [constructor|lia].
  - destruct (dispatch_incomplete q ev Hls Hmissing)
      as (Hls1 & Hmissing1 & Hlate1 & Hov1 & Herr1 & Hlen1 & Hidle1).
    cbn [run_events].
    destruct (dispatch ev q) as [q1 r1] eqn:Hstep. cbn [fst snd] in *.
    destruct (IH q1 Hls1 Hmissing1) as (Hlate & Hov & Herr & Hlen & Hidle).
    destruct (run_events evs q1) as [q2 errs] eqn:Hrest. cbn [fst snd] in *.
    split; [congruence|]. split; [congruence|].
    split; [apply Forall_app; split; assumption|].
    split.
    + rewrite length_app.
      destruct (is_escape ev) eqn:Hesc.
      * rewrite filter_cons_True by exact Hesc. cbn [length]. lia.
      * rewrite filter_cons_False by (rewrite Hesc; discriminate). lia.
    + intros Hnone. inversion Hnone as [|? ? Hev Hevs]; subst.
      specialize (Hidle1 Hev). injection Hidle1 as -> ->.
      specialize (Hidle Hevs). injection Hidle as -> ->. reflexivity.
Qed.
End SidebarIncompleteFacts.

(** X20.  On a page that lacks the hamburger, the panel or the overlay, only
    the keydown listener is attached, and whatever events follow:
    [toggleSidebar] never gets past the missing element, so the class of
    the body, [aria-expanded] and the focus stay as the markup has them and
    the overlay is never touched; every exception that leaves a listener is
    a TypeError, and there is at most one per Escape key press; and events
    other than Escape change nothing at all. *)
Theorem incomplete_sidebar_never_finishes_a_toggle
    (p : Sidebar.page) (evs : list Sidebar.event) :
  Sidebar.listeners p = [] ->
  SidebarIncomplete.incomplete p ->
  let p0 := (SidebarEvents.init p).1 in
  let r := SidebarEvents.run_events evs p0 in
  Sidebar.listeners p0 = [Sidebar.OnKeydown]
  ∧ SidebarIncomplete.late_writes r.1 = SidebarIncomplete.late_writes p
  ∧ Sidebar.overlay r.1 = Sidebar.overlay p
  ∧ Forall (fun e => SidebarIncomplete.is_TypeError e = true) r.2
  ∧ (length r.2
     ≤ length (filter (fun ev => SidebarEvents.is_escape ev = true) evs))%nat
  ∧ (Forall (fun ev => SidebarEvents.is_escape ev = false) evs ->
     r = (p0, [])).
Proof.
  intros Hnone Hmissing p0 r. subst r p0.
  rewrite (init_incomplete p Hnone Hmissing).
  split; [reflexivity|].
  destruct p as [hb sb ov bd ls fo].
  cbn [Sidebar.hamburger Sidebar.sidebar Sidebar.overlay Sidebar.body
       Sidebar.hamburger_focused].
  exact (run_events_incomplete evs
           (Sidebar.Page hb sb ov bd [Sidebar.OnKeydown] fo)
           eq_refl Hmissing).
Qed.

Lemma incomplete_sidebar_never_finishes_a_toggle_witness :
  let p := Sidebar.Page (Some (Samples.plain ["hamburger"; "active"]))
             (Some (Samples.plain ["sidebar"; "show"])) None
             (Samples.plain ["sidebar-open"]) [] false in
  let evs := [Sidebar.ClickHamburger; Sidebar.Keydown "Escape";
              Sidebar.ClickOverlay; Sidebar.Keydown "Escape"] in
  Sidebar.listeners p = []
  ∧ SidebarIncomplete.incomplete p
  ∧ let p0 := (SidebarEvents.init p).1 in
    let r := SidebarEvents.run_events evs p0 in
    Sidebar.listeners p0 = [Sidebar.OnKeydown]
    ∧ SidebarIncomplete.late_writes r.1 = SidebarIncomplete.late_writes p
    ∧ Sidebar.overlay r.1 = Sidebar.overlay p
    ∧ Forall (fun e => SidebarIncomplete.is_TypeError e = true) r.2
    ∧ (length r.2
       ≤ length (filter (fun ev => SidebarEvents.is_escape ev = true) evs))%nat
    ∧ (Forall (fun ev => SidebarEvents.is_escape ev = false) evs ->
       r = (p0, [])).
Proof.
  intros p evs.
  assert (Hnone : Sidebar.listeners p = []) by reflexivity.
  assert (Hmissing : SidebarIncomplete.incomplete p)
    by (right; right; reflexivity).
  split; [exact Hnone|]. split; [exact Hmissing|].
  exact (incomplete_sidebar_never_finishes_a_toggle p evs Hnone Hmissing).
Defined.

(** ** Where the setup of the particle field fails *)

Section SetupFaultsFacts.
Import Page SetupFaults.
Variable h : host.

Lemma first_fault_none cs :
  first_fault h cs = None -> Forall (fun c => faults h c = None) cs.
Proof.
  induction cs as [|c cs IH]; [constructor|]. cbn [first_fault].
  destruct (faults h c) eqn:Hc; [discriminate|].
  intros Hrest. constructor; [exact Hc|apply IH, Hrest].
Qed.

Local Ltac fault_at Hfault c :=
  destruct (faults h c) eqn:?;
  [cbn; injection Hfault as ->; reflexivity|].


(** Once the calls before [animate] have succeeded, the setup is the
    first frame and the two listeners. *)
Lemma setup_reaches_frame w :
  first_fault h calls_before_frame = None ->
  setup h w
  = (first_animate h;; modify (listen "resize");;
     modify (listen "visibilitychange")) w.
Proof.
  intros Hnone. apply first_fault_none in Hnone.
  unfold calls_before_frame in Hnone.
  repeat match type of Hnone with
         | Forall _ (_ :: _) =>
             let Hc := fresh "Hc" in
             apply Forall_cons in Hnone as [Hc Hnone]
         end.
  unfold setup, updateCanvasSize, call, mbind, js_mbind, js_bind.
  rewrite Hc, Hc0, Hc1, Hc2, Hc3, Hc4, Hc5, Hc6, Hc7, Hc8, Hc9, Hc10,
    Hc11, Hc12.
  reflexivity.
Qed.

Lemma setup_fails_at_frame w e :
  first_fault h calls_before_frame = None ->
  first_fault h frame_calls = Some e ->
  setup h w = (set_loop (requested (document_hidden h)) w, Thrown e).
Proof.
  intros Hnone Hfault. rewrite (setup_reaches_frame w Hnone).
  unfold frame_calls in Hfault. cbn [first_fault] in Hfault.
  unfold first_animate, call, mbind, js_mbind, js_bind, throw, modify.
  fault_at Hfault GetElapsedTime. fault_at Hfault Render. discriminate.
Qed.
End SetupFaultsFacts.



(** X22.  When the calls before the first frame succeed and reading the
    clock or rendering throws [e] inside the first [animate], the handler
    catches [e], warns and hides the canvas, but the frame requested at
    line 192 stays with the host, [animate] will run again, and neither the
    resize nor the visibilitychange listener that could cancel it was
    attached. *)
Theorem setup_failing_at_first_frame_keeps_request
    (h : Page.host) (w : Page.world) (cv : Dom.element) (e : exn) :
  Page.canvas w = Some cv ->
  Page.has_THREE h = true ->
  Page.prefersReducedMotion h = false ->
  SetupFaults.first_fault h SetupFaults.calls_before_frame = None ->
  SetupFaults.first_fault h SetupFaults.frame_calls = Some e ->
  let r := Page.init_particles h w in
  r.2 = Ret tt
  ∧ Page.loop r.1 = Some (SetupFaults.requested (Page.document_hidden h))
  ∧ Page.window_listeners r.1 = Page.window_listeners w
  ∧ Page.canvas r.1 = Some (Dom.setStyle "display" "none" cv)
  ∧ Page.console r.1
    = (Page.console w
       ++ [Page.Warn "Three.js animation failed to initialize:" e])%list.
Proof.
  intros Hcanvas Hthree Hmotion Hnone Hfault r. subst r.
  unfold Page.init_particles. rewrite Hcanvas, Hthree, Hmotion.
  rewrite bool_decide_eq_true_2 by (eexists; reflexivity).
  cbn [andb negb]. unfold try_catch.
  rewrite (setup_fails_at_frame h w e Hnone Hfault).
  unfold Page.on_setup_error, mbind, js_mbind, js_bind, modify.
  cbn. rewrite Hcanvas. repeat split.
Qed.

Lemma setup_failing_at_first_frame_keeps_request_witness :
  Page.canvas Samples.blank = Some (Samples.plain [])
  ∧ Page.has_THREE SetupFaults.lost_context = true
  ∧ Page.prefersReducedMotion SetupFaults.lost_context = false
  ∧ SetupFaults.first_fault SetupFaults.lost_context
      SetupFaults.calls_before_frame = None
  ∧ SetupFaults.first_fault SetupFaults.lost_context SetupFaults.frame_calls
    = Some (HostError "WebGL context lost")
  ∧ let r := Page.init_particles SetupFaults.lost_context Samples.blank in
    r.2 = Ret tt
    ∧ Page.loop r.1
      = Some (SetupFaults.requested
                (Page.document_hidden SetupFaults.lost_context))
    ∧ Page.window_listeners r.1 = Page.window_listeners Samples.blank
    ∧ Page.canvas r.1
      = Some (Dom.setStyle "display" "none" (Samples.plain []))
    ∧ Page.console r.1
      = (Page.console Samples.blank
         ++ [Page.Warn "Three.js animation failed to initialize:"
               (HostError "WebGL context lost")])%list.
Proof.
  split; [reflexivity|]. split; [reflexivity|]. split; [reflexivity|].
  split; [reflexivity|]. split; [reflexivity|].
  exact (setup_failing_at_first_frame_keeps_request SetupFaults.lost_context
           Samples.blank (Samples.plain [])
           (HostError "WebGL context lost")
           eq_refl eq_refl eq_refl eq_refl eq_refl).
Defined.



(** ** Lazy images and the 100px margin *)

Section LazyGeometryFacts.
Import LazyImages LazyGeometry.

Lemma hits_entry_at i s :
  hits i (entry_at (distance s) (seen s)) = within 100 i s.
Proof. reflexivity. Qed.

Lemma reported_entries_of i (run : list (list sighting)) :
  reported i (entries_of <$> run) = came_within 100 i run.
Proof.
  unfold reported, came_within.
  induction run as [|b run IH]; [reflexivity|].
  cbn [fmap list_fmap existsb]. rewrite IH. f_equal.
  unfold entries_of. induction b as [|s b IHb]; [reflexivity|].
  cbn [fmap list_fmap existsb]. rewrite IHb. f_equal.
Qed.
End LazyGeometryFacts.

(** X24.  With intersection observation available, take any image of
    [lazyImages] and any run of batches of entries the host queued from
    what it saw of the images, the entries being for watched targets only
    and no target coming twice in a batch.  As long as the image was not
    seen within 100px of the viewport (101px is too far, 100px is not), it
    is as the markup gave it, still watched, and nothing was assigned to its
    [src]; once it was, its [src] is the former [data-src], [data-src] is
    gone, it is no longer watched, and exactly one assignment to its [src]
    was made, however many batches follow. *)
Theorem lazy_image_loads_within_margin
    (imgs : list Dom.element) (run : list (list LazyGeometry.sighting))
    (i : nat) (img : Dom.element) :
  LazyImages.lazyImages imgs !! i = Some img ->
  LazyImages.deliverable_run (LazyImages.init true imgs)
    (LazyGeometry.entries_of <$> run) ->
  let st := LazyImages.deliver (LazyGeometry.entries_of <$> run)
              (LazyImages.init true imgs) in
  LazyGeometry.within 100 i (LazyGeometry.Sighting 100 i) = true
  ∧ LazyGeometry.within 100 i (LazyGeometry.Sighting 101 i) = false
  ∧ exists u,
      Dom.getAttribute "data-src" img = Some u
      ∧ if LazyGeometry.came_within 100 i run
        then LazyImages.src_of st i = Some u
             ∧ LazyImages.data_src_of st i = None
             ∧ (i ∉ LazyImages.observed st)
             ∧ LazyImages.writes_to i st = [u]
        else LazyImages.src_of st i = Dom.getAttribute "src" img
             ∧ LazyImages.data_src_of st i = Some u
             ∧ i ∈ LazyImages.observed st
             ∧ LazyImages.writes_to i st = [].
Proof.
  intros Hi Hrun st.
  split.
  { unfold LazyGeometry.within.
    cbn [LazyGeometry.distance LazyGeometry.seen].
    rewrite (bool_decide_eq_true_2 (i = i) eq_refl). reflexivity. }
  split; [reflexivity|].
  destruct (deliver_settles_image imgs _ i img Hi Hrun) as (u & Hu & Hst).
  exists u. split; [exact Hu|].
  rewrite reported_entries_of in Hst. exact Hst.
Qed.

Lemma lazy_image_loads_within_margin_witness :
  let imgs := [Samples.eager_img "logo.png"; Samples.lazy_img "a.jpg";
               Samples.lazy_img "b.jpg"] in
  let run :=
    [[LazyGeometry.Sighting 2000 0; LazyGeometry.Sighting 2600 1];
     [LazyGeometry.Sighting 101 1];
     [LazyGeometry.Sighting 100 1];
     [LazyGeometry.Sighting 0 0]] in
  LazyImages.lazyImages imgs !! 1%nat = Some (Samples.lazy_img "b.jpg")
  ∧ LazyImages.deliverable_run (LazyImages.init true imgs)
      (LazyGeometry.entries_of <$> run)
  ∧ let st := LazyImages.deliver (LazyGeometry.entries_of <$> run)
                (LazyImages.init true imgs) in
    LazyGeometry.within 100 1 (LazyGeometry.Sighting 100 1) = true
    ∧ LazyGeometry.within 100 1 (LazyGeometry.Sighting 101 1) = false
    ∧ exists u,
        Dom.getAttribute "data-src" (Samples.lazy_img "b.jpg") = Some u
        ∧ if LazyGeometry.came_within 100 1 run
          then LazyImages.src_of st 1 = Some u
               ∧ LazyImages.data_src_of st 1 = None
               ∧ (1%nat ∉ LazyImages.observed st)
               ∧ LazyImages.writes_to 1 st = [u]
          else LazyImages.src_of st 1
               = Dom.getAttribute "src" (Samples.lazy_img "b.jpg")
               ∧ LazyImages.data_src_of st 1 = Some u
               ∧ 1%nat ∈ LazyImages.observed st
               ∧ LazyImages.writes_to 1 st = [].
Proof.
  intros imgs run.
  assert (Hi : LazyImages.lazyImages imgs !! 1%nat
               = Some (Samples.lazy_img "b.jpg")) by (vm_compute; reflexivity).
  assert (Hrun : LazyImages.deliverable_run (LazyImages.init true imgs)
                   (LazyGeometry.entries_of <$> run))
    by (repeat split; apply (bool_decide_unpack _); vm_compute; exact I).
  split; [exact Hi|]. split; [exact Hrun|].
  exact (lazy_image_loads_within_margin imgs run 1 (Samples.lazy_img "b.jpg")
           Hi Hrun).
Defined.
